(** * The price map's aggregation, colouring and statistics core

    A shallow embedding of [dashboard/src/components/PriceMap.tsx] and of the
    statistics part of [dashboard/src/App.tsx]: the zoom-driven choice between
    individual markers and grid clusters, the running-average cluster
    centroid, the green-to-red price colour, and the price summary with its
    gradient-bar markers.

    Numbers.  A JavaScript [number] is modelled by an exact rational [Q]:
    every arithmetic step of the source is kept, in the order the source
    performs it, but without the rounding of IEEE-754 doubles, and without
    the values [NaN] and [Infinity] (the one place where the source can
    produce [NaN], [parseInt], is modelled with [option]).  Equality of
    numbers ([===] on numbers, key equality of a [Map<number, _>]) is [Qeq]. *)

From Stdlib Require Import List String Ascii Bool Arith ZArith QArith Qround
  Qminmax Qabs Lia Lqa Permutation Sorted Setoid Morphisms SetoidList
  SetoidPermutation.
From Stdlib Require DecimalString DecimalN HexadecimalString HexadecimalN.
Import ListNotations.

Local Open Scope string_scope.
Local Open Scope list_scope.
Local Open Scope Q_scope.

(** ** JavaScript primitives used by the source *)

Module JS.

(** A field declared [f?: T | null]: missing ([undefined]), [null] or a value. *)
Inductive optional (A : Type) : Type :=
| Undefined : optional A
| Null : optional A
| Value : A -> optional A.
Arguments Undefined {A}.
Arguments Null {A}.
Arguments Value {A} _.

(** [typeof x === "number"], with the number when it holds. *)
Definition typeof_number (x : optional Q) : option Q :=
  match x with
  | Value q => Some q
  | _ => None
  end.

(** [Math.round]: the nearest integer, ties towards plus infinity. *)
Definition Math_round (x : Q) : Z := Qfloor (x + (1 # 2)).

(** [Math.min(a, b)] and [Math.max(a, b)]. *)
Definition Math_min (a b : Q) : Q := Qmin a b.
Definition Math_max (a b : Q) : Q := Qmax a b.

(** [Math.min(...xs)] and [Math.max(...xs)] on a non-empty argument list
    [x :: xs]. *)
Definition Math_min_list (x : Q) (xs : list Q) : Q := fold_left Math_min xs x.
Definition Math_max_list (x : Q) (xs : list Q) : Q := fold_left Math_max xs x.

(** [x < 0] on numbers. *)
Definition is_negative (x : Q) : bool := negb (Qle_bool 0 x).

(** Decimal digits of a natural number, as [Number.prototype.toString] and
    [toFixed] print an integer part. *)
Definition decimal_of_N (n : N) : string :=
  DecimalString.NilZero.string_of_uint (N.to_uint n).

(** One decimal digit [0..9] as a character. *)
Definition digit_char (d : N) : ascii := ascii_of_N (48 + d).

(** [x.toFixed(2)]: with [n] the integer nearest to [|x| * 100] (the larger
    one on a tie), the digits of [n] with a point before the last two, and a
    minus sign when [x < 0].  (The source applies it to grid anchors, far
    below the 1e21 beyond which [toFixed] switches to exponent notation.) *)
Definition toFixed2 (x : Q) : string :=
  let n := Z.to_N (Qfloor (Qabs x * 100 + (1 # 2))) in
  ((if is_negative x then "-" else "") ++
   decimal_of_N (n / 100) ++ "." ++
   String (digit_char ((n / 10) mod 10))
     (String (digit_char (n mod 10)) ""))%string.

(** [s.replace(pat, "")] for a one-character pattern: the first occurrence
    is removed. *)
Fixpoint replace_first (pat : ascii) (s : string) : string :=
  match s with
  | EmptyString => EmptyString
  | String c rest =>
      if Ascii.eqb c pat then rest else String c (replace_first pat rest)
  end.

(** [s.slice(i, j)] for [0 <= i <= j]. *)
Definition slice (i j : nat) (s : string) : string := substring i (j - i) s.

(** Value of a hexadecimal digit, either case. *)
Definition hex_digit (c : ascii) : option N :=
  let n := N_of_ascii c in
  if (48 <=? n)%N && (n <=? 57)%N then Some (n - 48)%N
  else if (97 <=? n)%N && (n <=? 102)%N then Some (n - 87)%N
  else if (65 <=? n)%N && (n <=? 70)%N then Some (n - 55)%N
  else None.

(** The longest prefix of hexadecimal digits of [s], read as a number with
    [acc] as the digits already seen; [seen] says whether there was one. *)
Fixpoint hex_prefix (s : string) (acc : N) (seen : bool) : option N :=
  match s with
  | EmptyString => if seen then Some acc else None
  | String c rest =>
      match hex_digit c with
      | Some d => hex_prefix rest (16 * acc + d)%N true
      | None => if seen then Some acc else None
      end
  end.

(** White space skipped by [parseInt] (the ASCII part of it). *)
Definition is_space (c : ascii) : bool :=
  let n := N_of_ascii c in
  (n =? 32)%N || ((9 <=? n)%N && (n <=? 13)%N).

Fixpoint skip_spaces (s : string) : string :=
  match s with
  | String c rest => if is_space c then skip_spaces rest else s
  | EmptyString => s
  end.

(** An optional [0x] or [0X] prefix is dropped by [parseInt(_, 16)]. *)
Definition strip_0x (s : string) : string :=
  match s with
  | String "0" (String "x" rest) => rest
  | String "0" (String "X" rest) => rest
  | _ => s
  end.

(** [parseInt(s, 16)]; [None] is [NaN]. *)
Definition parseInt16 (s : string) : option Z :=
  let s := skip_spaces s in
  let (neg, s) :=
    match s with
    | String "-" rest => (true, rest)
    | String "+" rest => (false, rest)
    | _ => (false, s)
    end in
  match hex_prefix (strip_0x s) 0 false with
  | Some n => Some (if neg then (- Z.of_N n)%Z else Z.of_N n)
  | None => None
  end.

(** Lower-case hexadecimal digits of a natural number. *)
Definition hex_of_N (n : N) : string :=
  HexadecimalString.NilZero.string_of_uint (N.to_hex_uint n).

(** [n.toString(16)] on an integer, or on [NaN]. *)
Definition toString16 (n : option Z) : string :=
  match n with
  | None => "NaN"
  | Some z =>
      if (z <? 0)%Z then ("-" ++ hex_of_N (Z.to_N (- z)))%string
      else hex_of_N (Z.to_N z)
  end.

(** [s.padStart(2, "0")]. *)
Definition padStart2 (s : string) : string :=
  match String.length s with
  | O => "00"
  | S O => ("0" ++ s)%string
  | _ => s
  end.

(** A stable sort by a comparator, as [Array.prototype.sort((a, b) => ...)]
    with a consistent comparator: [insert] puts an element before the first
    one it does not exceed. *)
Section Sort.
Context {A : Type} (leb : A -> A -> bool).

Fixpoint insert (x : A) (l : list A) : list A :=
  match l with
  | [] => [x]
  | y :: l' => if leb x y then x :: l else y :: insert x l'
  end.

Fixpoint sort (l : list A) : list A :=
  match l with
  | [] => []
  | x :: l' => insert x (sort l')
  end.
End Sort.

(** A [Map<K, V>] keeps its entries in insertion order; [get] finds the entry
    of a key, [set] replaces the value of a present key in place and appends
    an absent one. *)
Section Map.
Context {K V : Type} (eqb : K -> K -> bool).

Fixpoint Map_get (k : K) (m : list (K * V)) : option V :=
  match m with
  | [] => None
  | (k', v) :: m' => if eqb k k' then Some v else Map_get k m'
  end.

Fixpoint Map_set (k : K) (v : V) (m : list (K * V)) : list (K * V) :=
  match m with
  | [] => [(k, v)]
  | (k', v') :: m' =>
      if eqb k k' then (k', v) :: m' else (k', v') :: Map_set k v m'
  end.

Definition Map_values (m : list (K * V)) : list V := map snd m.
Definition Map_entries (m : list (K * V)) : list (K * V) := m.
End Map.

End JS.

Import JS.

(** ** Data model *)

(** [StorePoint]: the price fields are optional and nullable, the
    coordinates nullable. *)
Record StorePoint : Type := mkStorePoint {
  location_id : string;
  name : string;
  chain : option string;
  city : option string;
  state : option string;
  latitude : option Q;
  longitude : option Q;
  regular_price : optional Q;
  promo_price : optional Q;
  price_date : optional string
}.

(** [Cluster]. *)
Record Cluster : Type := mkCluster {
  lat : Q;
  lng : Q;
  stores : list StorePoint
}.

(** ** PriceMap: points, clusters and individual points *)

(** [s.latitude !== null && s.longitude !== null]. *)
Definition has_coordinates (s : StorePoint) : bool :=
  match latitude s, longitude s with
  | Some _, Some _ => true
  | _, _ => false
  end.

(** [points]: the stores with both coordinates. *)
Definition points (stores : list StorePoint) : list StorePoint :=
  filter has_coordinates stores.

(** [s.latitude as number]: the cast has no run-time effect; on [points] the
    coordinate is there, and JavaScript arithmetic reads [null] as [0]. *)
Definition as_number (c : option Q) : Q :=
  match c with
  | Some q => q
  | None => 0
  end.

(** The grid size of the clustered mode. *)
Definition gridSize (zoom : Q) : Q :=
  if Qle_bool zoom 4 then 6
  else if Qle_bool zoom 7 then 3.5
  else 1.5.

(** The grid anchor of a coordinate: [Math.round(x / gridSize) * gridSize]. *)
Definition gridAnchor (g x : Q) : Q := inject_Z (Math_round (x / g)) * g.

(** The key of a store's grid cell:
    [`${keyLat.toFixed(2)}_${keyLng.toFixed(2)}`]. *)
Definition cellKey (g : Q) (s : StorePoint) : string :=
  let keyLat := gridAnchor g (as_number (latitude s)) in
  let keyLng := gridAnchor g (as_number (longitude s)) in
  (toFixed2 keyLat ++ "_" ++ toFixed2 keyLng)%string.

Definition ClusterMap : Type := list (string * Cluster).

(** One turn of the loop over [points]: a store opens the cluster of its
    cell, or joins it and moves the centre by the running average. *)
Definition addStore (g : Q) (clusterMap : ClusterMap) (s : StorePoint)
  : ClusterMap :=
  let la := as_number (latitude s) in
  let ln := as_number (longitude s) in
  let key := cellKey g s in
  match Map_get String.eqb key clusterMap with
  | None =>
      Map_set String.eqb key
        {| lat := la; lng := ln; stores := [s] |} clusterMap
  | Some existing =>
      let stores' := stores existing ++ [s] in
      let n := inject_Z (Z.of_nat (List.length stores')) in
      Map_set String.eqb key
        {| lat := lat existing + (la - lat existing) / n;
           lng := lng existing + (ln - lng existing) / n;
           stores := stores' |} clusterMap
  end.

(** The whole loop, from the empty map. *)
Definition clusterMapOf (g : Q) (pts : list StorePoint) : ClusterMap :=
  fold_left (addStore g) pts [].

(** The pair computed by the [clusters]/[individualPoints] memo. *)
Record Classified : Type := mkClassified {
  clusters : list Cluster;
  individualPoints : list StorePoint
}.

Definition classify (pts : list StorePoint) (zoom : Q) : Classified :=
  if (List.length pts =? 0)%nat then
    {| clusters := []; individualPoints := [] |}
  else if Qle_bool 11 zoom then
    {| clusters := []; individualPoints := pts |}
  else
    {| clusters := Map_values (clusterMapOf (gridSize zoom) pts);
       individualPoints := [] |}.

(** What [PriceMap] computes from its [stores] prop at a zoom level. *)
Definition PriceMap_classify (sts : list StorePoint) (zoom : Q) : Classified :=
  classify (points sts) zoom.

(** ** PriceMap: the price range and the price colour *)

(** The value read from a store by the [priceRange] memo ([val]). *)
Definition priceRange_val (s : StorePoint) : option Q :=
  match typeof_number (promo_price s) with
  | Some p => Some p
  | None =>
      match typeof_number (regular_price s) with
      | Some r => Some r
      | None => None
      end
  end.

(** The [prices] array filled by the loop of the [priceRange] memo. *)
Definition priceRange_prices (pts : list StorePoint) : list Q :=
  fold_left
    (fun prices s =>
       match priceRange_val s with
       | Some v => prices ++ [v]
       | None => prices
       end)
    pts [].

Record PriceRange : Type := mkPriceRange {
  range_min : option Q;
  range_max : option Q
}.

Definition priceRange (pts : list StorePoint) : PriceRange :=
  match priceRange_prices pts with
  | [] => {| range_min := None; range_max := None |}
  | p :: ps =>
      {| range_min := Some (Math_min_list p ps);
         range_max := Some (Math_max_list p ps) |}
  end.

(** [clampT] of [lerpColor]: [Math.max(0, Math.min(1, t))]. *)
Definition clampT (t : Q) : Q := Math_max 0 (Math_min 1 t).

(** One colour channel of [lerpColor]:
    [Math.round(s + (e - s) * clampT)], [NaN] when an endpoint is. *)
Definition lerpChannel (s e : option Z) (t : Q) : option Z :=
  match s, e with
  | Some s, Some e =>
      Some (Math_round (inject_Z s + (inject_Z e - inject_Z s) * clampT t))
  | _, _ => None
  end.

Definition lerpColor (startHex endHex : string) (t : Q) : string :=
  let sh := replace_first "#" startHex in
  let eh := replace_first "#" endHex in
  let sr := parseInt16 (slice 0 2 sh) in
  let sg := parseInt16 (slice 2 4 sh) in
  let sb := parseInt16 (slice 4 6 sh) in
  let er := parseInt16 (slice 0 2 eh) in
  let eg := parseInt16 (slice 2 4 eh) in
  let eb := parseInt16 (slice 4 6 eh) in
  let r := lerpChannel sr er t in
  let g := lerpChannel sg eg t in
  let b := lerpChannel sb eb t in
  let hr := padStart2 (toString16 r) in
  let hg := padStart2 (toString16 g) in
  let hb := padStart2 (toString16 b) in
  ("#" ++ hr ++ hg ++ hb)%string.

(** The value read from a store by [getPriceColor] ([basePrice]). *)
Definition getPriceColor_basePrice (store : StorePoint) : option Q :=
  match typeof_number (promo_price store) with
  | Some p => Some p
  | None =>
      match typeof_number (regular_price store) with
      | Some r => Some r
      | None => None
      end
  end.

Definition FALLBACK_COLOR : string := "#007bff".
Definition LOW_COLOR : string := "#2ecc71".
Definition HIGH_COLOR : string := "#e74c3c".

(** The [t] that [getPriceColor] hands to [lerpColor]; [None] on the branch
    that returns the fallback colour. *)
Definition getPriceColor_t (priceRange : PriceRange) (store : StorePoint)
  : option Q :=
  match getPriceColor_basePrice store,
        range_min priceRange, range_max priceRange with
  | Some basePrice, Some mn, Some mx =>
      if Qeq_bool mx mn then None
      else Some ((basePrice - mn) / (mx - mn))
  | _, _, _ => None
  end.

Definition getPriceColor (priceRange : PriceRange) (store : StorePoint)
  : string :=
  match getPriceColor_t priceRange store with
  | None => FALLBACK_COLOR
  | Some t => lerpColor LOW_COLOR HIGH_COLOR t
  end.

(** ** App: the stores handed to the map and the price statistics *)

(** [!selectedProductUpc]: the empty string is the only falsy string. *)
Definition no_selection (selectedProductUpc : string) : bool :=
  String.eqb selectedProductUpc "".

(** [typeof s.promo_price === "number" ||
     typeof s.regular_price === "number"]. *)
Definition has_price (s : StorePoint) : bool :=
  match typeof_number (promo_price s), typeof_number (regular_price s) with
  | None, None => false
  | _, _ => true
  end.

(** [storesForMap]: with a product selected, only the stores with a price. *)
Definition storesForMap (selectedProductUpc : string)
  (storesWithPrice : list StorePoint) : list StorePoint :=
  if no_selection selectedProductUpc then storesWithPrice
  else filter has_price storesWithPrice.

(** The value read from a store by the [priceStats] memo ([base]). *)
Definition priceStats_base (s : StorePoint) : option Q :=
  match typeof_number (promo_price s) with
  | Some p => Some p
  | None =>
      match typeof_number (regular_price s) with
      | Some r => Some r
      | None => None
      end
  end.

(** [Math.round(base * 100) / 100].  On doubles the product [base * 100] is
    rounded before [Math.round] sees it, so a price with more than two
    decimals that lies next to a half hundredth can come out one hundredth
    away from its exact rounding; a price that is a whole number of
    hundredths comes out unchanged either way. *)
Definition round2 (base : Q) : Q := inject_Z (Math_round (base * 100)) / 100.

Record Bucket : Type := mkBucket {
  price : Q;
  count : nat
}.

Record PriceStats : Type := mkPriceStats {
  stats_min : Q;
  stats_median : Q;
  stats_max : Q;
  stats_mean : Q;
  stats_count : nat;
  distribution : list Bucket
}.

(** [countsMap.set(price, (countsMap.get(price) ?? 0) + 1)]. *)
Definition countsMap_add (price : Q) (countsMap : list (Q * nat))
  : list (Q * nat) :=
  Map_set Qeq_bool price
    (match Map_get Qeq_bool price countsMap with
     | Some c => c
     | None => O
     end + 1)%nat
    countsMap.

(** One turn of the loop of the [priceStats] memo, on the pair of [values]
    and [countsMap]. *)
Definition priceStats_step (acc : list Q * list (Q * nat)) (s : StorePoint)
  : list Q * list (Q * nat) :=
  let (values, countsMap) := acc in
  match priceStats_base s with
  | Some base =>
      let price := round2 base in
      (values ++ [price], countsMap_add price countsMap)
  | None => acc
  end.

(** [values[i]]; the source only reads inside the array. *)
Definition at_index (values : list Q) (i : nat) : Q := nth i values 0.

(** The part of the memo after the loop, reached with a non-empty
    [values]; [mid] is [Math.floor(values.length / 2)]; [sum] adds the
    sorted values up from 0, in ascending order, as [reduce] does (on
    doubles every one of these additions rounds). *)
Definition priceStats_summary (values : list Q) (countsMap : list (Q * nat))
  : PriceStats :=
  let values := sort Qle_bool values in
  let len := List.length values in
  let mid := (len / 2)%nat in
  let median :=
    if (len mod 2 =? 1)%nat then at_index values mid
    else (at_index values (mid - 1) + at_index values mid) / 2 in
  let sum := fold_left Qplus values 0 in
  let mean := sum / inject_Z (Z.of_nat len) in
  let distribution :=
    sort (fun a b => Qle_bool (price a) (price b))
      (map (fun e => {| price := fst e; count := snd e |})
         (Map_entries countsMap)) in
  {| stats_min := at_index values 0;
     stats_median := median;
     stats_max := at_index values (len - 1);
     stats_mean := mean;
     stats_count := len;
     distribution := distribution |}.

Definition priceStats (selectedProductUpc : string)
  (storesForMap : list StorePoint) : option PriceStats :=
  if no_selection selectedProductUpc then None
  else
    let (values, countsMap) := fold_left priceStats_step storesForMap ([], []) in
    if (List.length values =? 0)%nat then None
    else Some (priceStats_summary values countsMap).

(** The statistics as [App] computes them from [storesWithPrice]. *)
Definition App_priceStats (selectedProductUpc : string)
  (storesWithPrice : list StorePoint) : option PriceStats :=
  priceStats selectedProductUpc
    (storesForMap selectedProductUpc storesWithPrice).

(** The gradient-bar marker of a bucket: nothing when [max === min], else
    its [position], in percent. *)
Definition markerPosition (priceStats : PriceStats) (bucket : Bucket)
  : option Q :=
  if Qeq_bool (stats_max priceStats) (stats_min priceStats) then None
  else
    let t := (price bucket - stats_min priceStats)
             / (stats_max priceStats - stats_min priceStats) in
    Some (Math_max 0 (Math_min 1 t) * 100).

(** ** PriceMap: the view requested from the map *)

(** [DEFAULT_ZOOM]. *)
Definition DEFAULT_ZOOM : Q := 4.

(** The arguments of a call [map.setView(center, zoom)]. *)
Record View : Type := mkView {
  view_center : Q * Q;
  view_zoom : Q
}.

(** [handleClick] of [ClusterMarker], from the zoom [map.getZoom()]
    returns: the view it asks the map for. *)
Definition ClusterMarker_handleClick (currentZoom : Q) (cluster : Cluster)
  : View :=
  let targetZoom := Math_min 13 (currentZoom + 2) in
  {| view_center := (lat cluster, lng cluster); view_zoom := targetZoom |}.

(** The number shown on the icon of a cluster: [cluster.stores.length]. *)
Definition ClusterMarker_count (cluster : Cluster) : nat :=
  List.length (stores cluster).

(** ** App: fetched rows, filter options, filters and attached prices *)

(** [StorePriceRow]. *)
Record StorePriceRow : Type := mkStorePriceRow {
  row_location_id : string;
  row_regular_price : option Q;
  row_promo_price : option Q;
  row_price_date : string
}.

(** [res.data ?? []] on the response of one page request. *)
Definition response_rows {A : Type} (data : option (list A)) : list A :=
  match data with
  | Some rows => rows
  | None => []
  end.

(** [results.flatMap((res) => res.data ?? [])]. *)
Definition allData {A : Type} (results : list (option (list A))) : list A :=
  flat_map response_rows results.

(** [uniqueStores] of [fetchStores]: the rows of all pages, entered in a
    map by [location_id]. *)
Definition uniqueStores (results : list (option (list StorePoint)))
  : list StorePoint :=
  let byId :=
    fold_left (fun byId row => Map_set String.eqb (location_id row) row byId)
      (allData results) [] in
  Map_values byId.

(** [map.has(key)]. *)
Definition Map_has {V : Type} (k : string) (m : list (string * V)) : bool :=
  match Map_get String.eqb k m with
  | Some _ => true
  | None => false
  end.

(** The price rows kept by [fetchPricesForProduct]: a row is entered in
    [latestByLocation] only when its location has none yet. *)
Definition latestByLocation (results : list (option (list StorePriceRow)))
  : list StorePriceRow :=
  let latestByLocation :=
    fold_left
      (fun m r =>
         if negb (Map_has (row_location_id r) m)
         then Map_set String.eqb (row_location_id r) r m
         else m)
      (allData results) [] in
  Map_values latestByLocation.

(** [set.add(x)] on a [Set<string>], kept in insertion order. *)
Definition Set_add (x : string) (set : list string) : list string :=
  if existsb (String.eqb x) set then set else set ++ [x].

(** The options of a filter drop-down ([uniqueStates], [uniqueChains]): the
    truthy values of a field, each once, sorted by [Array.prototype.sort()]
    (code-unit order). *)
Definition uniqueOptions (field : StorePoint -> option string)
  (sts : list StorePoint) : list string :=
  let set :=
    fold_left
      (fun set s =>
         match field s with
         | Some x => if String.eqb x "" then set else Set_add x set
         | None => set
         end)
      sts [] in
  sort String.leb set.

Definition uniqueStates (sts : list StorePoint) : list string :=
  uniqueOptions state sts.
Definition uniqueChains (sts : list StorePoint) : list string :=
  uniqueOptions chain sts.

(** [selected === "ALL" || field === selected] on a nullable field. *)
Definition matches (selected : string) (field : option string) : bool :=
  String.eqb selected "ALL"
  || match field with
     | Some x => String.eqb x selected
     | None => false
     end.

(** [filteredStores], in the version of [App] that filters by state and
    chain. *)
Definition filteredStores (sts : list StorePoint)
  (selectedState selectedChain : string) : list StorePoint :=
  filter
    (fun s =>
       let matchesState := matches selectedState (state s) in
       let matchesChain := matches selectedChain (chain s) in
       matchesState && matchesChain)
    sts.

(** [{...s, regular_price, promo_price, price_date}]. *)
Definition with_price (s : StorePoint) (regular promo : optional Q)
  (date : optional string) : StorePoint :=
  {| location_id := location_id s; name := name s; chain := chain s;
     city := city s; state := state s; latitude := latitude s;
     longitude := longitude s; regular_price := regular;
     promo_price := promo; price_date := date |}.

(** [priceRow?.field ?? null]. *)
Definition row_field {A : Type} (priceRow : option StorePriceRow)
  (field : StorePriceRow -> option A) : optional A :=
  match priceRow with
  | Some r =>
      match field r with
      | Some a => Value a
      | None => Null
      end
  | None => Null
  end.

(** [storesWithPrice]: the filtered stores with the price row of their
    location attached. *)
Definition storesWithPrice (filteredStores : list StorePoint)
  (productPrices : list StorePriceRow) : list StorePoint :=
  if (List.length productPrices =? 0)%nat then
    map (fun s => with_price s Null Null Null) filteredStores
  else
    let priceByLocation :=
      fold_left (fun m p => Map_set String.eqb (row_location_id p) p m)
        productPrices [] in
    map
      (fun s =>
         let priceRow :=
           Map_get String.eqb (location_id s) priceByLocation in
         with_price s
           (row_field priceRow row_regular_price)
           (row_field priceRow row_promo_price)
           (row_field priceRow (fun r => Some (row_price_date r))))
      filteredStores.

(** ** Notions used to state the properties *)

(** Sum and arithmetic mean of a list of numbers. *)
Definition sumQ (xs : list Q) : Q := fold_right Qplus 0 xs.

Definition arithmetic_mean (xs : list Q) : Q :=
  sumQ xs / inject_Z (Z.of_nat (List.length xs)).

(** The coordinates of the members of a cluster. *)
Definition member_lats (c : Cluster) : list Q :=
  map (fun s => as_number (latitude s)) (stores c).
Definition member_lngs (c : Cluster) : list Q :=
  map (fun s => as_number (longitude s)) (stores c).

(** A cluster has members and sits at the mean of their coordinates. *)
Definition centroid_is_mean (c : Cluster) : Prop :=
  stores c <> [] /\
  lat c == arithmetic_mean (member_lats c) /\
  lng c == arithmetic_mean (member_lngs c).

(** The stores of a list that fall in the grid cell of key [k]. *)
Definition in_cell (g : Q) (k : string) (s : StorePoint) : bool :=
  String.eqb (cellKey g s) k.
Definition cell_members (g : Q) (k : string) (pts : list StorePoint)
  : list StorePoint :=
  filter (in_cell g k) pts.

(** A list as an optional non-empty list. *)
Definition nonempty {A : Type} (l : list A) : option (list A) :=
  match l with
  | [] => None
  | _ => Some l
  end.

(** Every store shown by a classification, clusters first. *)
Definition shown (r : Classified) : list StorePoint :=
  flat_map stores (clusters r) ++ individualPoints r.

(** Whether a character occurs in a string. *)
Fixpoint contains_char (c : ascii) (s : string) : bool :=
  match s with
  | EmptyString => false
  | String a rest => Ascii.eqb a c || contains_char c rest
  end.

(** The characters ["0"] to ["9"]. *)
Definition is_decimal_digit (c : ascii) : bool :=
  (48 <=? N_of_ascii c)%N && (N_of_ascii c <=? 57)%N.

(** The number of hundredths printed by [toFixed2], without its sign. *)
Definition hundredths (x : Q) : N := Z.to_N (Qfloor (Qabs x * 100 + (1 # 2))).

(** The grid index of a coordinate: [Math.round(x / gridSize)]. *)
Definition gridIndex (g x : Q) : Z := Math_round (x / g).

(** The effective value of a store, in the words of the specification: the
    promo value if present and numeric, else the regular value if present
    and numeric, else absent. *)
Definition EffectiveValue (s : StorePoint) : option Q :=
  match promo_price s with
  | Value promo => Some promo
  | _ =>
      match regular_price s with
      | Value regular => Some regular
      | _ => None
      end
  end.

(** The effective values of the stores that have one, in order. *)
Definition effective_values (sts : list StorePoint) : list Q :=
  flat_map
    (fun s => match EffectiveValue s with Some v => [v] | None => [] end) sts.

(** The three channels of a colour [#rrggbb], read the way [lerpColor] reads
    its endpoints. *)
Definition channels (hex : string) : option (Z * Z * Z) :=
  let h := replace_first "#" hex in
  match parseInt16 (slice 0 2 h), parseInt16 (slice 2 4 h),
        parseInt16 (slice 4 6 h) with
  | Some r, Some g, Some b => Some (r, g, b)
  | _, _, _ => None
  end.

(** The cases in which no colour order exists: no effective value, no
    minimum, no maximum, or a minimum equal to the maximum. *)
Definition degenerate (range : PriceRange) (s : StorePoint) : Prop :=
  EffectiveValue s = None
  \/ range_min range = None
  \/ range_max range = None
  \/ exists mn mx,
       range_min range = Some mn /\ range_max range = Some mx /\ mx == mn.

(** Two hexadecimal digits of a channel value. *)
Definition hex2 (z : Z) : string := padStart2 (toString16 (Some z)).

(** A channel value prints as two characters that [parseInt16] reads
    back. *)
Definition hex2_reads_back (z : Z) : bool :=
  match hex2 z with
  | String a (String b EmptyString) =>
      match parseInt16 (String a (String b EmptyString)) with
      | Some z' => (z' =? z)%Z
      | None => false
      end
  | _ => false
  end.

(** The [countsMap] built from a list of prices. *)
Definition countsMap_of (prices : list Q) : list (Q * nat) :=
  fold_left (fun m p => countsMap_add p m) prices [].

(** How often a number occurs in a list, up to equality of numbers. *)
Definition occurrences (p : Q) (vs : list Q) : nat :=
  List.length (filter (Qeq_bool p) vs).

(** The rounded effective values of the stores: the [values] array before
    it is sorted. *)
Definition rounded_values (sts : list StorePoint) : list Q :=
  map round2 (effective_values sts).

(** The [distribution] computed from the [countsMap] of a list of prices. *)
Definition distribution_of (prices : list Q) : list Bucket :=
  sort (fun a b => Qle_bool (price a) (price b))
    (map (fun e => {| price := fst e; count := snd e |})
       (Map_entries (countsMap_of prices))).

(** How many numbers of a list do not exceed [x], and how many are not
    below it. *)
Definition count_at_most (x : Q) (vs : list Q) : nat :=
  List.length (filter (fun v => Qle_bool v x) vs).
Definition count_at_least (x : Q) (vs : list Q) : nat :=
  List.length (filter (fun v => Qle_bool x v) vs).

(** A number of positive occurrences, or nothing. *)
Definition positive (n : nat) : option nat :=
  match n with
  | O => None
  | _ => Some n
  end.

(** The marker of a bucket sits where the colour of a store is taken: the
    marker's position, in percent, is the clamped [t] of the colour, or
    there is neither marker nor interpolated colour. *)
Definition marker_matches_colour (position t : option Q) : Prop :=
  match position, t with
  | Some p, Some t => p == clampT t * 100
  | None, None => True
  | _, _ => False
  end.

(** Every entry of a map of rows sits under the key of its row, and no key
    is entered twice. *)
Definition keyed {A : Type} (key : A -> string) (m : list (string * A))
  : Prop :=
  NoDup (map fst m) /\ forall k r, In (k, r) m -> key r = k.

(** The price row that [storesWithPrice] attaches to a store: the last row
    of its location in [productPrices]. *)
Definition attached_row (productPrices : list StorePriceRow) (s : StorePoint)
  : option StorePriceRow :=
  find (fun r => String.eqb (row_location_id r) (location_id s))
    (rev productPrices).

(** The first row of a location among fetched rows. *)
Definition first_row (rows : list StorePriceRow) (id : string)
  : option StorePriceRow :=
  find (fun r => String.eqb (row_location_id r) id) rows.

(** The effective value of a price row: promo before regular. *)
Definition row_value (r : StorePriceRow) : option Q :=
  match row_promo_price r with
  | Some promo => Some promo
  | None => row_regular_price r
  end.

(** A nullable column of a price row as a field of a store: the value, or
    [null]. *)
Definition nullable {A : Type} (o : option A) : optional A :=
  match o with
  | Some a => Value a
  | None => Null
  end.

(** Two stores that differ in their price fields at most. *)
Definition same_place (s' s : StorePoint) : Prop :=
  location_id s' = location_id s /\ name s' = name s
  /\ chain s' = chain s /\ city s' = city s /\ state s' = state s
  /\ latitude s' = latitude s /\ longitude s' = longitude s.

(** The zoom asked for after a run of cluster clicks, each click starting
    from the zoom asked for by the one before. *)
Definition zoom_after (clicked : list Cluster) (zoom : Q) : Q :=
  fold_left (fun z c => view_zoom (ClusterMarker_handleClick z c))
    clicked zoom.

(** The number of cluster clicks that lead from a zoom below 11 to the
    individual mode. *)
Definition clicks_to_individual (zoom : Q) : nat :=
  Z.to_nat (Qceiling ((11 - zoom) / 2)).

(** ** Example data *)

(** A store with the given identity, coordinates and prices. *)
Definition store_at (id : string) (la ln : option Q)
  (regular promo : optional Q) : StorePoint :=
  {| location_id := id; name := id; chain := None; city := None;
     state := None; latitude := la; longitude := ln;
     regular_price := regular; promo_price := promo;
     price_date := Undefined |}.

(** Two stores in New York, one in Denver, and one without coordinates. *)
Definition store_a : StorePoint :=
  store_at "a" (Some 40.70) (Some (-74.00)) (Value 2.00) (Value 1.00).
Definition store_b : StorePoint :=
  store_at "b" (Some 40.71) (Some (-74.01)) (Value 2.00) Null.
Definition store_c : StorePoint :=
  store_at "c" (Some 39.74) (Some (-104.99)) (Value 3.00) Undefined.
Definition store_d : StorePoint :=
  store_at "d" None (Some (-80.00)) (Value 1.00) Undefined.

Definition example_stores : list StorePoint :=
  [store_a; store_b; store_c; store_d].
Definition example_stores_reordered : list StorePoint :=
  [store_d; store_c; store_b; store_a].

(** Four stores whose effective values are 1.00, 1.00, 2.00 and 3.00. *)
Definition priced_stores : list StorePoint :=
  [store_a; store_d; store_b; store_c].

(** A scope in which the cheapest store has no coordinates. *)
Definition scope_with_unlocated : list StorePoint :=
  [store_d; store_b; store_c].

(** A located store whose price has a third decimal, and its scope. *)
Definition store_e : StorePoint :=
  store_at "e" (Some 41.88) (Some (-87.63)) (Value 1.004) Undefined.
Definition scope_with_unrounded : list StorePoint :=
  [store_e; store_b; store_c].

(** A scope in which every store has coordinates. *)
Definition located_scope : list StorePoint := [store_a; store_b; store_c].

(** The statistics of the two scopes, and the bucket of the price 2.00. *)
Definition located_stats : PriceStats :=
  priceStats_summary (rounded_values located_scope)
    (countsMap_of (rounded_values located_scope)).
Definition unlocated_stats : PriceStats :=
  priceStats_summary (rounded_values scope_with_unlocated)
    (countsMap_of (rounded_values scope_with_unlocated)).
Definition unrounded_stats : PriceStats :=
  priceStats_summary (rounded_values scope_with_unrounded)
    (countsMap_of (rounded_values scope_with_unrounded)).
Definition bucket_2 : Bucket := {| price := round2 2.00; count := 1 |}.

(** The New York cluster of [example_stores] at the national zoom levels:
    the centre is the running average the loop computes. *)
Definition example_cluster : Cluster :=
  {| lat := 40.70 + (40.71 - 40.70) / 2;
     lng := -74.00 + (-74.01 - -74.00) / 2;
     stores := [store_a; store_b] |}.

(** Stores with a state and a chain. *)
Definition store_in (id : string) (st ch : option string) : StorePoint :=
  {| location_id := id; name := id; chain := ch; city := None;
     state := st; latitude := Some 40.00; longitude := Some (-83.00);
     regular_price := Undefined; promo_price := Undefined;
     price_date := Undefined |}.
Definition stores_with_states : list StorePoint :=
  [store_in "1" (Some "OH") (Some "KROGER");
   store_in "2" (Some "KY") (Some "KROGER");
   store_in "3" None (Some "RALPHS");
   store_in "4" (Some "OH") (Some "");
   store_in "5" (Some "CA") None].

(** Three page responses for the stores: the second page has no data, the
    third repeats the location of [store_a] with other coordinates. *)
Definition store_a_again : StorePoint :=
  store_at "a" (Some 40.75) (Some (-73.99)) Undefined Undefined.
Definition store_pages : list (option (list StorePoint)) :=
  [Some [store_a; store_b]; None; Some [store_a_again; store_c]].

(** Price rows of one product: two rows for location [a], none for [c]. *)
Definition row_a : StorePriceRow :=
  {| row_location_id := "a"; row_regular_price := Some 2.00;
     row_promo_price := Some 1.00; row_price_date := "2025-01-02" |}.
Definition row_a_older : StorePriceRow :=
  {| row_location_id := "a"; row_regular_price := Some 2.50;
     row_promo_price := None; row_price_date := "2025-01-01" |}.
Definition row_b : StorePriceRow :=
  {| row_location_id := "b"; row_regular_price := Some 2.00;
     row_promo_price := None; row_price_date := "2025-01-02" |}.
Definition price_pages : list (option (list StorePriceRow)) :=
  [Some [row_a; row_b]; Some [row_a_older]; None].

(** Price rows in which the later row of location [a] is the last. *)
Definition price_rows : list StorePriceRow := [row_a_older; row_b; row_a].

(** * Properties *)

(** ** Insertion-ordered maps with string keys *)

Section StringMap.
Context {V : Type}.
Implicit Types (m : list (string * V)) (k : string) (v : V).

Lemma Map_get_set_same k v m :
  Map_get String.eqb k (Map_set String.eqb k v m) = Some v.
Proof.
  induction m as [|[k' v'] m IH]; simpl.
  - now rewrite String.eqb_refl.
  - destruct (String.eqb k k') eqn:E; simpl; rewrite E; auto.
Qed.

Lemma Map_get_set_other k k' v m :
  k' <> k ->
  Map_get String.eqb k' (Map_set String.eqb k v m) = Map_get String.eqb k' m.
Proof.
  intros Hne. induction m as [|[k0 v0] m IH]; simpl.
  - apply String.eqb_neq in Hne. now rewrite Hne.
  - destruct (String.eqb k k0) eqn:E; simpl.
    + apply String.eqb_eq in E. subst k0.
      apply String.eqb_neq in Hne. now rewrite Hne.
    + now rewrite IH.
Qed.

Lemma Map_get_none_keys k m :
  Map_get String.eqb k m = None <-> ~ In k (map fst m).
Proof.
  induction m as [|[k' v'] m IH]; simpl.
  - tauto.
  - destruct (String.eqb k k') eqn:E.
    + apply String.eqb_eq in E. subst. split; [discriminate | tauto].
    + apply String.eqb_neq in E. rewrite IH. split.
      * intros H [H1 | H1]; [congruence | tauto].
      * tauto.
Qed.

Lemma Map_set_absent k v m :
  Map_get String.eqb k m = None -> Map_set String.eqb k v m = m ++ [(k, v)].
Proof.
  induction m as [|[k' v'] m IH]; simpl; auto.
  destruct (String.eqb k k'); [discriminate |].
  intros H. now rewrite IH.
Qed.

Lemma Map_set_present k v c m :
  Map_get String.eqb k m = Some c ->
  exists m1 m2,
    m = m1 ++ (k, c) :: m2 /\ Map_set String.eqb k v m = m1 ++ (k, v) :: m2.
Proof.
  induction m as [|[k' v'] m IH]; simpl; [discriminate |].
  destruct (String.eqb k k') eqn:E.
  - apply String.eqb_eq in E. subst k'. intros [= ->].
    now exists [], m.
  - intros H. destruct (IH H) as (m1 & m2 & -> & ->).
    now exists ((k', v') :: m1), m2.
Qed.

Lemma Map_set_keys k v c m :
  Map_get String.eqb k m = Some c ->
  map fst (Map_set String.eqb k v m) = map fst m.
Proof.
  intros H. destruct (Map_set_present k v c m H) as (m1 & m2 & -> & ->).
  now rewrite !map_app.
Qed.

Lemma Map_get_in k c m :
  Map_get String.eqb k m = Some c -> In (k, c) m.
Proof.
  induction m as [|[k' v'] m IH]; simpl; [discriminate |].
  destruct (String.eqb k k') eqn:E.
  - apply String.eqb_eq in E. subst. intros [= ->]. now left.
  - auto.
Qed.

Lemma Map_in_get k c m :
  NoDup (map fst m) -> In (k, c) m -> Map_get String.eqb k m = Some c.
Proof.
  induction m as [|[k' v'] m IH]; simpl; [tauto |].
  intros Hnd [H | H].
  - injection H as -> ->. now rewrite String.eqb_refl.
  - inversion Hnd as [|? ? Hk Hnd']; subst.
    destruct (String.eqb k k') eqn:E; auto.
    apply String.eqb_eq in E. subst k'.
    exfalso. apply Hk. change k with (fst (k, c)). now apply in_map.
Qed.
End StringMap.

(** ** The clustering loop *)

Section ClusterLoop.
Variable g : Q.

(** An invariant of the loop relates the map to the stores seen so far. *)
Lemma clusterLoop_invariant (P : ClusterMap -> list StorePoint -> Prop) :
  (forall m pre s, P m pre -> P (addStore g m s) (pre ++ [s])) ->
  forall pts m pre,
    P m pre -> P (fold_left (addStore g) pts m) (pre ++ pts).
Proof.
  intros Hstep pts. induction pts as [|s pts IH]; intros m pre H; simpl.
  - now rewrite app_nil_r.
  - replace (pre ++ s :: pts) with ((pre ++ [s]) ++ pts)
      by now rewrite <- app_assoc.
    apply IH. now apply Hstep.
Qed.

Lemma clusterMapOf_invariant (P : ClusterMap -> list StorePoint -> Prop) :
  P [] [] ->
  (forall m pre s, P m pre -> P (addStore g m s) (pre ++ [s])) ->
  forall pts, P (clusterMapOf g pts) pts.
Proof.
  intros H0 Hstep pts. unfold clusterMapOf.
  change pts with ([] ++ pts) at 2.
  now apply clusterLoop_invariant.
Qed.

(** The keys of the map stay distinct. *)
Lemma clusterMapOf_keys pts : NoDup (map fst (clusterMapOf g pts)).
Proof.
  apply (clusterMapOf_invariant (fun m _ => NoDup (map fst m))).
  - constructor.
  - intros m _ s Hnd. unfold addStore.
    destruct (Map_get String.eqb (cellKey g s) m) as [c|] eqn:E.
    + now rewrite (Map_set_keys _ _ c).
    + rewrite Map_set_absent by assumption.
      rewrite map_app. simpl.
      apply NoDup_app; auto.
      * repeat constructor. simpl. tauto.
      * intros k Hk [<- | []]. now apply Map_get_none_keys in E.
Qed.

(** The members of the cluster of a key are the stores of that cell, in
    the order of the input; a cell without store has no cluster. *)
Lemma clusterMapOf_members pts k :
  option_map stores (Map_get String.eqb k (clusterMapOf g pts))
  = nonempty (cell_members g k pts).
Proof.
  revert k.
  apply (clusterMapOf_invariant
           (fun m pre => forall k,
                option_map stores (Map_get String.eqb k m)
                = nonempty (cell_members g k pre))).
  - reflexivity.
  - intros m pre s IH k. unfold cell_members in *.
    rewrite filter_app. simpl. unfold addStore, in_cell at 2.
    destruct (String.eqb (cellKey g s) k) eqn:Ek.
    + apply String.eqb_eq in Ek. subst k.
      specialize (IH (cellKey g s)).
      destruct (Map_get String.eqb (cellKey g s) m) as [c|] eqn:E;
        rewrite Map_get_set_same; simpl in *.
      * destruct (filter _ pre); simpl in *; [discriminate |].
        injection IH as ->. reflexivity.
      * destruct (filter _ pre); simpl in *; [reflexivity | discriminate].
    + apply String.eqb_neq in Ek. rewrite app_nil_r.
      destruct (Map_get String.eqb (cellKey g s) m);
        rewrite Map_get_set_other by congruence; apply IH.
Qed.

(** The clusters hold exactly the stores put in, each once. *)
Lemma flat_map_stores_set_absent (m : ClusterMap) k c :
  Map_get String.eqb k m = None ->
  flat_map stores (Map_values (Map_set String.eqb k c m))
  = flat_map stores (Map_values m) ++ stores c.
Proof.
  intros H. rewrite Map_set_absent by assumption.
  unfold Map_values. rewrite map_app, flat_map_app. simpl.
  now rewrite app_nil_r.
Qed.

Lemma flat_map_stores_set_present (m : ClusterMap) k c s c' :
  Map_get String.eqb k m = Some c ->
  stores c' = stores c ++ [s] ->
  Permutation (flat_map stores (Map_values (Map_set String.eqb k c' m)))
              (flat_map stores (Map_values m) ++ [s]).
Proof.
  intros H Hs.
  destruct (Map_set_present k c' c m H) as (m1 & m2 & -> & ->).
  unfold Map_values. rewrite !map_app, !flat_map_app. simpl. rewrite Hs.
  rewrite <- !app_assoc. apply Permutation_app_head.
  apply Permutation_app_head. simpl.
  apply Permutation_cons_append.
Qed.

Lemma clusterMapOf_permutation pts :
  Permutation (flat_map stores (Map_values (clusterMapOf g pts))) pts.
Proof.
  apply (clusterMapOf_invariant
           (fun m pre => Permutation (flat_map stores (Map_values m)) pre)).
  - constructor.
  - intros m pre s IH. unfold addStore.
    destruct (Map_get String.eqb (cellKey g s) m) as [c|] eqn:E.
    + rewrite flat_map_stores_set_present with (c := c) (s := s);
        auto using Permutation_app_tail.
    + rewrite flat_map_stores_set_absent by assumption. simpl.
      now apply Permutation_app_tail.
Qed.

End ClusterLoop.

(** ** Classification: clusters or individual points *)

Lemma points_has_coordinates sts s :
  In s (points sts) <-> In s sts /\ has_coordinates s = true.
Proof. apply filter_In. Qed.

Lemma has_coordinates_spec s :
  has_coordinates s = true <-> latitude s <> None /\ longitude s <> None.
Proof.
  unfold has_coordinates.
  destruct (latitude s), (longitude s); split; try tauto; try discriminate;
    intros; split; discriminate.
Qed.

(** The cases of [classify]. *)
Lemma classify_individual pts zoom :
  Qle_bool 11 zoom = true -> classify pts zoom = mkClassified [] pts.
Proof.
  intros H. unfold classify. rewrite H. now destruct pts.
Qed.

Lemma classify_clustered pts zoom :
  pts <> [] -> Qle_bool 11 zoom = false ->
  classify pts zoom
  = mkClassified (Map_values (clusterMapOf (gridSize zoom) pts)) [].
Proof.
  intros Hne H. unfold classify. rewrite H.
  destruct pts; [congruence | reflexivity].
Qed.

Lemma classify_shown pts zoom : Permutation (shown (classify pts zoom)) pts.
Proof.
  destruct pts as [|p pts]; [constructor |].
  destruct (Qle_bool 11 zoom) eqn:E.
  - rewrite classify_individual by assumption. apply Permutation_refl.
  - rewrite classify_clustered by (assumption || discriminate).
    unfold shown. simpl individualPoints. rewrite app_nil_r.
    apply clusterMapOf_permutation.
Qed.

(** C1. For every store list and every zoom level, the clusters and the
    individual points computed by [PriceMap] partition the stores that have
    both coordinates: together they hold each such store exactly as often as
    the input does and nothing else, a store is never in both outputs, a
    store with a null coordinate is in neither, one of the two outputs is
    always empty, and both are empty exactly when no store has coordinates. *)
Theorem classify_partitions_located_stores (sts : list StorePoint) (zoom : Q) :
  let r := PriceMap_classify sts zoom in
  Permutation (flat_map stores (clusters r) ++ individualPoints r) (points sts)
  /\ (forall s, In s (points sts) ->
        (In s (flat_map stores (clusters r)) /\ ~ In s (individualPoints r))
        \/ (~ In s (flat_map stores (clusters r)) /\ In s (individualPoints r)))
  /\ (forall s, latitude s = None \/ longitude s = None ->
        ~ In s (flat_map stores (clusters r)) /\ ~ In s (individualPoints r))
  /\ (clusters r = [] \/ individualPoints r = [])
  /\ (clusters r = [] /\ individualPoints r = [] <-> points sts = []).
Proof.
  intros r.
  assert (HP : Permutation (shown r) (points sts)) by apply classify_shown.
  assert (Hex : clusters r = [] \/ individualPoints r = []).
  { subst r. unfold PriceMap_classify, classify.
    destruct (_ =? _)%nat; [now left |].
    destruct (Qle_bool 11 zoom); [now left | now right]. }
  unfold shown in HP.
  split; [exact HP |]. split; [| split; [| split; [exact Hex |]]].
  - intros s Hs.
    apply (Permutation_in _ (Permutation_sym HP)) in Hs.
    apply in_app_or in Hs.
    destruct Hex as [Hc | Hi].
    + right. rewrite Hc in *. simpl in *. tauto.
    + left. rewrite Hi in *. simpl in *. tauto.
  - intros s Hnull.
    assert (Hout : ~ In s (points sts)).
    { rewrite points_has_coordinates, has_coordinates_spec. tauto. }
    split; intros Hin; apply Hout; apply (Permutation_in _ HP);
      apply in_or_app; tauto.
  - split.
    + intros [Hc Hi]. rewrite Hc, Hi in HP. simpl in HP.
      now apply Permutation_nil.
    + intros Hnil. subst r. unfold PriceMap_classify. rewrite Hnil.
      now split.
Qed.

(** C2. Whenever [zoom >= 11], whatever the stores, there is no cluster and
    the individual points are all the stores that have both coordinates, in
    the order of the input. *)
Theorem classify_individual_mode (sts : list StorePoint) (zoom : Q) :
  11 <= zoom ->
  clusters (PriceMap_classify sts zoom) = []
  /\ individualPoints (PriceMap_classify sts zoom) = points sts.
Proof.
  intros Hz. apply Qle_bool_iff in Hz.
  unfold PriceMap_classify. rewrite classify_individual by assumption.
  now split.
Qed.

Lemma classify_individual_mode_witness :
  clusters (PriceMap_classify example_stores 12) = []
  /\ individualPoints (PriceMap_classify example_stores 12)
     = [store_a; store_b; store_c].
Proof.
  apply (classify_individual_mode example_stores 12).
  unfold Qle. simpl. lia.
Defined.

(** ** Running average and arithmetic mean *)

Lemma sumQ_app xs ys : sumQ (xs ++ ys) == sumQ xs + sumQ ys.
Proof.
  induction xs as [|x xs IH]; simpl.
  - ring.
  - rewrite IH. ring.
Qed.

Lemma sumQ_permutation xs ys : Permutation xs ys -> sumQ xs == sumQ ys.
Proof.
  induction 1; simpl.
  - reflexivity.
  - now rewrite IHPermutation.
  - ring.
  - now transitivity (sumQ l').
Qed.

Lemma arithmetic_mean_permutation xs ys :
  Permutation xs ys -> arithmetic_mean xs == arithmetic_mean ys.
Proof.
  intros H. unfold arithmetic_mean.
  rewrite (sumQ_permutation _ _ H), (Permutation_length H). reflexivity.
Qed.

Lemma inject_nat_succ n :
  inject_Z (Z.of_nat (S n)) == inject_Z (Z.of_nat n) + 1.
Proof.
  rewrite Nat2Z.inj_succ. unfold Z.succ. now rewrite inject_Z_plus.
Qed.

Lemma inject_nat_pos n : (0 < n)%nat -> 0 < inject_Z (Z.of_nat n).
Proof.
  intros H. change 0 with (inject_Z 0). rewrite <- Zlt_Qlt. lia.
Qed.

(** The step of the running average keeps the mean: if [a] is the mean of
    the non-empty [xs], the updated value is the mean of [xs ++ [x]]. *)
Lemma running_average_step a x xs :
  xs <> [] ->
  a == arithmetic_mean xs ->
  a + (x - a) / inject_Z (Z.of_nat (List.length (xs ++ [x])))
  == arithmetic_mean (xs ++ [x]).
Proof.
  intros Hne Ha. unfold arithmetic_mean in *.
  rewrite sumQ_app. simpl sumQ.
  rewrite length_app. simpl List.length. rewrite Nat.add_1_r.
  rewrite inject_nat_succ.
  assert (Hn : 0 < inject_Z (Z.of_nat (List.length xs))).
  { apply inject_nat_pos. destruct xs; [congruence | simpl; lia]. }
  set (n := inject_Z (Z.of_nat (List.length xs))) in *.
  rewrite Ha. field. split; lra.
Qed.

Lemma arithmetic_mean_singleton x : arithmetic_mean [x] == x.
Proof. unfold arithmetic_mean. simpl. field. Qed.

Section ClusterCentroid.
Variable g : Q.

Lemma addStore_centroid m s :
  Forall centroid_is_mean (Map_values m) ->
  Forall centroid_is_mean (Map_values (addStore g m s)).
Proof.
  intros H. unfold addStore.
  destruct (Map_get String.eqb (cellKey g s) m) as [c|] eqn:E.
  - destruct (Map_set_present (cellKey g s)
                {| lat := lat c
                     + (as_number (latitude s) - lat c)
                       / inject_Z (Z.of_nat (List.length (stores c ++ [s])));
                   lng := lng c
                     + (as_number (longitude s) - lng c)
                       / inject_Z (Z.of_nat (List.length (stores c ++ [s])));
                   stores := stores c ++ [s] |} c m E)
      as (m1 & m2 & Hm & ->).
    subst m. unfold Map_values in *. rewrite map_app in *. simpl in *.
    apply Forall_app in H. destruct H as [H1 H2].
    inversion H2 as [|? ? (Hne & Hlat & Hlng) H2']; subst.
    apply Forall_app. split; [assumption |].
    constructor; [| assumption].
    unfold centroid_is_mean, member_lats, member_lngs in *. simpl.
    rewrite !map_app. simpl map.
    split; [now destruct (stores c) |].
    assert (Hlen : forall f : StorePoint -> Q,
               List.length (stores c ++ [s])
               = List.length (map f (stores c) ++ [f s])).
    { intros f. now rewrite !length_app, length_map. }
    split.
    + rewrite (Hlen (fun s => as_number (latitude s))).
      apply running_average_step; [now destruct (stores c) | assumption].
    + rewrite (Hlen (fun s => as_number (longitude s))).
      apply running_average_step; [now destruct (stores c) | assumption].
  - rewrite Map_set_absent by assumption.
    unfold Map_values in *. rewrite map_app. simpl.
    apply Forall_app. split; [assumption |].
    constructor; [| constructor].
    unfold centroid_is_mean, member_lats, member_lngs. simpl.
    split; [discriminate |].
    split; now rewrite arithmetic_mean_singleton.
Qed.

Lemma clusterMapOf_centroid pts :
  Forall centroid_is_mean (Map_values (clusterMapOf g pts)).
Proof.
  apply (clusterMapOf_invariant g
           (fun m _ => Forall centroid_is_mean (Map_values m))).
  - constructor.
  - intros m _ s. apply addStore_centroid.
Qed.
End ClusterCentroid.

Lemma filter_permutation {A : Type} (f : A -> bool) (l l' : list A) :
  Permutation l l' -> Permutation (filter f l) (filter f l').
Proof.
  induction 1 as [| x l l' _ IH | x y l | l l' l'' _ IH1 _ IH2]; simpl.
  - constructor.
  - destruct (f x); auto.
  - destruct (f x), (f y); auto using Permutation_refl, perm_swap.
  - now transitivity (filter f l').
Qed.

Lemma points_permutation sts sts' :
  Permutation sts sts' -> Permutation (points sts) (points sts').
Proof. apply filter_permutation. Qed.

(** A cluster of the map is the cluster of its key, and holds the stores of
    its cell. *)
Lemma clusterMapOf_cluster g pts c :
  In c (Map_values (clusterMapOf g pts)) ->
  exists k,
    Map_get String.eqb k (clusterMapOf g pts) = Some c
    /\ stores c = cell_members g k pts
    /\ cell_members g k pts <> [].
Proof.
  intros Hin. unfold Map_values in Hin. apply in_map_iff in Hin.
  destruct Hin as ([k c'] & Hc & Hin). simpl in Hc. subst c'.
  exists k.
  assert (Hget : Map_get String.eqb k (clusterMapOf g pts) = Some c)
    by (apply Map_in_get; auto using clusterMapOf_keys).
  pose proof (clusterMapOf_members g pts k) as Hm.
  rewrite Hget in Hm. simpl in Hm.
  destruct (cell_members g k pts) eqn:E; simpl in Hm; [discriminate |].
  injection Hm as ->. repeat split; congruence.
Qed.

Lemma clusterMapOf_cell g pts k :
  cell_members g k pts <> [] ->
  exists c,
    In c (Map_values (clusterMapOf g pts))
    /\ Map_get String.eqb k (clusterMapOf g pts) = Some c
    /\ stores c = cell_members g k pts.
Proof.
  intros Hne.
  pose proof (clusterMapOf_members g pts k) as Hm.
  destruct (Map_get String.eqb k (clusterMapOf g pts)) as [c|] eqn:E;
    destruct (cell_members g k pts) eqn:E'; simpl in Hm;
    try congruence.
  exists c. repeat split; try congruence.
  unfold Map_values. apply in_map_iff. exists (k, c).
  split; [reflexivity | now apply Map_get_in].
Qed.

Lemma clusters_clustered pts zoom c :
  zoom < 11 ->
  In c (clusters (classify pts zoom)) <->
  In c (Map_values (clusterMapOf (gridSize zoom) pts)).
Proof.
  intros Hz.
  assert (E : Qle_bool 11 zoom = false).
  { destruct (Qle_bool 11 zoom) eqn:E; auto.
    apply Qle_bool_iff in E. lra. }
  destruct pts as [|p pts]; [reflexivity |].
  rewrite classify_clustered by (assumption || discriminate). reflexivity.
Qed.

(** C3. In clustered mode ([zoom < 11]) every cluster has members and its
    centre, produced by the running-average update, is the arithmetic mean
    of its members' latitudes and longitudes; and when the same stores are
    given in another order, the cluster of the same cell has the same
    members and the same centre.  (Numbers are exact rationals here.) *)
Theorem cluster_centroid_is_member_mean
  (sts sts' : list StorePoint) (zoom : Q) (c : Cluster) :
  zoom < 11 ->
  Permutation sts sts' ->
  In c (clusters (PriceMap_classify sts zoom)) ->
  stores c <> []
  /\ lat c == arithmetic_mean (member_lats c)
  /\ lng c == arithmetic_mean (member_lngs c)
  /\ exists c',
       In c' (clusters (PriceMap_classify sts' zoom))
       /\ Permutation (stores c) (stores c')
       /\ lat c' == lat c /\ lng c' == lng c.
Proof.
  intros Hz HP Hin. unfold PriceMap_classify in *.
  apply clusters_clustered in Hin; [| assumption].
  set (g := gridSize zoom) in *.
  assert (Hmean : forall pts d,
             In d (Map_values (clusterMapOf g pts)) -> centroid_is_mean d).
  { intros pts d. pose proof (clusterMapOf_centroid g pts) as H.
    rewrite Forall_forall in H. apply H. }
  destruct (Hmean _ _ Hin) as (Hne & Hlat & Hlng).
  repeat (split; [assumption |]).
  destruct (clusterMapOf_cluster _ _ _ Hin) as (k & _ & Hst & _).
  assert (HPc : Permutation (cell_members g k (points sts))
                            (cell_members g k (points sts'))).
  { apply filter_permutation. now apply points_permutation. }
  destruct (clusterMapOf_cell g (points sts') k) as (c' & Hin' & _ & Hst').
  { intros Hnil. rewrite Hnil in HPc.
    apply Permutation_sym, Permutation_nil in HPc. congruence. }
  assert (HPs : Permutation (stores c) (stores c')) by congruence.
  exists c'. split; [now apply clusters_clustered |].
  split; [assumption |].
  destruct (Hmean _ _ Hin') as (_ & Hlat' & Hlng').
  split.
  - rewrite Hlat, Hlat'. apply arithmetic_mean_permutation.
    unfold member_lats. now apply Permutation_map, Permutation_sym.
  - rewrite Hlng, Hlng'. apply arithmetic_mean_permutation.
    unfold member_lngs. now apply Permutation_map, Permutation_sym.
Qed.

Lemma cluster_centroid_is_member_mean_witness :
  stores example_cluster <> []
  /\ lat example_cluster == arithmetic_mean (member_lats example_cluster)
  /\ lng example_cluster == arithmetic_mean (member_lngs example_cluster)
  /\ exists c',
       In c' (clusters (PriceMap_classify example_stores_reordered 3))
       /\ Permutation (stores example_cluster) (stores c')
       /\ lat c' == lat example_cluster /\ lng c' == lng example_cluster.
Proof.
  apply (cluster_centroid_is_member_mean example_stores
           example_stores_reordered 3 example_cluster).
  - reflexivity.
  - unfold example_stores, example_stores_reordered.
    apply Permutation_rev.
  - vm_compute. left. reflexivity.
Defined.

(** ** Printing numbers: [toFixed(2)] *)

Lemma contains_char_app c s t :
  contains_char c (s ++ t)%string = contains_char c s || contains_char c t.
Proof.
  induction s as [|a s IH]; cbn [contains_char append]; [reflexivity |].
  rewrite IH. now rewrite orb_assoc.
Qed.

(** Two strings that agree around a separator absent from both heads agree
    on the heads and on the tails. *)
Lemma separator_split c s s' t t' :
  contains_char c s = false -> contains_char c s' = false ->
  (s ++ String c t)%string = (s' ++ String c t')%string ->
  s = s' /\ t = t'.
Proof.
  revert s'. induction s as [|a s IH]; intros [|a' s'] Hs Hs' E;
    cbn [contains_char append] in *.
  - injection E as ->. now split.
  - injection E as <- _. now rewrite Ascii.eqb_refl in Hs'.
  - injection E as -> _. now rewrite Ascii.eqb_refl in Hs.
  - injection E as -> E.
    apply orb_false_iff in Hs, Hs'.
    destruct (IH s') as [-> ->]; tauto.
Qed.

Lemma NilEmpty_string_of_uint_digits d c :
  contains_char c (DecimalString.NilEmpty.string_of_uint d) = true ->
  is_decimal_digit c = true.
Proof.
  induction d; cbn [DecimalString.NilEmpty.string_of_uint contains_char];
    try discriminate;
    (intros H; apply orb_true_iff in H; destruct H as [H | H];
     [apply Ascii.eqb_eq in H; subst c; reflexivity | auto]).
Qed.

Lemma decimal_of_N_digits n c :
  contains_char c (decimal_of_N n) = true -> is_decimal_digit c = true.
Proof.
  unfold decimal_of_N, DecimalString.NilZero.string_of_uint.
  destruct (N.to_uint n) eqn:E; try apply NilEmpty_string_of_uint_digits.
  cbn [contains_char]. intros H. apply orb_true_iff in H.
  destruct H as [H | H].
  - apply Ascii.eqb_eq in H. now subst c.
  - discriminate.
Qed.

Lemma decimal_of_N_no_char n c :
  is_decimal_digit c = false -> contains_char c (decimal_of_N n) = false.
Proof.
  intros H. destruct (contains_char c (decimal_of_N n)) eqn:E; auto.
  apply decimal_of_N_digits in E. congruence.
Qed.

Lemma N_to_uint_nonnil n : N.to_uint n <> Decimal.Nil.
Proof.
  destruct n; simpl; [discriminate | apply DecimalPos.Unsigned.to_uint_nonnil].
Qed.

Lemma decimal_of_N_inj n n' : decimal_of_N n = decimal_of_N n' -> n = n'.
Proof.
  unfold decimal_of_N. intros H.
  apply DecimalN.Unsigned.to_uint_inj.
  apply (f_equal DecimalString.NilZero.uint_of_string) in H.
  rewrite !DecimalString.NilZero.usu in H by apply N_to_uint_nonnil.
  congruence.
Qed.

Lemma decimal_of_N_head n :
  exists a rest, decimal_of_N n = String a rest /\ is_decimal_digit a = true.
Proof.
  destruct (decimal_of_N n) as [|a rest] eqn:E.
  - unfold decimal_of_N, DecimalString.NilZero.string_of_uint in E.
    pose proof (N_to_uint_nonnil n) as Hn.
    destruct (N.to_uint n); simpl in E; congruence.
  - exists a, rest. split; [reflexivity |].
    apply (decimal_of_N_digits n). rewrite E. cbn [contains_char].
    now rewrite Ascii.eqb_refl.
Qed.

Lemma digit_char_inj d d' :
  (d < 10)%N -> (d' < 10)%N -> digit_char d = digit_char d' -> d = d'.
Proof.
  unfold digit_char. intros Hd Hd' H.
  apply (f_equal N_of_ascii) in H.
  rewrite !N_ascii_embedding in H by lia. lia.
Qed.

Lemma digit_char_is_digit d :
  (d < 10)%N -> is_decimal_digit (digit_char d) = true.
Proof.
  intros H. unfold is_decimal_digit, digit_char.
  rewrite N_ascii_embedding by lia.
  apply andb_true_iff. split; apply N.leb_le; lia.
Qed.

(** [toFixed2] in terms of the sign and the hundredths. *)
Lemma toFixed2_unfold x :
  toFixed2 x
  = ((if is_negative x then "-" else "") ++
     decimal_of_N (hundredths x / 100) ++
     String "."
       (String (digit_char ((hundredths x / 10) mod 10))
          (String (digit_char (hundredths x mod 10)) "")))%string.
Proof. reflexivity. Qed.

(** The printed string determines the sign and the hundredths. *)
Lemma toFixed2_inj x y :
  toFixed2 x = toFixed2 y ->
  is_negative x = is_negative y /\ hundredths x = hundredths y.
Proof.
  rewrite !toFixed2_unfold.
  set (n := hundredths x). set (n' := hundredths y).
  destruct (decimal_of_N_head (n / 100)) as (a & r & Ea & Ha).
  destruct (decimal_of_N_head (n' / 100)) as (a' & r' & Ea' & Ha').
  assert (Hsign : forall b b' : bool,
             ((if b then "-" else "") ++ decimal_of_N (n / 100) ++
              String "."
                (String (digit_char ((n / 10) mod 10))
                   (String (digit_char (n mod 10)) "")))%string
             = ((if b' then "-" else "") ++ decimal_of_N (n' / 100) ++
                String "."
                  (String (digit_char ((n' / 10) mod 10))
                     (String (digit_char (n' mod 10)) "")))%string ->
             b = b').
  { intros b b' E. rewrite Ea, Ea' in E.
    destruct b, b'; simpl in E; auto; injection E as E _; subst;
      discriminate. }
  intros E. pose proof (Hsign _ _ E) as Hs. split; [exact Hs |].
  rewrite Hs in E.
  assert (E' : (decimal_of_N (n / 100) ++
                String "."
                  (String (digit_char ((n / 10) mod 10))
                     (String (digit_char (n mod 10)) "")))%string
               = (decimal_of_N (n' / 100) ++
                  String "."
                    (String (digit_char ((n' / 10) mod 10))
                       (String (digit_char (n' mod 10)) "")))%string).
  { destruct (is_negative y); cbn [append] in E; [now injection E | exact E]. }
  clear E. rename E' into E.
  apply separator_split in E; try (now apply decimal_of_N_no_char).
  destruct E as [E1 E2]. apply decimal_of_N_inj in E1.
  injection E2 as E2 E3.
  apply digit_char_inj in E2; try (apply N.mod_lt; lia).
  apply digit_char_inj in E3; try (apply N.mod_lt; lia).
  assert (D : forall m : N,
             m = (10 * (10 * (m / 100) + (m / 10) mod 10) + m mod 10)%N).
  { intros m.
    pose proof (N.div_mod m 10 ltac:(lia)) as D1.
    pose proof (N.div_mod (m / 10) 10 ltac:(lia)) as D2.
    rewrite N.Div0.div_div in D2. change (10 * 10)%N with 100%N in D2.
    lia. }
  rewrite (D n), (D n'). congruence.
Qed.

Lemma toFixed2_no_underscore x : contains_char "_" (toFixed2 x) = false.
Proof.
  rewrite toFixed2_unfold, !contains_char_app.
  rewrite decimal_of_N_no_char by reflexivity.
  assert (Hd : forall d, (d < 10)%N -> Ascii.eqb (digit_char d) "_" = false).
  { intros d Hd. apply Ascii.eqb_neq. intros E.
    pose proof (digit_char_is_digit d Hd) as H. now rewrite E in H. }
  cbn [contains_char].
  rewrite !Hd by (apply N.mod_lt; lia).
  now destruct (is_negative x).
Qed.

Lemma Qfloor_plus_half z : Qfloor (inject_Z z + (1 # 2)) = z.
Proof.
  unfold Qfloor, Qplus, inject_Z. simpl.
  symmetry. apply (Z.div_unique_pos _ _ _ 1); lia.
Qed.

(** A number with a whole number [m] of hundredths prints [|m|], with a
    minus sign when [m < 0]. *)
Lemma hundredths_exact m x :
  x * 100 == inject_Z m -> hundredths x = Z.to_N (Z.abs m).
Proof.
  intros H. unfold hundredths. f_equal.
  assert (E : Qabs x * 100 == inject_Z (Z.abs m)).
  { change 100 with (Qabs 100) at 1. rewrite <- Qabs_Qmult, H. reflexivity. }
  rewrite E. apply Qfloor_plus_half.
Qed.

Lemma is_negative_exact m x :
  x * 100 == inject_Z m -> is_negative x = (m <? 0)%Z.
Proof.
  intros H. unfold is_negative.
  destruct (Qle_bool 0 x) eqn:E; simpl; symmetry.
  - apply Qle_bool_iff in E. apply Z.ltb_ge.
    rewrite Zle_Qle, <- H. change (inject_Z 0) with 0. nra.
  - apply Z.ltb_lt. rewrite Zlt_Qlt, <- H. change (inject_Z 0) with 0.
    assert (~ 0 <= x) by (rewrite <- Qle_bool_iff; congruence).
    nra.
Qed.

(** ** Grid cells *)

Lemma gridSize_cases zoom :
  (zoom <= 4 /\ gridSize zoom = 6)
  \/ (4 < zoom /\ zoom <= 7 /\ gridSize zoom = 3.5)
  \/ (7 < zoom /\ gridSize zoom = 1.5).
Proof.
  unfold gridSize.
  destruct (Qle_bool zoom 4) eqn:E4.
  - left. now rewrite <- Qle_bool_iff.
  - assert (4 < zoom).
    { apply Qnot_le_lt. rewrite <- Qle_bool_iff. congruence. }
    destruct (Qle_bool zoom 7) eqn:E7.
    + right. left. now rewrite <- Qle_bool_iff.
    + right. right. split; [| reflexivity].
      apply Qnot_le_lt. rewrite <- Qle_bool_iff. congruence.
Qed.

(** Every grid size is a positive whole number of hundredths. *)
Lemma gridSize_hundredths zoom :
  exists G : Z, (0 < G)%Z /\ gridSize zoom * 100 == inject_Z G.
Proof.
  destruct (gridSize_cases zoom) as [[_ ->] | [(_ & _ & ->) | [_ ->]]].
  - exists 600%Z. split; [lia | reflexivity].
  - exists 350%Z. split; [lia | reflexivity].
  - exists 150%Z. split; [lia | reflexivity].
Qed.

Lemma gridAnchor_hundredths G g x :
  g * 100 == inject_Z G ->
  gridAnchor g x * 100 == inject_Z (gridIndex g x * G).
Proof.
  intros H. unfold gridAnchor, gridIndex.
  rewrite inject_Z_mult, <- H. ring.
Qed.

(** Two coordinates print the same anchor exactly when they round to the
    same grid index. *)
Lemma gridAnchor_toFixed2 G g x y :
  (0 < G)%Z -> g * 100 == inject_Z G ->
  toFixed2 (gridAnchor g x) = toFixed2 (gridAnchor g y)
  <-> gridIndex g x = gridIndex g y.
Proof.
  intros HG Hg. split.
  - intros E. apply toFixed2_inj in E. destruct E as [Es Eh].
    rewrite (is_negative_exact _ _ (gridAnchor_hundredths G g x Hg)),
            (is_negative_exact _ _ (gridAnchor_hundredths G g y Hg)) in Es.
    rewrite (hundredths_exact _ _ (gridAnchor_hundredths G g x Hg)),
            (hundredths_exact _ _ (gridAnchor_hundredths G g y Hg)) in Eh.
    apply Z2N.inj in Eh; try apply Z.abs_nonneg.
    destruct (Z.ltb_spec (gridIndex g x * G) 0),
             (Z.ltb_spec (gridIndex g y * G) 0); try discriminate; nia.
  - intros E. unfold gridAnchor. fold (gridIndex g x) (gridIndex g y).
    now rewrite E.
Qed.

Lemma cellKey_same_cell zoom s s' :
  cellKey (gridSize zoom) s = cellKey (gridSize zoom) s'
  <-> gridIndex (gridSize zoom) (as_number (latitude s))
      = gridIndex (gridSize zoom) (as_number (latitude s'))
      /\ gridIndex (gridSize zoom) (as_number (longitude s))
         = gridIndex (gridSize zoom) (as_number (longitude s')).
Proof.
  destruct (gridSize_hundredths zoom) as (G & HG & Hg).
  rewrite <- !(gridAnchor_toFixed2 G) by assumption.
  unfold cellKey. split.
  - intros E. apply separator_split in E; auto using toFixed2_no_underscore.
  - intros [-> ->]. reflexivity.
Qed.

(** Two located stores are members of one cluster exactly when their cells
    have the same key. *)
Lemma same_cluster_iff_same_key sts zoom s s' :
  zoom < 11 ->
  In s (points sts) -> In s' (points sts) ->
  (exists c, In c (clusters (PriceMap_classify sts zoom))
             /\ In s (stores c) /\ In s' (stores c))
  <-> cellKey (gridSize zoom) s = cellKey (gridSize zoom) s'.
Proof.
  intros Hz Hs Hs'. unfold PriceMap_classify. split.
  - intros (c & Hc & Hin & Hin').
    apply clusters_clustered in Hc; [| assumption].
    destruct (clusterMapOf_cluster _ _ _ Hc) as (k & _ & Hst & _).
    rewrite Hst in Hin, Hin'. unfold cell_members in *.
    apply filter_In in Hin, Hin'. unfold in_cell in *.
    destruct Hin as [_ Hin], Hin' as [_ Hin'].
    apply String.eqb_eq in Hin, Hin'. congruence.
  - intros E.
    set (k := cellKey (gridSize zoom) s).
    assert (Hm : In s (cell_members (gridSize zoom) k (points sts))).
    { apply filter_In. split; [assumption |]. apply String.eqb_refl. }
    assert (Hm' : In s' (cell_members (gridSize zoom) k (points sts))).
    { apply filter_In. split; [assumption |]. unfold in_cell.
      apply String.eqb_eq. now rewrite <- E. }
    destruct (clusterMapOf_cell (gridSize zoom) (points sts) k)
      as (c & Hc & _ & Hst).
    { intros Hnil. now rewrite Hnil in Hm. }
    exists c. rewrite Hst. split; [| now split].
    now apply clusters_clustered.
Qed.

Lemma toFixed2_wd x y : x == y -> toFixed2 x = toFixed2 y.
Proof.
  intros H. rewrite !toFixed2_unfold. unfold hundredths, is_negative.
  now rewrite H.
Qed.

Lemma gridAnchor_wd g x y : x == y -> gridAnchor g x == gridAnchor g y.
Proof.
  intros H. unfold gridAnchor, Math_round. now rewrite H.
Qed.

Lemma cellKey_wd g s s' :
  as_number (latitude s) == as_number (latitude s') ->
  as_number (longitude s) == as_number (longitude s') ->
  cellKey g s = cellKey g s'.
Proof.
  intros Hla Hln. unfold cellKey.
  now rewrite (toFixed2_wd _ _ (gridAnchor_wd g _ _ Hla)),
              (toFixed2_wd _ _ (gridAnchor_wd g _ _ Hln)).
Qed.

(** C4. The grid size is 6 for [zoom <= 4], 3.5 for [4 < zoom <= 7] and 1.5
    above; in clustered mode the key of a store's cell is the pair of
    [round(lat / size) * size] and [round(lng / size) * size], each printed
    with two decimals, two located stores share a cluster exactly when their
    keys are equal, and that is exactly when both coordinates round to the
    same grid index; and stores at (40.70, -74.00) and (40.71, -74.01) are
    in one cluster at zoom 3, where the size is 6. *)
Theorem grid_cell_key :
  (forall zoom,
      (zoom <= 4 -> gridSize zoom = 6)
      /\ (4 < zoom -> zoom <= 7 -> gridSize zoom = 3.5)
      /\ (7 < zoom -> gridSize zoom = 1.5))
  /\ (forall sts zoom s s' la ln la' ln',
         zoom < 11 ->
         In s sts -> latitude s = Some la -> longitude s = Some ln ->
         In s' sts -> latitude s' = Some la' -> longitude s' = Some ln' ->
         let cellSize := gridSize zoom in
         cellKey cellSize s
         = (toFixed2 (inject_Z (Math_round (la / cellSize)) * cellSize)
            ++ "_"
            ++ toFixed2 (inject_Z (Math_round (ln / cellSize)) * cellSize))
           %string
         /\ ((exists c, In c (clusters (PriceMap_classify sts zoom))
                        /\ In s (stores c) /\ In s' (stores c))
             <-> cellKey cellSize s = cellKey cellSize s')
         /\ (cellKey cellSize s = cellKey cellSize s'
             <-> Math_round (la / cellSize) = Math_round (la' / cellSize)
                 /\ Math_round (ln / cellSize) = Math_round (ln' / cellSize)))
  /\ (forall sts a b la ln la' ln',
         In a sts -> latitude a = Some la -> longitude a = Some ln ->
         In b sts -> latitude b = Some la' -> longitude b = Some ln' ->
         la == 40.70 -> ln == -74.00 -> la' == 40.71 -> ln' == -74.01 ->
         gridSize 3 = 6
         /\ exists c, In c (clusters (PriceMap_classify sts 3))
                      /\ In a (stores c) /\ In b (stores c)).
Proof.
  assert (Hpts : forall sts s la ln,
             In s sts -> latitude s = Some la -> longitude s = Some ln ->
             In s (points sts)).
  { intros sts s la ln Hin Hla Hln. apply points_has_coordinates.
    split; [assumption |]. unfold has_coordinates. now rewrite Hla, Hln. }
  split; [| split].
  - intros zoom.
    destruct (gridSize_cases zoom) as [[H ->] | [(H & H' & ->) | [H ->]]];
      repeat split; intros; try reflexivity; lra.
  - intros sts zoom s s' la ln la' ln' Hz Hs Hla Hln Hs' Hla' Hln' cellSize.
    split; [| split].
    + unfold cellKey, gridAnchor. now rewrite Hla, Hln.
    + apply same_cluster_iff_same_key; eauto.
    + subst cellSize. rewrite cellKey_same_cell. unfold gridIndex.
      rewrite Hla, Hln, Hla', Hln'. reflexivity.
  - intros sts a b la ln la' ln' Ha Hla Hln Hb Hla' Hln' E1 E2 E3 E4.
    split; [reflexivity |].
    apply same_cluster_iff_same_key; eauto; [reflexivity |].
    transitivity (cellKey (gridSize 3) store_a).
    + apply cellKey_wd; [rewrite Hla | rewrite Hln]; assumption.
    + transitivity (cellKey (gridSize 3) store_b); [reflexivity |].
      symmetry. apply cellKey_wd; [rewrite Hla' | rewrite Hln']; assumption.
Qed.

Lemma grid_cell_key_witness :
  gridSize 3 = 6
  /\ cellKey 6 store_a = "42.00_-72.00"
  /\ cellKey 6 store_b = "42.00_-72.00"
  /\ exists c, In c (clusters (PriceMap_classify example_stores 3))
               /\ In store_a (stores c) /\ In store_b (stores c).
Proof.
  destruct grid_cell_key as (Hsize & _ & Hex).
  split; [apply (Hsize 3); unfold Qle; simpl; lia |].
  split; [reflexivity |]. split; [reflexivity |].
  apply (Hex example_stores store_a store_b 40.70 (-74.00) 40.71 (-74.01));
    try reflexivity; simpl; tauto.
Defined.

(** ** The effective value *)

Lemma priceRange_val_effective s : priceRange_val s = EffectiveValue s.
Proof.
  unfold priceRange_val, EffectiveValue, typeof_number.
  now destruct (promo_price s), (regular_price s).
Qed.

Lemma getPriceColor_basePrice_effective s :
  getPriceColor_basePrice s = EffectiveValue s.
Proof.
  unfold getPriceColor_basePrice, EffectiveValue, typeof_number.
  now destruct (promo_price s), (regular_price s).
Qed.

Lemma priceStats_base_effective s : priceStats_base s = EffectiveValue s.
Proof.
  unfold priceStats_base, EffectiveValue, typeof_number.
  now destruct (promo_price s), (regular_price s).
Qed.

(** The [prices] of the range are the effective values of the points. *)
Lemma priceRange_prices_effective pts :
  priceRange_prices pts = effective_values pts.
Proof.
  unfold priceRange_prices.
  enough (H : forall acc,
             fold_left
               (fun prices s =>
                  match priceRange_val s with
                  | Some v => prices ++ [v]
                  | None => prices
                  end) pts acc
             = acc ++ effective_values pts) by apply (H []).
  induction pts as [|s pts IH]; intros acc; simpl.
  - now rewrite app_nil_r.
  - rewrite IH, priceRange_val_effective. unfold effective_values. simpl.
    destruct (EffectiveValue s); simpl.
    + now rewrite <- app_assoc.
    + reflexivity.
Qed.

(** The [values] and the [countsMap] after the loop of the statistics. *)
Lemma priceStats_loop sts :
  fold_left priceStats_step sts ([], [])
  = (rounded_values sts, countsMap_of (rounded_values sts)).
Proof.
  unfold countsMap_of.
  enough (H : forall values countsMap,
             fold_left priceStats_step sts (values, countsMap)
             = (values ++ rounded_values sts,
                fold_left (fun m p => countsMap_add p m)
                  (rounded_values sts) countsMap))
    by apply (H [] []).
  unfold rounded_values.
  induction sts as [|s sts IH]; intros values countsMap; simpl.
  - now rewrite app_nil_r.
  - rewrite priceStats_base_effective. unfold effective_values. simpl.
    destruct (EffectiveValue s); simpl.
    + rewrite IH. now rewrite <- app_assoc.
    + apply IH.
Qed.

Lemma priceStats_values sts :
  fst (fold_left priceStats_step sts ([], [])) = rounded_values sts.
Proof. now rewrite priceStats_loop. Qed.

(** The colour of a store depends on the store through its effective value
    only. *)
Lemma getPriceColor_effective range s s' :
  EffectiveValue s = EffectiveValue s' ->
  getPriceColor range s = getPriceColor range s'.
Proof.
  intros H. unfold getPriceColor, getPriceColor_t.
  now rewrite !getPriceColor_basePrice_effective, H.
Qed.

(** C5. The effective value of a store is its promo price if that is a
    number, else its regular price if that is a number, else absent; the
    values read by the price range, by the colour function and by the
    statistics are this same function of the store, so the range is taken
    over the effective values, the colour depends on the store through its
    effective value only, and the statistics aggregate the rounded effective
    values. *)
Theorem effective_value_shared :
  (forall s,
      priceRange_val s = EffectiveValue s
      /\ getPriceColor_basePrice s = EffectiveValue s
      /\ priceStats_base s = EffectiveValue s
      /\ priceRange_val s = getPriceColor_basePrice s
      /\ getPriceColor_basePrice s = priceStats_base s)
  /\ (forall s promo, promo_price s = Value promo ->
        EffectiveValue s = Some promo)
  /\ (forall s regular,
        (promo_price s = Null \/ promo_price s = Undefined) ->
        regular_price s = Value regular ->
        EffectiveValue s = Some regular)
  /\ (forall s,
        (promo_price s = Null \/ promo_price s = Undefined) ->
        (regular_price s = Null \/ regular_price s = Undefined) ->
        EffectiveValue s = None)
  /\ (forall pts, priceRange_prices pts = effective_values pts)
  /\ (forall range s s',
        EffectiveValue s = EffectiveValue s' ->
        getPriceColor range s = getPriceColor range s')
  /\ (forall sts,
        fst (fold_left priceStats_step sts ([], []))
        = map round2 (effective_values sts)).
Proof.
  split; [| split; [| split; [| split; [| split; [| split]]]]].
  - intros s.
    rewrite priceRange_val_effective, getPriceColor_basePrice_effective,
      priceStats_base_effective.
    repeat split.
  - intros s promo H. unfold EffectiveValue. now rewrite H.
  - intros s regular [H | H] H'; unfold EffectiveValue; now rewrite H, H'.
  - intros s [H | H] [H' | H']; unfold EffectiveValue; now rewrite H, H'.
  - apply priceRange_prices_effective.
  - apply getPriceColor_effective.
  - apply priceStats_values.
Qed.

Lemma effective_value_shared_witness :
  EffectiveValue store_a = Some 1.00
  /\ EffectiveValue store_b = Some 2.00
  /\ getPriceColor (priceRange (points example_stores)) store_d
     = getPriceColor (priceRange (points example_stores)) store_a.
Proof.
  destruct effective_value_shared as (_ & Hpromo & Hregular & _ & _ & Hcol & _).
  split; [now apply (Hpromo store_a) |].
  split; [apply (Hregular store_b); [now left | reflexivity] |].
  apply (Hcol (priceRange (points example_stores)) store_d store_a).
  reflexivity.
Defined.

(** ** The price colour *)

(** The four cases of [Math.max(0, Math.min(1, t))]. *)
Ltac clamp_cases t :=
  unfold clampT, Math_max, Math_min;
  destruct (Q.max_spec 0 (Qmin 1 t)) as [[? ?] | [? ?]];
  destruct (Q.min_spec 1 t) as [[? ?] | [? ?]];
  lra.

Lemma clampT_bounds t : 0 <= clampT t <= 1.
Proof. clamp_cases t. Qed.

Lemma clampT_monotone t t' : t <= t' -> clampT t <= clampT t'.
Proof.
  intros H. unfold clampT, Math_max, Math_min.
  apply Q.max_le_compat; [lra |].
  apply Q.min_le_compat; [lra | assumption].
Qed.

Lemma clampT_inside t : 0 <= t <= 1 -> clampT t == t.
Proof. intros H. clamp_cases t. Qed.

Lemma clampT_below t : t <= 0 -> clampT t == 0.
Proof. intros H. clamp_cases t. Qed.

Lemma clampT_above t : 1 <= t -> clampT t == 1.
Proof. intros H. clamp_cases t. Qed.

Lemma Math_round_between (a b : Z) x :
  inject_Z a <= x <= inject_Z b -> (a <= Math_round x <= b)%Z.
Proof.
  intros [Ha Hb]. unfold Math_round. split.
  - rewrite <- (Qfloor_plus_half a) at 1. apply Qfloor_resp_le. lra.
  - rewrite <- (Qfloor_plus_half b) at 1. apply Qfloor_resp_le. lra.
Qed.

(** A channel interpolated between two byte values is a byte value. *)
Lemma lerpChannel_byte (lo hi : Z) t :
  (0 <= lo < 256)%Z -> (0 <= hi < 256)%Z ->
  exists z, lerpChannel (Some lo) (Some hi) t = Some z
            /\ (Z.min lo hi <= z <= Z.max lo hi)%Z.
Proof.
  intros Hlo Hhi. simpl. eexists. split; [reflexivity |].
  pose proof (clampT_bounds t) as Hc.
  apply Math_round_between.
  assert (Hmin : inject_Z (Z.min lo hi) <= inject_Z lo
                 /\ inject_Z (Z.min lo hi) <= inject_Z hi)
    by (split; rewrite <- Zle_Qle; lia).
  assert (Hmax : inject_Z lo <= inject_Z (Z.max lo hi)
                 /\ inject_Z hi <= inject_Z (Z.max lo hi))
    by (split; rewrite <- Zle_Qle; lia).
  set (c := clampT t) in *. 
  set (l := inject_Z lo) in *. set (h := inject_Z hi) in *.
  split; nra.
Qed.

Lemma hex2_reads_back_all :
  forallb hex2_reads_back (map Z.of_nat (seq 0 256)) = true.
Proof. vm_compute. reflexivity. Qed.

Lemma hex2_byte z :
  (0 <= z < 256)%Z ->
  exists a b,
    hex2 z = String a (String b EmptyString)
    /\ parseInt16 (String a (String b EmptyString)) = Some z.
Proof.
  intros Hz.
  assert (Hin : In z (map Z.of_nat (seq 0 256))).
  { apply in_map_iff. exists (Z.to_nat z). split; [lia |].
    apply in_seq. lia. }
  pose proof hex2_reads_back_all as H. rewrite forallb_forall in H.
  specialize (H z Hin). unfold hex2_reads_back in H.
  destruct (hex2 z) as [|a [|b [|]]]; try discriminate H.
  exists a, b. split; [reflexivity |].
  destruct (parseInt16 (String a (String b ""))) as [z'|];
    [| discriminate H].
  apply Z.eqb_eq in H. now subst z'.
Qed.

(** The channels of a printed colour are the values printed. *)
Lemma channels_hex2 r g b :
  (0 <= r < 256)%Z -> (0 <= g < 256)%Z -> (0 <= b < 256)%Z ->
  channels ("#" ++ hex2 r ++ hex2 g ++ hex2 b)%string = Some (r, g, b).
Proof.
  intros Hr Hg Hb.
  destruct (hex2_byte r Hr) as (r1 & r2 & -> & Er).
  destruct (hex2_byte g Hg) as (g1 & g2 & -> & Eg).
  destruct (hex2_byte b Hb) as (b1 & b2 & -> & Eb).
  unfold channels.
  change (replace_first "#"
            ("#" ++ String r1 (String r2 "") ++ String g1 (String g2 "")
                 ++ String b1 (String b2 ""))%string)
    with (String r1 (String r2 (String g1 (String g2
            (String b1 (String b2 "")))))).
  change (slice 0 2 (String r1 (String r2 (String g1 (String g2
            (String b1 (String b2 "")))))))
    with (String r1 (String r2 "")).
  change (slice 2 4 (String r1 (String r2 (String g1 (String g2
            (String b1 (String b2 "")))))))
    with (String g1 (String g2 "")).
  change (slice 4 6 (String r1 (String r2 (String g1 (String g2
            (String b1 (String b2 "")))))))
    with (String b1 (String b2 "")).
  now rewrite Er, Eg, Eb.
Qed.

(** [lerpColor] between the two price colours. *)
Lemma lerpColor_price t :
  lerpColor LOW_COLOR HIGH_COLOR t
  = ("#" ++ hex2 (Math_round (46 + (231 - 46) * clampT t))
         ++ hex2 (Math_round (204 + (76 - 204) * clampT t))
         ++ hex2 (Math_round (113 + (60 - 113) * clampT t)))%string.
Proof. reflexivity. Qed.

Lemma lerpColor_price_channels t :
  let r := Math_round (46 + (231 - 46) * clampT t) in
  let g := Math_round (204 + (76 - 204) * clampT t) in
  let b := Math_round (113 + (60 - 113) * clampT t) in
  channels (lerpColor LOW_COLOR HIGH_COLOR t) = Some (r, g, b)
  /\ (46 <= r <= 231)%Z /\ (76 <= g <= 204)%Z /\ (60 <= b <= 113)%Z.
Proof.
  intros r g b.
  destruct (lerpChannel_byte 46 231 t) as (r' & Er & Hr); try lia.
  destruct (lerpChannel_byte 204 76 t) as (g' & Eg & Hg); try lia.
  destruct (lerpChannel_byte 113 60 t) as (b' & Eb & Hb); try lia.
  injection Er as Er. injection Eg as Eg. injection Eb as Eb.
  change (r = r') in Er. change (g = g') in Eg. change (b = b') in Eb.
  subst r' g' b'.
  rewrite lerpColor_price. fold r g b.
  split; [apply channels_hex2; lia |].
  repeat split; lia.
Qed.

Lemma lerpColor_price_not_fallback t :
  lerpColor LOW_COLOR HIGH_COLOR t <> FALLBACK_COLOR.
Proof.
  intros E. apply (f_equal channels) in E.
  destruct (lerpColor_price_channels t) as (Hc & Hr & _).
  rewrite Hc in E. vm_compute in E.
  injection E as E _ _. 
  change (Math_round (46 + (231 - 46) * clampT t) = 0%Z) in E. lia.
Qed.

Lemma getPriceColor_t_none range s :
  getPriceColor_t range s = None <-> degenerate range s.
Proof.
  unfold getPriceColor_t, degenerate.
  rewrite getPriceColor_basePrice_effective.
  destruct (EffectiveValue s) as [v|]; [| tauto].
  destruct (range_min range) as [mn|]; [| tauto].
  destruct (range_max range) as [mx|]; [| tauto].
  destruct (Qeq_bool mx mn) eqn:E.
  - apply Qeq_bool_iff in E. split; [| reflexivity].
    intros _. right. right. right. now exists mn, mx.
  - apply Qeq_bool_neq in E. split; [discriminate |].
    intros [H | [H | [H | (mn' & mx' & H1 & H2 & H3)]]];
      try discriminate.
    injection H1 as <-. injection H2 as <-. contradiction.
Qed.

Lemma getPriceColor_t_some range s v mn mx :
  EffectiveValue s = Some v ->
  range_min range = Some mn -> range_max range = Some mx -> ~ mx == mn ->
  getPriceColor_t range s = Some ((v - mn) / (mx - mn)).
Proof.
  intros Hv Hmn Hmx Hne. unfold getPriceColor_t.
  rewrite getPriceColor_basePrice_effective, Hv, Hmn, Hmx.
  destruct (Qeq_bool mx mn) eqn:E; [| reflexivity].
  apply Qeq_bool_iff in E. contradiction.
Qed.

(** C6. For every store and every price range the colour is the fixed
    fallback colour when the store has no effective value, or the range has
    no minimum or no maximum, or the minimum equals the maximum; in every
    other case it is the colour interpolated at
    [(value - min) / (max - min)], which is never the fallback colour: the
    fallback is returned exactly in the degenerate cases. *)
Theorem price_color_fallback (range : PriceRange) (s : StorePoint) :
  (degenerate range s -> getPriceColor range s = FALLBACK_COLOR)
  /\ (~ degenerate range s ->
      exists v mn mx,
        EffectiveValue s = Some v
        /\ range_min range = Some mn /\ range_max range = Some mx
        /\ ~ mx == mn
        /\ getPriceColor range s
           = lerpColor LOW_COLOR HIGH_COLOR ((v - mn) / (mx - mn)))
  /\ (getPriceColor range s = FALLBACK_COLOR <-> degenerate range s).
Proof.
  split; [| split].
  - intros H. apply getPriceColor_t_none in H.
    unfold getPriceColor. now rewrite H.
  - intros H. unfold degenerate in H.
    destruct (EffectiveValue s) as [v|] eqn:Ev; [| tauto].
    destruct (range_min range) as [mn|] eqn:Emn; [| tauto].
    destruct (range_max range) as [mx|] eqn:Emx; [| tauto].
    assert (Hne : ~ mx == mn).
    { intros E. apply H. right. right. right. now exists mn, mx. }
    exists v, mn, mx. repeat (split; [easy |]).
    unfold getPriceColor.
    now rewrite (getPriceColor_t_some range s v mn mx).
  - rewrite <- getPriceColor_t_none. unfold getPriceColor.
    destruct (getPriceColor_t range s) as [t|].
    + split; [| discriminate].
      intros E. now apply lerpColor_price_not_fallback in E.
    + tauto.
Qed.

Lemma price_color_fallback_witness :
  getPriceColor (priceRange [store_a]) store_a = "#007bff"
  /\ getPriceColor (priceRange (points example_stores)) store_b = "#8b8c57".
Proof.
  split.
  - apply (price_color_fallback (priceRange [store_a]) store_a).
    right. right. right. exists 1.00, 1.00. repeat split; reflexivity.
  - destruct (price_color_fallback (priceRange (points example_stores))
                store_b) as (_ & H & _).
    destruct H as (v & mn & mx & Hv & Hmn & Hmx & _ & ->).
    + intros [H | [H | [H | (mn & mx & Hmn & Hmx & E)]]];
        try discriminate.
      injection Hmn as <-. injection Hmx as <-. discriminate.
    + injection Hv as <-. injection Hmn as <-. injection Hmx as <-.
      reflexivity.
Defined.

Lemma normalized_monotone mn mx v v' :
  mn < mx -> v <= v' -> (v - mn) / (mx - mn) <= (v' - mn) / (mx - mn).
Proof.
  intros Hr Hv. unfold Qdiv. apply Qmult_le_compat_r; [lra |].
  apply Qlt_le_weak, Qinv_lt_0_compat. lra.
Qed.

Lemma normalized_range mn mx v :
  mn < mx ->
  (v <= mn -> (v - mn) / (mx - mn) <= 0)
  /\ (mn <= v -> 0 <= (v - mn) / (mx - mn))
  /\ (mx <= v -> 1 <= (v - mn) / (mx - mn))
  /\ (v <= mx -> (v - mn) / (mx - mn) <= 1).
Proof.
  intros Hr.
  assert (E0 : (mn - mn) / (mx - mn) == 0) by (field; lra).
  assert (E1 : (mx - mn) / (mx - mn) == 1) by (field; lra).
  repeat split; intros H.
  - rewrite <- E0. now apply normalized_monotone.
  - rewrite <- E0. now apply normalized_monotone.
  - rewrite <- E1. now apply normalized_monotone.
  - rewrite <- E1. now apply normalized_monotone.
Qed.

(** C7. For a range with [min < max], the interpolation parameter
    [t = clamp((value - min) / (max - min), 0, 1)] lies in [0, 1] for every
    value (it is 0 at and below the minimum, 1 at and above the maximum), it
    does not decrease when the value grows, and each of the three channels
    of the colour is [round(low + (high - low) * t)] for the channel's own
    low and high values. *)
Theorem price_color_interpolation
  (mn mx v1 v2 : Q) (s1 s2 : StorePoint) :
  mn < mx ->
  EffectiveValue s1 = Some v1 ->
  EffectiveValue s2 = Some v2 ->
  let range := {| range_min := Some mn; range_max := Some mx |} in
  let t1 := clampT ((v1 - mn) / (mx - mn)) in
  let t2 := clampT ((v2 - mn) / (mx - mn)) in
  getPriceColor range s1
  = lerpColor LOW_COLOR HIGH_COLOR ((v1 - mn) / (mx - mn))
  /\ 0 <= t1 <= 1
  /\ (v1 < v2 -> t1 <= t2)
  /\ (v1 <= mn -> t1 == 0)
  /\ (mx <= v1 -> t1 == 1)
  /\ (mn <= v1 <= mx -> t1 == (v1 - mn) / (mx - mn))
  /\ channels LOW_COLOR = Some (46, 204, 113)%Z
  /\ channels HIGH_COLOR = Some (231, 76, 60)%Z
  /\ channels (getPriceColor range s1)
     = Some (Math_round (46 + (231 - 46) * t1),
             Math_round (204 + (76 - 204) * t1),
             Math_round (113 + (60 - 113) * t1)).
Proof.
  intros Hr Hv1 Hv2 range t1 t2.
  assert (Hcol : getPriceColor range s1
                 = lerpColor LOW_COLOR HIGH_COLOR ((v1 - mn) / (mx - mn))).
  { unfold getPriceColor.
    rewrite (getPriceColor_t_some range s1 v1 mn mx); auto. lra. }
  destruct (normalized_range mn mx v1 Hr) as (H0 & H0' & H1 & H1').
  split; [exact Hcol |].
  split; [apply clampT_bounds |].
  split; [intros H; apply clampT_monotone, normalized_monotone; lra |].
  split; [intros H; apply clampT_below; auto |].
  split; [intros H; apply clampT_above; auto |].
  split; [intros [Ha Hb]; apply clampT_inside; auto |].
  split; [reflexivity |]. split; [reflexivity |].
  rewrite Hcol. apply lerpColor_price_channels.
Qed.

Lemma price_color_interpolation_witness :
  getPriceColor {| range_min := Some 1.00; range_max := Some 3.00 |} store_b
  = "#8b8c57"
  /\ clampT ((2.00 - 1.00) / (3.00 - 1.00)) == 0.5
  /\ clampT ((2.00 - 1.00) / (3.00 - 1.00))
     <= clampT ((3.00 - 1.00) / (3.00 - 1.00))
  /\ channels (getPriceColor
                 {| range_min := Some 1.00; range_max := Some 3.00 |} store_b)
     = Some (139, 140, 87)%Z.
Proof.
  destruct (price_color_interpolation 1.00 3.00 2.00 3.00 store_b store_c)
    as (Hcol & _ & Hmono & _ & _ & Hin & _ & _ & Hch);
    try reflexivity.
  split; [rewrite Hcol; reflexivity |].
  split; [rewrite Hin; [reflexivity | split; discriminate] |].
  split; [apply Hmono; reflexivity |].
  rewrite Hch. reflexivity.
Defined.

(** ** The price statistics: when there are none *)

Lemma effective_values_nil sts :
  effective_values sts = [] <-> forall s, In s sts -> EffectiveValue s = None.
Proof.
  unfold effective_values. induction sts as [|s sts IH]; simpl.
  - tauto.
  - destruct (EffectiveValue s) as [v|] eqn:E; simpl.
    + split; [discriminate |]. intros H.
      specialize (H s (or_introl eq_refl)). congruence.
    + rewrite IH. split.
      * intros H s' [<- | Hin]; auto.
      * auto.
Qed.

Lemma has_price_effective s :
  has_price s = match EffectiveValue s with Some _ => true | None => false end.
Proof.
  unfold has_price, EffectiveValue, typeof_number.
  now destruct (promo_price s), (regular_price s).
Qed.

(** Dropping the stores without price does not change the effective
    values. *)
Lemma storesForMap_effective sel sts :
  effective_values (storesForMap sel sts) = effective_values sts.
Proof.
  unfold storesForMap. destruct (no_selection sel); [reflexivity |].
  unfold effective_values. induction sts as [|s sts IH]; simpl; auto.
  rewrite has_price_effective.
  destruct (EffectiveValue s) eqn:E; simpl; now rewrite ?E, IH.
Qed.

Lemma no_selection_spec sel : no_selection sel = true <-> sel = "".
Proof. apply String.eqb_eq. Qed.

Lemma priceStats_unfold sel sts :
  priceStats sel sts
  = if no_selection sel then None
    else match rounded_values sts with
         | [] => None
         | _ :: _ =>
             Some (priceStats_summary (rounded_values sts)
                     (countsMap_of (rounded_values sts)))
         end.
Proof.
  unfold priceStats. rewrite priceStats_loop.
  now destruct (rounded_values sts).
Qed.

Lemma rounded_values_nil sts :
  rounded_values sts = [] <-> effective_values sts = [].
Proof.
  unfold rounded_values. destruct (effective_values sts); simpl;
    split; congruence.
Qed.

Lemma priceStats_none sel sts :
  priceStats sel sts = None
  <-> sel = "" \/ forall s, In s sts -> EffectiveValue s = None.
Proof.
  rewrite priceStats_unfold, <- effective_values_nil, <- rounded_values_nil,
    <- no_selection_spec.
  destruct (no_selection sel); [tauto |].
  destruct (rounded_values sts); split; try tauto; try discriminate.
  intros [H | H]; discriminate.
Qed.

Lemma sort_length {A : Type} (leb : A -> A -> bool) l :
  List.length (sort leb l) = List.length l.
Proof.
  assert (Hins : forall x l', List.length (insert leb x l')
                              = S (List.length l')).
  { intros x l'. induction l' as [|y l' IH]; simpl; auto.
    destruct (leb x y); simpl; auto. }
  induction l as [|x l IH]; simpl; auto.
  now rewrite Hins, IH.
Qed.

Lemma countsMap_add_nonempty p m : countsMap_add p m <> [].
Proof.
  unfold countsMap_add. destruct m as [|[k c] m]; simpl; [discriminate |].
  destruct (Qeq_bool p k); discriminate.
Qed.

Lemma countsMap_of_nonempty ps : ps <> [] -> countsMap_of ps <> [].
Proof.
  unfold countsMap_of. destruct ps as [|p ps]; [congruence |]. intros _.
  simpl. generalize (countsMap_add_nonempty p []).
  generalize (countsMap_add p []). clear p.
  induction ps as [|q ps IH]; intros m Hm; simpl; auto.
  apply IH, countsMap_add_nonempty.
Qed.

(** C8. The statistics are [null] exactly when no store yields a value to
    aggregate: when no product is selected, or when one is selected and no
    store in scope has a promo or a regular price.  In every other case they
    are a record, whose count is the number of stores with a price and whose
    distribution has a bucket.  The same holds for the statistics as [App]
    computes them, after [storesForMap] has dropped the stores without
    price. *)
Theorem priceStats_null_cases (sel : string) (sts : list StorePoint) :
  (priceStats sel sts = None
   <-> sel = "" \/ forall s, In s sts -> EffectiveValue s = None)
  /\ (App_priceStats sel sts = None
      <-> sel = "" \/ forall s, In s sts -> EffectiveValue s = None)
  /\ (sel <> "" ->
      (exists s, In s sts /\ EffectiveValue s <> None) ->
      exists st,
        priceStats sel sts = Some st
        /\ App_priceStats sel sts = Some st
        /\ stats_count st = List.length (effective_values sts)
        /\ (0 < stats_count st)%nat
        /\ distribution st <> []).
Proof.
  assert (HApp : App_priceStats sel sts = priceStats sel sts).
  { unfold App_priceStats. rewrite !priceStats_unfold.
    unfold rounded_values. now rewrite storesForMap_effective. }
  rewrite HApp.
  split; [apply priceStats_none |]. split; [apply priceStats_none |].
  intros Hsel (s & Hin & Hv).
  rewrite priceStats_unfold.
  destruct (no_selection sel) eqn:E;
    [apply no_selection_spec in E; contradiction |].
  destruct (rounded_values sts) as [|v vs] eqn:Er.
  - apply rounded_values_nil in Er.
    rewrite effective_values_nil in Er. now apply Er in Hin.
  - eexists. split; [reflexivity |]. split; [reflexivity |].
    unfold priceStats_summary. cbn [stats_count distribution].
    rewrite sort_length, <- Er. unfold rounded_values at 1 2.
    rewrite length_map. split; [reflexivity |].
    split.
    + rewrite <- (length_map round2). fold (rounded_values sts).
      rewrite Er. simpl. lia.
    + intros Hnil. apply (f_equal (@List.length Bucket)) in Hnil.
      rewrite sort_length, length_map in Hnil. unfold Map_entries in Hnil.
      simpl in Hnil. apply length_zero_iff_nil in Hnil.
      apply countsMap_of_nonempty in Hnil; [assumption |].
      rewrite Er. discriminate.
Qed.

Lemma priceStats_null_cases_witness :
  priceStats "" example_stores = None
  /\ exists st, priceStats "0001111041700" example_stores = Some st
                /\ stats_count st = 4%nat.
Proof.
  split.
  - apply (priceStats_null_cases "" example_stores). now left.
  - destruct (priceStats_null_cases "0001111041700" example_stores)
      as (_ & _ & H).
    destruct H as (st & Hst & _ & Hcount & _).
    + discriminate.
    + exists store_a. split; [simpl; tauto | discriminate].
    + exists st. split; [assumption |]. rewrite Hcount. reflexivity.
Defined.

(** ** Sorting *)

Section SortFacts.
Context {A : Type} (leb : A -> A -> bool).

Lemma insert_permutation x l : Permutation (insert leb x l) (x :: l).
Proof.
  induction l as [|y l IH]; simpl.
  - apply Permutation_refl.
  - destruct (leb x y).
    + apply Permutation_refl.
    + rewrite IH. apply perm_swap.
Qed.

Lemma sort_permutation l : Permutation (sort leb l) l.
Proof.
  induction l as [|x l IH]; simpl.
  - constructor.
  - rewrite insert_permutation. now constructor.
Qed.

Hypothesis leb_total : forall a b, leb a b = true \/ leb b a = true.
Hypothesis leb_trans :
  forall a b c, leb a b = true -> leb b c = true -> leb a c = true.

Lemma insert_sorted x l :
  StronglySorted (fun a b => leb a b = true) l ->
  StronglySorted (fun a b => leb a b = true) (insert leb x l).
Proof.
  induction 1 as [|y l Hs IH Hy]; simpl.
  - repeat constructor.
  - destruct (leb x y) eqn:E.
    + constructor; [now constructor |].
      constructor; [exact E |].
      eapply Forall_impl; [| exact Hy].
      intros z Hz. simpl in *. eauto.
    + constructor; [exact IH |].
      apply (Permutation_Forall (Permutation_sym (insert_permutation x l))).
      constructor; [| exact Hy].
      destruct (leb_total x y); [congruence | assumption].
Qed.

Lemma sort_sorted l :
  StronglySorted (fun a b => leb a b = true) (sort leb l).
Proof.
  induction l as [|x l IH]; simpl.
  - constructor.
  - now apply insert_sorted.
Qed.
End SortFacts.

Lemma Qle_bool_total a b : Qle_bool a b = true \/ Qle_bool b a = true.
Proof.
  rewrite !Qle_bool_iff. destruct (Qlt_le_dec a b); [left; lra | now right].
Qed.

Lemma Qle_bool_trans a b c :
  Qle_bool a b = true -> Qle_bool b c = true -> Qle_bool a c = true.
Proof. rewrite !Qle_bool_iff. lra. Qed.

Lemma sort_values_sorted vs : StronglySorted Qle (sort Qle_bool vs).
Proof.
  pose proof (sort_sorted Qle_bool Qle_bool_total Qle_bool_trans vs) as H.
  eapply StronglySorted_ind with (P := StronglySorted Qle) in H.
  - exact H.
  - constructor.
  - intros a l _ IH Ha. constructor; [exact IH |].
    eapply Forall_impl; [| exact Ha].
    intros z Hz. now apply Qle_bool_iff.
Qed.

Lemma sort_buckets_sorted (bs : list Bucket) :
  StronglySorted (fun a b => price a <= price b)
    (sort (fun a b => Qle_bool (price a) (price b)) bs).
Proof.
  pose proof (sort_sorted (fun a b => Qle_bool (price a) (price b))
                (fun a b => Qle_bool_total (price a) (price b))
                (fun a b c => Qle_bool_trans (price a) (price b) (price c)) bs)
    as H.
  eapply StronglySorted_ind
    with (P := StronglySorted (fun a b => price a <= price b)) in H.
  - exact H.
  - constructor.
  - intros a l _ IH Ha. constructor; [exact IH |].
    eapply Forall_impl; [| exact Ha].
    intros z Hz. now apply Qle_bool_iff.
Qed.

(** In a sorted list an earlier element does not exceed a later one. *)
Lemma sorted_nth_le l i j :
  StronglySorted Qle l ->
  (i <= j)%nat -> (j < List.length l)%nat -> nth i l 0 <= nth j l 0.
Proof.
  intros Hs. revert i j.
  induction Hs as [|a l Hs IH Ha]; intros i j Hij Hj; simpl in Hj; [lia |].
  destruct i as [|i], j as [|j]; simpl; try lia.
  - lra.
  - rewrite Forall_forall in Ha. apply Ha, nth_In. lia.
  - apply IH; lia.
Qed.

Lemma fold_left_Qplus vs a : fold_left Qplus vs a == a + sumQ vs.
Proof.
  revert a. induction vs as [|v vs IH]; intros a; simpl.
  - ring.
  - rewrite IH. ring.
Qed.

(** ** Insertion-ordered maps with number keys *)

Section NumberMap.
Context {V : Type}.
Implicit Types (m : list (Q * V)) (k : Q) (v : V).

Lemma Map_get_Qeq k k' m :
  k == k' -> Map_get Qeq_bool k m = Map_get Qeq_bool k' m.
Proof.
  intros H. induction m as [|[k0 v0] m IH]; simpl; auto.
  now rewrite H, IH.
Qed.

Lemma Map_get_set_number_same k v m :
  Map_get Qeq_bool k (Map_set Qeq_bool k v m) = Some v.
Proof.
  induction m as [|[k' v'] m IH]; simpl.
  - now rewrite Qeq_bool_refl.
  - destruct (Qeq_bool k k') eqn:E; simpl; rewrite E; auto.
Qed.

Lemma Map_get_set_number_other k k' v m :
  ~ k' == k ->
  Map_get Qeq_bool k' (Map_set Qeq_bool k v m) = Map_get Qeq_bool k' m.
Proof.
  intros Hne.
  assert (Hk : Qeq_bool k' k = false).
  { destruct (Qeq_bool k' k) eqn:E; auto.
    apply Qeq_bool_iff in E. contradiction. }
  induction m as [|[k0 v0] m IH]; simpl.
  - now rewrite Hk.
  - destruct (Qeq_bool k k0) eqn:E; simpl.
    + apply Qeq_bool_iff in E.
      destruct (Qeq_bool k' k0) eqn:E'; auto.
      apply Qeq_bool_iff in E'. exfalso. apply Hne. now rewrite E, E'.
    + now rewrite IH.
Qed.

Lemma Map_get_none_number k m :
  Map_get Qeq_bool k m = None <-> ~ InA Qeq k (map fst m).
Proof.
  induction m as [|[k' v'] m IH]; simpl.
  - split; [| reflexivity]. intros _ H. inversion H.
  - destruct (Qeq_bool k k') eqn:E.
    + apply Qeq_bool_iff in E. split; [discriminate |].
      intros H. exfalso. apply H. now constructor.
    + apply Qeq_bool_neq in E. rewrite IH. split.
      * intros H H'. inversion H'; subst; contradiction.
      * intros H H'. apply H. now constructor 2.
Qed.

Lemma Map_set_number_keys k v m :
  map fst (Map_set Qeq_bool k v m)
  = match Map_get Qeq_bool k m with
    | Some _ => map fst m
    | None => map fst m ++ [k]
    end.
Proof.
  induction m as [|[k' v'] m IH]; simpl; auto.
  destruct (Qeq_bool k k') eqn:E; simpl; auto.
  rewrite IH. now destruct (Map_get Qeq_bool k m).
Qed.

Lemma Map_set_number_nodup k v m :
  NoDupA Qeq (map fst m) -> NoDupA Qeq (map fst (Map_set Qeq_bool k v m)).
Proof.
  intros H. rewrite Map_set_number_keys.
  destruct (Map_get Qeq_bool k m) eqn:E; auto.
  apply NoDupA_app; auto using Q_Setoid.
  - repeat constructor. intros H'. inversion H'.
  - intros x Hx Hk. apply Map_get_none_number in E. apply E.
    inversion Hk as [? ? Hxk | ? ? Hnil]; subst; [| inversion Hnil].
    now rewrite <- Hxk.
Qed.

Lemma Map_in_get_number k v m :
  NoDupA Qeq (map fst m) -> In (k, v) m -> Map_get Qeq_bool k m = Some v.
Proof.
  induction m as [|[k' v'] m IH]; simpl; [tauto |].
  intros Hnd [H | H].
  - injection H as -> ->. now rewrite Qeq_bool_refl.
  - inversion Hnd as [|? ? Hk Hnd']; subst.
    destruct (Qeq_bool k k') eqn:E; auto.
    apply Qeq_bool_iff in E. exfalso. apply Hk.
    apply InA_alt. exists k. split; [now symmetry |].
    change k with (fst (k, v)). now apply in_map.
Qed.

Lemma Map_get_in_number k v m :
  Map_get Qeq_bool k m = Some v -> exists k', k' == k /\ In (k', v) m.
Proof.
  induction m as [|[k' v'] m IH]; simpl; [discriminate |].
  destruct (Qeq_bool k k') eqn:E.
  - apply Qeq_bool_iff in E. intros [= ->]. exists k'.
    split; [now symmetry | now left].
  - intros H. destruct (IH H) as (k0 & Hk & Hin). exists k0. auto.
Qed.
End NumberMap.

(** ** The counts of the distinct prices *)

Lemma occurrences_app p vs ws :
  occurrences p (vs ++ ws) = (occurrences p vs + occurrences p ws)%nat.
Proof. unfold occurrences. now rewrite filter_app, length_app. Qed.

Lemma occurrences_Qeq p q vs : p == q -> occurrences p vs = occurrences q vs.
Proof.
  intros H. unfold occurrences. f_equal. apply filter_ext.
  intros x. now rewrite H.
Qed.

Lemma occurrences_in p vs : In p vs -> (0 < occurrences p vs)%nat.
Proof.
  intros H. unfold occurrences.
  assert (Hin : In p (filter (Qeq_bool p) vs)).
  { apply filter_In. split; [assumption | apply Qeq_bool_refl]. }
  destruct (filter (Qeq_bool p) vs); [contradiction | simpl; lia].
Qed.

Lemma countsMap_add_get x m pre :
  (forall p, Map_get Qeq_bool p m = positive (occurrences p pre)) ->
  forall p,
    Map_get Qeq_bool p (countsMap_add x m)
    = positive (occurrences p (pre ++ [x])).
Proof.
  intros IH p. unfold countsMap_add. rewrite occurrences_app.
  unfold occurrences at 2. simpl.
  destruct (Qeq_bool p x) eqn:E.
  - apply Qeq_bool_iff in E.
    rewrite (Map_get_Qeq p x) by assumption.
    rewrite Map_get_set_number_same, IH.
    rewrite (occurrences_Qeq p x) by assumption.
    destruct (occurrences x pre); simpl; reflexivity.
  - apply Qeq_bool_neq in E.
    rewrite Map_get_set_number_other by assumption.
    rewrite IH. simpl. now rewrite Nat.add_0_r.
Qed.

Lemma countsMap_of_invariant (P : list (Q * nat) -> list Q -> Prop) :
  P [] [] ->
  (forall m pre x, P m pre -> P (countsMap_add x m) (pre ++ [x])) ->
  forall ps, P (countsMap_of ps) ps.
Proof.
  intros H0 Hstep ps. unfold countsMap_of.
  enough (H : forall m pre,
             P m pre ->
             P (fold_left (fun m p => countsMap_add p m) ps m) (pre ++ ps))
    by apply (H [] [] H0).
  induction ps as [|p ps IH]; intros m pre H; simpl.
  - now rewrite app_nil_r.
  - replace (pre ++ p :: ps) with ((pre ++ [p]) ++ ps)
      by now rewrite <- app_assoc.
    apply IH. now apply Hstep.
Qed.

(** The count kept for a price is the number of its occurrences. *)
Lemma countsMap_of_get ps p :
  Map_get Qeq_bool p (countsMap_of ps) = positive (occurrences p ps).
Proof.
  revert p.
  apply (countsMap_of_invariant
           (fun m pre => forall p,
                Map_get Qeq_bool p m = positive (occurrences p pre))).
  - reflexivity.
  - intros m pre x IH. now apply countsMap_add_get.
Qed.

(** The prices kept are pairwise different. *)
Lemma countsMap_of_keys ps : NoDupA Qeq (map fst (countsMap_of ps)).
Proof.
  apply (countsMap_of_invariant (fun m _ => NoDupA Qeq (map fst m))).
  - constructor.
  - intros m _ x H. unfold countsMap_add. now apply Map_set_number_nodup.
Qed.

(** ** The price statistics: summary and distribution *)

Lemma Math_round_nearest x :
  x - (1 # 2) < inject_Z (Math_round x) /\ inject_Z (Math_round x) <= x + (1 # 2).
Proof.
  unfold Math_round.
  pose proof (Qfloor_le (x + (1 # 2))) as H1.
  pose proof (Qlt_floor (x + (1 # 2))) as H2.
  rewrite inject_Z_plus in H2. change (inject_Z 1) with 1 in H2.
  split; lra.
Qed.

(** [round2] yields a whole number of hundredths. *)
Lemma round2_hundredths x :
  round2 x * 100 == inject_Z (Math_round (x * 100)).
Proof. unfold round2. field. Qed.

(** Rounding leaves a whole number of hundredths as it is. *)
Lemma round2_exact v :
  (exists z : Z, v * 100 == inject_Z z) -> round2 v == v.
Proof.
  intros (z & Hz). unfold round2, Math_round.
  rewrite Hz, Qfloor_plus_half, <- Hz. field.
Qed.

Lemma round2_monotone v w : v <= w -> round2 v <= round2 w.
Proof.
  intros H. unfold round2, Math_round.
  assert (Hz : (Qfloor (v * 100 + (1 # 2)) <= Qfloor (w * 100 + (1 # 2)))%Z)
    by (apply Qfloor_resp_le; lra).
  rewrite Zle_Qle in Hz.
  unfold Qdiv. apply Qmult_le_compat_r; [exact Hz | discriminate].
Qed.

Lemma sorted_strict (bs : list Bucket) :
  StronglySorted (fun a b => price a <= price b) bs ->
  NoDupA Qeq (map price bs) ->
  StronglySorted (fun a b => price a < price b) bs.
Proof.
  induction 1 as [|a l Hs IH Ha]; intros Hnd; simpl in *.
  - constructor.
  - inversion Hnd as [|? ? Hout Hnd']; subst.
    constructor; [auto |].
    rewrite Forall_forall in *. intros b Hb.
    specialize (Ha b Hb). apply Qle_lteq in Ha.
    destruct Ha as [Ha | Ha]; [assumption |].
    exfalso. apply Hout. apply InA_alt. exists (price b).
    split; [assumption | now apply in_map].
Qed.

Section Distribution.
Variable ps : list Q.

Lemma distribution_permutation :
  Permutation (distribution_of ps)
    (map (fun e => {| price := fst e; count := snd e |}) (countsMap_of ps)).
Proof. apply sort_permutation. Qed.

Lemma distribution_in b :
  In b (distribution_of ps) <-> In (price b, count b) (countsMap_of ps).
Proof.
  split; intros H.
  - apply (Permutation_in _ distribution_permutation) in H.
    apply in_map_iff in H. destruct H as ([k c] & <- & H). exact H.
  - apply (Permutation_in _ (Permutation_sym distribution_permutation)).
    apply in_map_iff. exists (price b, count b). split; [| assumption].
    now destruct b.
Qed.

Lemma distribution_strict :
  StronglySorted (fun a b => price a < price b) (distribution_of ps).
Proof.
  apply sorted_strict; [apply sort_buckets_sorted |].
  apply (PermutationA_preserves_NoDupA Q_Setoid)
    with (l₁ := map fst (countsMap_of ps)); [| apply countsMap_of_keys].
  apply Permutation_PermutationA; [apply Q_Setoid |].
  apply Permutation_sym.
  rewrite (Permutation_map price distribution_permutation).
  rewrite map_map. simpl. apply Permutation_refl.
Qed.

Lemma distribution_count b :
  In b (distribution_of ps) -> count b = occurrences (price b) ps /\ (0 < count b)%nat.
Proof.
  intros H. apply distribution_in in H.
  apply Map_in_get_number in H; [| apply countsMap_of_keys].
  rewrite countsMap_of_get in H.
  destruct (occurrences (price b) ps); simpl in H; [discriminate |].
  injection H as <-. split; [reflexivity | lia].
Qed.

Lemma distribution_covers v :
  In v ps -> exists b, In b (distribution_of ps) /\ price b == v.
Proof.
  intros H. apply occurrences_in in H.
  pose proof (countsMap_of_get ps v) as Hget.
  destruct (occurrences v ps) as [|n]; [lia |]. simpl in Hget.
  apply Map_get_in_number in Hget. destruct Hget as (k & Hk & Hin).
  exists {| price := k; count := S n |}. split; [| exact Hk].
  now apply distribution_in.
Qed.
End Distribution.

Lemma priceStats_some sel sts st :
  priceStats sel sts = Some st ->
  rounded_values sts <> []
  /\ st = priceStats_summary (rounded_values sts)
            (countsMap_of (rounded_values sts)).
Proof.
  rewrite priceStats_unfold.
  destruct (no_selection sel); [discriminate |].
  destruct (rounded_values sts); [discriminate |].
  intros [= <-]. split; [discriminate | reflexivity].
Qed.

(** C9. Each effective value is rounded to two decimal places before
    anything is aggregated: the rounded value is [Math.round] of a hundred
    times the value, taken as hundredths; a value that is a whole number of
    hundredths is left as it is, and rounding keeps the order of the
    values.  The statistics sort the rounded values in ascending order,
    count them, take the first as minimum and the last as maximum, the
    middle one as median for an odd count and the mean of the two central
    ones for an even count, and as mean their sum, added up from 0 in
    ascending order, over their number (the values, not the buckets); the
    distribution has one bucket for each distinct rounded value, in
    strictly ascending order, with the number of its occurrences.  For the
    values 1.00, 1.00, 2.00, 3.00 this gives min 1.00, max 3.00, mean 1.75
    (the mean of the three bucket prices would be 2), median 1.50, count 4
    and the distribution (1.00, 2), (2.00, 1), (3.00, 1). *)
Theorem price_statistics :
  ((forall v, round2 v == inject_Z (Math_round (v * 100)) / 100)
   /\ (forall k : Z, round2 (inject_Z k / 100) == inject_Z k / 100)
   /\ (forall v w, v <= w -> round2 v <= round2 w))
  /\ (forall sel sts st,
         priceStats sel sts = Some st ->
         let values := sort Qle_bool (map round2 (effective_values sts)) in
         let n := stats_count st in
         Permutation values (map round2 (effective_values sts))
         /\ StronglySorted Qle values
         /\ n = List.length (effective_values sts)
         /\ (0 < n)%nat
         /\ stats_min st = nth 0 values 0
         /\ stats_max st = nth (n - 1) values 0
         /\ Forall (fun v => stats_min st <= v /\ v <= stats_max st) values
         /\ ((n mod 2 = 1)%nat -> stats_median st = nth (n / 2) values 0)
         /\ ((n mod 2 = 0)%nat ->
             stats_median st
             = (nth (n / 2 - 1) values 0 + nth (n / 2) values 0) / 2)
         /\ stats_mean st
            = fold_left Qplus values 0 / inject_Z (Z.of_nat n)
         /\ StronglySorted (fun a b => price a < price b) (distribution st)
         /\ (forall b, In b (distribution st) ->
               count b
               = occurrences (price b) (map round2 (effective_values sts))
               /\ (0 < count b)%nat)
         /\ (forall v, In v (map round2 (effective_values sts)) ->
               exists b, In b (distribution st) /\ price b == v))
  /\ (forall sel sts,
         sel <> "" ->
         effective_values sts = [1.00; 1.00; 2.00; 3.00] ->
         exists st,
           priceStats sel sts = Some st
           /\ stats_min st == 1.00 /\ stats_max st == 3.00
           /\ stats_mean st == 1.75 /\ stats_median st == 1.50
           /\ stats_count st = 4%nat
           /\ Forall2 (fun b e => price b == fst e /\ count b = snd e)
                (distribution st)
                [(1.00, 2%nat); (2.00, 1%nat); (3.00, 1%nat)]
           /\ arithmetic_mean (map price (distribution st)) == 2
           /\ ~ stats_mean st
                == arithmetic_mean (map price (distribution st))).
Proof.
  split.
  { split; [intros v; reflexivity |].
    split; [| apply round2_monotone].
    intros k. apply round2_exact. exists k. field. }
  split.
  - intros sel sts st Hst values n.
    apply priceStats_some in Hst. destruct Hst as [Hne ->].
    fold (rounded_values sts) in *.
    assert (Hperm : Permutation values (rounded_values sts))
      by apply sort_permutation.
    assert (Hsorted : StronglySorted Qle values) by apply sort_values_sorted.
    assert (Hn : n = List.length values) by reflexivity.
    assert (Hlen : List.length values = List.length (effective_values sts)).
    { subst values. rewrite sort_length. apply length_map. }
    assert (Hpos : (0 < n)%nat).
    { rewrite Hn. subst values. rewrite sort_length.
      destruct (rounded_values sts); [congruence | simpl; lia]. }
    split; [exact Hperm |]. split; [exact Hsorted |].
    split; [congruence |]. split; [exact Hpos |].
    split; [reflexivity |]. split; [reflexivity |].
    split.
    { apply Forall_forall. intros v Hv.
      destruct (In_nth _ _ 0 Hv) as (i & Hi & <-).
      unfold priceStats_summary, at_index. cbn [stats_min stats_max].
      fold values. split; apply sorted_nth_le; auto; lia. }
    assert (Hmed : stats_median
                     (priceStats_summary (rounded_values sts)
                        (countsMap_of (rounded_values sts)))
                   = if (n mod 2 =? 1)%nat then nth (n / 2) values 0
                     else (nth (n / 2 - 1) values 0 + nth (n / 2) values 0) / 2)
      by reflexivity.
    split; [intros Hodd; now rewrite Hmed, Hodd |].
    split; [intros Heven; now rewrite Hmed, Heven |].
    split; [reflexivity |].
    split; [apply distribution_strict |].
    split; [apply distribution_count | apply distribution_covers].
  - intros sel sts Hsel Hv.
    rewrite priceStats_unfold. unfold rounded_values. rewrite Hv.
    destruct (no_selection sel) eqn:E;
      [apply no_selection_spec in E; contradiction |].
    eexists. split; [reflexivity |].
    split; [reflexivity |]. split; [reflexivity |].
    split; [reflexivity |]. split; [reflexivity |].
    split; [reflexivity |].
    split; [vm_compute; repeat constructor |].
    split; [reflexivity |].
    intros H. vm_compute in H. discriminate.
Qed.

Lemma price_statistics_witness :
  exists st,
    priceStats "0001111041700" priced_stores = Some st
    /\ stats_min st == 1.00 /\ stats_max st == 3.00
    /\ stats_mean st == 1.75 /\ stats_median st == 1.50
    /\ stats_count st = 4%nat
    /\ Forall2 (fun b e => price b == fst e /\ count b = snd e)
         (distribution st) [(1.00, 2%nat); (2.00, 1%nat); (3.00, 1%nat)]
    /\ arithmetic_mean (map price (distribution st)) == 2
    /\ ~ stats_mean st == arithmetic_mean (map price (distribution st)).
Proof.
  destruct price_statistics as (_ & _ & H).
  apply (H "0001111041700" priced_stores); [discriminate | reflexivity].
Defined.

(** ** The gradient-bar markers and the colour range *)

Lemma Qmin_cases a b : Qmin a b = a \/ Qmin a b = b.
Proof.
  unfold Qmin, GenericMinMax.gmin. destruct (a ?= b); auto.
Qed.

Lemma Qmax_cases a b : Qmax a b = a \/ Qmax a b = b.
Proof.
  unfold Qmax, GenericMinMax.gmax. destruct (a ?= b); auto.
Qed.

(** [Math.min(...)] of a non-empty list is one of its elements and exceeds
    none. *)
Lemma Math_min_list_spec p ps :
  In (Math_min_list p ps) (p :: ps)
  /\ Forall (fun v => Math_min_list p ps <= v) (p :: ps).
Proof.
  unfold Math_min_list. revert p.
  induction ps as [|q ps IH]; intros p; simpl.
  - split; [now left |]. constructor; [lra | constructor].
  - destruct (IH (Math_min p q)) as [Hin Hle].
    unfold Math_min in *.
    inversion Hle as [|? ? Hpq Hps]; subst.
    pose proof (Q.le_min_l p q). pose proof (Q.le_min_r p q).
    split.
    + destruct Hin as [Hin | Hin]; [| now right; right].
      rewrite <- Hin. destruct (Qmin_cases p q) as [-> | ->]; simpl; auto.
    + constructor; [lra |]. constructor; [lra | assumption].
Qed.

Lemma Math_max_list_spec p ps :
  In (Math_max_list p ps) (p :: ps)
  /\ Forall (fun v => v <= Math_max_list p ps) (p :: ps).
Proof.
  unfold Math_max_list. revert p.
  induction ps as [|q ps IH]; intros p; simpl.
  - split; [now left |]. constructor; [lra | constructor].
  - destruct (IH (Math_max p q)) as [Hin Hle].
    unfold Math_max in *.
    inversion Hle as [|? ? Hpq Hps]; subst.
    pose proof (Q.le_max_l p q). pose proof (Q.le_max_r p q).
    split.
    + destruct Hin as [Hin | Hin]; [| now right; right].
      rewrite <- Hin. destruct (Qmax_cases p q) as [-> | ->]; simpl; auto.
    + constructor; [lra |]. constructor; [lra | assumption].
Qed.

(** The range of the colours is the least and the greatest effective value
    of the located stores. *)
Lemma priceRange_spec pts :
  match effective_values pts with
  | [] => priceRange pts = {| range_min := None; range_max := None |}
  | _ :: _ =>
      exists mn mx,
        priceRange pts = {| range_min := Some mn; range_max := Some mx |}
        /\ In mn (effective_values pts) /\ In mx (effective_values pts)
        /\ Forall (fun v => mn <= v /\ v <= mx) (effective_values pts)
  end.
Proof.
  unfold priceRange. rewrite priceRange_prices_effective.
  destruct (effective_values pts) as [|p ps]; [reflexivity |].
  destruct (Math_min_list_spec p ps) as [Hin Hle].
  destruct (Math_max_list_spec p ps) as [Hin' Hle'].
  exists (Math_min_list p ps), (Math_max_list p ps).
  repeat split; auto.
  rewrite Forall_forall in *. auto.
Qed.

(** The minimum and the maximum of the statistics are the least and the
    greatest rounded value. *)
Lemma priceStats_summary_bounds rv cm :
  rv <> [] ->
  let st := priceStats_summary rv cm in
  In (stats_min st) rv /\ In (stats_max st) rv
  /\ Forall (fun v => stats_min st <= v /\ v <= stats_max st) rv.
Proof.
  intros Hne st.
  set (values := sort Qle_bool rv).
  assert (Hperm : Permutation values rv) by apply sort_permutation.
  assert (Hsorted : StronglySorted Qle values) by apply sort_values_sorted.
  assert (Hlen : (0 < List.length values)%nat).
  { subst values. rewrite sort_length.
    destruct rv; [congruence | simpl; lia]. }
  assert (Hmin : stats_min st = nth 0 values 0) by reflexivity.
  assert (Hmax : stats_max st = nth (List.length values - 1) values 0)
    by reflexivity.
  rewrite Hmin, Hmax.
  split; [apply (Permutation_in _ Hperm), nth_In; lia |].
  split; [apply (Permutation_in _ Hperm), nth_In; lia |].
  apply (Permutation_Forall Hperm).
  apply Forall_forall. intros v Hv.
  destruct (In_nth _ _ 0 Hv) as (i & Hi & <-).
  split; apply sorted_nth_le; auto; lia.
Qed.

Lemma effective_values_in sts v :
  In v (effective_values sts)
  <-> exists s, In s sts /\ EffectiveValue s = Some v.
Proof.
  unfold effective_values. rewrite in_flat_map. split.
  - intros (s & Hs & Hv). exists s. split; [assumption |].
    destruct (EffectiveValue s); simpl in Hv; [| contradiction].
    destruct Hv as [-> | []]. reflexivity.
  - intros (s & Hs & Hv). exists s. split; [assumption |].
    rewrite Hv. now left.
Qed.

(** When every store with a price has coordinates, the located stores have
    the same effective values as all the stores. *)
Lemma effective_values_points sts :
  (forall s, In s sts -> EffectiveValue s <> None -> has_coordinates s = true) ->
  effective_values (points sts) = effective_values sts.
Proof.
  unfold points, effective_values.
  induction sts as [|s sts IH]; intros H; simpl; [reflexivity |].
  rewrite <- IH by (intros s' Hs'; apply H; now right).
  destruct (has_coordinates s) eqn:E; simpl; [reflexivity |].
  destruct (EffectiveValue s) eqn:Ev; [| reflexivity].
  rewrite H in E; [discriminate | now left | congruence].
Qed.

Lemma clampT_wd t t' : t == t' -> clampT t == clampT t'.
Proof. intros H. unfold clampT, Math_max, Math_min. now rewrite H. Qed.

Lemma markerPosition_unfold st b :
  markerPosition st b
  = if Qeq_bool (stats_max st) (stats_min st) then None
    else Some (clampT ((price b - stats_min st)
                       / (stats_max st - stats_min st)) * 100).
Proof. reflexivity. Qed.

(** With every priced store located and every price a whole number of
    hundredths, the statistics and the colour range have the same minimum
    and maximum. *)
Lemma priceStats_range_agree sel sts st :
  priceStats sel sts = Some st ->
  (forall s, In s sts -> EffectiveValue s <> None -> has_coordinates s = true) ->
  (forall s v, In s sts -> EffectiveValue s = Some v ->
               exists z : Z, v * 100 == inject_Z z) ->
  exists mn mx,
    priceRange (points sts) = {| range_min := Some mn; range_max := Some mx |}
    /\ stats_min st == mn /\ stats_max st == mx.
Proof.
  intros Hst Hloc Hcents.
  apply priceStats_some in Hst. destruct Hst as [Hne ->].
  destruct (priceStats_summary_bounds (rounded_values sts)
              (countsMap_of (rounded_values sts)) Hne)
    as (Hmin & Hmax & Hall).
  set (st := priceStats_summary _ _) in *.
  assert (Hround : forall v, In v (effective_values sts) -> round2 v == v).
  { intros v Hv. apply effective_values_in in Hv.
    destruct Hv as (s & Hs & Hv). apply round2_exact. eauto. }
  pose proof (priceRange_spec (points sts)) as Hrange.
  rewrite effective_values_points in Hrange by assumption.
  unfold rounded_values in *.
  destruct (effective_values sts) as [|p ps] eqn:Ev; [now simpl in Hne |].
  destruct Hrange as (mn & mx & Hr & Hmn & Hmx & Hbounds).
  exists mn, mx. split; [exact Hr |].
  rewrite Forall_forall in Hall, Hbounds.
  apply in_map_iff in Hmin, Hmax.
  destruct Hmin as (v0 & E0 & Hv0). destruct Hmax as (v1 & E1 & Hv1).
  pose proof (Hround _ Hv0) as R0. pose proof (Hround _ Hv1) as R1.
  pose proof (Hround _ Hmn) as Rmn. pose proof (Hround _ Hmx) as Rmx.
  pose proof (Hall _ (in_map round2 _ _ Hmn)) as [A1 _].
  pose proof (Hall _ (in_map round2 _ _ Hmx)) as [_ A2].
  pose proof (Hbounds _ Hv0) as [B1 _].
  pose proof (Hbounds _ Hv1) as [_ B2].
  rewrite E0 in R0. rewrite E1 in R1.
  split; lra.
Qed.

(** C10, as the code has it.  The marker of a bucket sits at
    [clamp((value - min) / (max - min), 0, 1)], in percent, the
    normalization of the colour, with [min] and [max] the least and the
    greatest rounded effective value of all the stores in scope, located or
    not.  When every store with a price has both coordinates and every
    price is a whole number of hundredths, the marker of a bucket sits
    exactly where the colour of each store with the bucket's value is
    taken. *)
Theorem marker_position_normalization
  (sel : string) (sts : list StorePoint) (st : PriceStats) (b : Bucket) :
  priceStats sel sts = Some st ->
  In b (distribution st) ->
  markerPosition st b
  = (if Qeq_bool (stats_max st) (stats_min st) then None
     else Some (clampT ((price b - stats_min st)
                        / (stats_max st - stats_min st)) * 100))
  /\ In (stats_min st) (map round2 (effective_values sts))
  /\ In (stats_max st) (map round2 (effective_values sts))
  /\ Forall (fun v => stats_min st <= v /\ v <= stats_max st)
       (map round2 (effective_values sts))
  /\ ((forall s, In s sts -> EffectiveValue s <> None ->
                 has_coordinates s = true) ->
      (forall s v, In s sts -> EffectiveValue s = Some v ->
                   exists z : Z, v * 100 == inject_Z z) ->
      forall s v,
        In s sts -> EffectiveValue s = Some v -> v == price b ->
        In s (points sts)
        /\ marker_matches_colour (markerPosition st b)
             (getPriceColor_t (priceRange (points sts)) s)).
Proof.
  intros Hst Hb.
  split; [apply markerPosition_unfold |].
  pose proof Hst as Hsome. apply priceStats_some in Hsome.
  destruct Hsome as [Hne Hsum].
  pose proof (priceStats_summary_bounds (rounded_values sts)
                (countsMap_of (rounded_values sts)) Hne) as Hbounds.
  cbv zeta in Hbounds. rewrite <- Hsum in Hbounds.
  destruct Hbounds as (Hmin & Hmax & Hall).
  fold (rounded_values sts).
  repeat (split; [assumption |]).
  intros Hloc Hcents s v Hs Hv Hvb.
  assert (Hpt : In s (points sts)).
  { apply points_has_coordinates. split; [assumption |].
    apply Hloc; [assumption | congruence]. }
  split; [exact Hpt |].
  destruct (priceStats_range_agree sel sts st Hst Hloc Hcents)
    as (mn & mx & Hr & Emn & Emx).
  rewrite markerPosition_unfold. unfold getPriceColor_t.
  rewrite getPriceColor_basePrice_effective, Hv, Hr.
  cbn [range_min range_max].
  rewrite Emn, Emx.
  destruct (Qeq_bool mx mn) eqn:E; simpl; [exact I |].
  apply Qeq_bool_neq in E.
  apply Qmult_comp; [| reflexivity].
  apply clampT_wd. now rewrite Emn, Emx, Hvb.
Qed.

Lemma marker_position_normalization_witness :
  markerPosition located_stats bucket_2
  = Some (clampT ((2.00 - 1.00) / (3.00 - 1.00)) * 100)
  /\ marker_matches_colour (markerPosition located_stats bucket_2)
       (getPriceColor_t (priceRange (points located_scope)) store_b).
Proof.
  destruct (marker_position_normalization "0001111041700" located_scope
              located_stats bucket_2)
    as (Hpos & _ & _ & _ & Hsame).
  - reflexivity.
  - vm_compute. right. left. reflexivity.
  - split; [reflexivity |].
    apply (Hsame) with (v := 2.00).
    + intros s [<- | [<- | [<- | []]]] _; reflexivity.
    + intros s v [<- | [<- | [<- | []]]] [= <-];
        [exists 100%Z | exists 200%Z | exists 300%Z]; reflexivity.
    + simpl. tauto.
    + reflexivity.
    + reflexivity.
Defined.

(** On a scope whose cheapest store has no coordinates the marker of the
    bucket 2.00 sits at 50 percent, while the store priced 2.00 is coloured
    at [t = 0]: the statistics count the unlocated store, the colour range
    does not. *)
Lemma marker_position_differs_with_unlocated_store :
  storesForMap "0001111041700" scope_with_unlocated = scope_with_unlocated
  /\ priceStats "0001111041700" scope_with_unlocated = Some unlocated_stats
  /\ App_priceStats "0001111041700" scope_with_unlocated
     = Some unlocated_stats
  /\ In bucket_2 (distribution unlocated_stats)
  /\ In store_b (individualPoints (PriceMap_classify scope_with_unlocated 12))
  /\ EffectiveValue store_b = Some 2.00
  /\ 2.00 == price bucket_2
  /\ (exists position t,
         markerPosition unlocated_stats bucket_2 = Some position
         /\ getPriceColor_t (priceRange (points scope_with_unlocated)) store_b
            = Some t
         /\ position == 50 /\ clampT t * 100 == 0)
  /\ ~ marker_matches_colour (markerPosition unlocated_stats bucket_2)
         (getPriceColor_t (priceRange (points scope_with_unlocated)) store_b).
Proof.
  split; [reflexivity |]. split; [reflexivity |]. split; [reflexivity |].
  split; [vm_compute; right; left; reflexivity |].
  split; [vm_compute; left; reflexivity |].
  split; [reflexivity |]. split; [reflexivity |].
  split.
  - eexists. eexists. split; [reflexivity |]. split; [reflexivity |].
    split; reflexivity.
  - vm_compute. discriminate.
Qed.

(** On a scope of located stores where one price has a third decimal, the
    statistics round it to 1.00 while the colour range keeps 1.004: the
    marker of the bucket 2.00 sits at 50 percent and the store priced 2.00
    is coloured at [t = 0.996 / 1.996]. *)
Lemma marker_position_differs_with_unrounded_price :
  priceStats "0001111041700" scope_with_unrounded = Some unrounded_stats
  /\ In bucket_2 (distribution unrounded_stats)
  /\ points scope_with_unrounded = scope_with_unrounded
  /\ (exists position t,
         markerPosition unrounded_stats bucket_2 = Some position
         /\ getPriceColor_t (priceRange (points scope_with_unrounded)) store_b
            = Some t
         /\ position == 50 /\ clampT t * 100 == 99600 # 1996)
  /\ ~ marker_matches_colour (markerPosition unrounded_stats bucket_2)
         (getPriceColor_t (priceRange (points scope_with_unrounded)) store_b).
Proof.
  split; [reflexivity |].
  split; [vm_compute; right; left; reflexivity |].
  split; [reflexivity |].
  split.
  - eexists. eexists. split; [reflexivity |]. split; [reflexivity |].
    split; reflexivity.
  - vm_compute. discriminate.
Qed.

(** * Further properties of the source *)

(** ** Rows entered in a map by their key *)

Lemma Map_set_nodup {V : Type} k (v : V) m :
  NoDup (map fst m) -> NoDup (map fst (Map_set String.eqb k v m)).
Proof.
  intros Hnd.
  destruct (Map_get String.eqb k m) as [c|] eqn:E.
  - now rewrite (Map_set_keys _ _ c).
  - rewrite Map_set_absent by assumption.
    rewrite map_app. simpl.
    apply NoDup_app; auto.
    + repeat constructor. simpl. tauto.
    + intros k' Hk [<- | []]. now apply Map_get_none_keys in E.
Qed.

Lemma Map_set_in {V : Type} k (v : V) m e :
  In e (Map_set String.eqb k v m) -> e = (k, v) \/ In e m.
Proof.
  induction m as [|[k' v'] m IH]; simpl.
  - intros [<- | []]. now left.
  - destruct (String.eqb k k') eqn:E; simpl.
    + apply String.eqb_eq in E. subst k'.
      intros [<- | H]; [now left | now right; right].
    + intros [<- | H]; [now right; left |].
      destruct (IH H); [now left | now right; right].
Qed.

Section KeyedRows.
Context {A : Type} (key : A -> string).

Lemma keyed_nil : keyed key [].
Proof. split; [constructor | intros k r []]. Qed.

Lemma keyed_set r m : keyed key m -> keyed key (Map_set String.eqb (key r) r m).
Proof.
  intros [Hnd Hk]. split; [now apply Map_set_nodup |].
  intros k r' Hin. apply Map_set_in in Hin.
  destruct Hin as [[= -> ->] | Hin]; auto.
Qed.

Lemma keyed_values_keys m : keyed key m -> map key (Map_values m) = map fst m.
Proof.
  intros [_ Hk]. unfold Map_values. rewrite map_map.
  apply map_ext_in. intros [k r] Hin. simpl. auto.
Qed.

Lemma keyed_values_in m r :
  keyed key m ->
  In r (Map_values m) <-> Map_get String.eqb (key r) m = Some r.
Proof.
  intros [Hnd Hk]. split.
  - intros Hin. unfold Map_values in Hin. apply in_map_iff in Hin.
    destruct Hin as ([k r'] & <- & Hin). simpl.
    rewrite (Hk _ _ Hin). now apply Map_in_get.
  - intros Hget. apply Map_get_in in Hget.
    unfold Map_values. apply in_map_iff. now exists (key r, r).
Qed.

(** Entering every row: the last row of a key stays. *)
Lemma last_wins_get rows m k :
  Map_get String.eqb k
    (fold_left (fun m r => Map_set String.eqb (key r) r m) rows m)
  = match find (fun r => String.eqb (key r) k) (rev rows) with
    | Some r => Some r
    | None => Map_get String.eqb k m
    end.
Proof.
  induction rows as [|r rows IH] using rev_ind; [reflexivity |].
  rewrite fold_left_app, rev_app_distr. simpl.
  destruct (String.eqb (key r) k) eqn:E.
  - apply String.eqb_eq in E. subst k. apply Map_get_set_same.
  - apply String.eqb_neq in E.
    rewrite Map_get_set_other by congruence. apply IH.
Qed.

Lemma last_wins_keyed rows m :
  keyed key m ->
  keyed key (fold_left (fun m r => Map_set String.eqb (key r) r m) rows m).
Proof.
  revert m. induction rows as [|r rows IH]; intros m H; simpl; auto.
  apply IH. now apply keyed_set.
Qed.

Lemma last_wins_distinct rows m :
  NoDup (map fst m ++ map key rows) ->
  fold_left (fun m r => Map_set String.eqb (key r) r m) rows m
  = m ++ map (fun r => (key r, r)) rows.
Proof.
  revert m. induction rows as [|r rows IH]; intros m H; simpl.
  - now rewrite app_nil_r.
  - assert (Habs : Map_get String.eqb (key r) m = None).
    { apply Map_get_none_keys. intros Hin.
      apply NoDup_remove_2 in H. apply H.
      apply in_or_app. now left. }
    rewrite Map_set_absent by assumption.
    rewrite IH.
    + now rewrite <- app_assoc.
    + rewrite map_app. simpl. now rewrite <- app_assoc.
Qed.

(** Entering a row only under a free key: the first row of a key stays. *)
Lemma first_wins_get rows m k :
  Map_get String.eqb k
    (fold_left
       (fun m r =>
          if negb (Map_has (key r) m)
          then Map_set String.eqb (key r) r m else m) rows m)
  = match Map_get String.eqb k m with
    | Some r => Some r
    | None => find (fun r => String.eqb (key r) k) rows
    end.
Proof.
  revert m. induction rows as [|r rows IH]; intros m; simpl.
  - now destruct (Map_get String.eqb k m).
  - rewrite IH. unfold Map_has.
    destruct (Map_get String.eqb (key r) m) as [r0|] eqn:E; simpl.
    + destruct (Map_get String.eqb k m) eqn:Ek; [reflexivity |].
      destruct (String.eqb (key r) k) eqn:E'; [| reflexivity].
      apply String.eqb_eq in E'. congruence.
    + destruct (String.eqb (key r) k) eqn:E'.
      * apply String.eqb_eq in E'. subst k.
        now rewrite Map_get_set_same, E.
      * apply String.eqb_neq in E'.
        now rewrite Map_get_set_other by congruence.
Qed.

Lemma first_wins_keyed rows m :
  keyed key m ->
  keyed key (fold_left
           (fun m r =>
              if negb (Map_has (key r) m)
              then Map_set String.eqb (key r) r m else m) rows m).
Proof.
  revert m. induction rows as [|r rows IH]; intros m H; simpl; auto.
  apply IH. destruct (negb (Map_has (key r) m)); [now apply keyed_set | auto].
Qed.

Lemma find_key_some rows k :
  (exists r, find (fun r => String.eqb (key r) k) rows = Some r)
  <-> In k (map key rows).
Proof.
  induction rows as [|r rows IH]; simpl.
  - split; [intros [r H]; discriminate | tauto].
  - destruct (String.eqb (key r) k) eqn:E.
    + apply String.eqb_eq in E. split; [now left | eauto].
    + apply String.eqb_neq in E. rewrite IH. tauto.
Qed.

End KeyedRows.

Lemma Map_get_some_keys {A : Type} (m : list (string * A)) k :
  (exists r, Map_get String.eqb k m = Some r) <-> In k (map fst m).
Proof.
  pose proof (Map_get_none_keys k m) as H.
  destruct (Map_get String.eqb k m) as [r|].
  - split; [| eauto]. intros _.
    destruct (in_dec string_dec k (map fst m)); auto.
    assert (Some r = None) by tauto. discriminate.
  - split; [intros [r Hr]; discriminate |].
    intros Hin. exfalso. now apply H.
Qed.

Lemma first_wins_distinct {A : Type} (key : A -> string) rows m :
  NoDup (map fst m ++ map key rows) ->
  fold_left
    (fun m r =>
       if negb (Map_has (key r) m)
       then Map_set String.eqb (key r) r m else m) rows m
  = m ++ map (fun r => (key r, r)) rows.
Proof.
  revert m. induction rows as [|r rows IH]; intros m H; simpl.
  - now rewrite app_nil_r.
  - assert (Habs : Map_get String.eqb (key r) m = None).
    { apply Map_get_none_keys. intros Hin.
      apply NoDup_remove_2 in H. apply H.
      apply in_or_app. now left. }
    assert (Hhas : Map_has (key r) m = false)
      by (unfold Map_has; now rewrite Habs).
    rewrite Hhas. simpl.
    rewrite Map_set_absent by assumption.
    rewrite IH.
    + now rewrite <- app_assoc.
    + rewrite map_app. simpl. now rewrite <- app_assoc.
Qed.

Lemma map_keyed_entries {A : Type} (key : A -> string) (rows : list A) :
  Map_values (map (fun r => (key r, r)) rows) = rows.
Proof.
  unfold Map_values. rewrite map_map. simpl. apply map_id.
Qed.

Lemma find_key_rev {A : Type} (key : A -> string) (rows : list A) k :
  In k (map key (rev rows)) <-> In k (map key rows).
Proof. rewrite map_rev. symmetry. apply in_rev. Qed.

(** ** The fetched stores and price rows *)

(** X1. The stores kept after the page requests have pairwise different
    location ids, exactly the ids of the fetched rows; the row kept for an
    id is the last one fetched with it; rows with pairwise different ids
    are kept as they came, in order; and pages without data count as
    empty. *)
Theorem uniqueStores_keeps_last_row
  (results : list (option (list StorePoint))) :
  NoDup (map location_id (uniqueStores results))
  /\ (forall id,
         In id (map location_id (uniqueStores results))
         <-> In id (map location_id (allData results)))
  /\ (forall s,
         In s (uniqueStores results)
         <-> find (fun r => String.eqb (location_id r) (location_id s))
               (rev (allData results)) = Some s)
  /\ (NoDup (map location_id (allData results)) ->
      uniqueStores results = allData results)
  /\ ((forall res, In res results -> res = None) -> uniqueStores results = []).
Proof.
  unfold uniqueStores.
  set (rows := allData results).
  set (m := fold_left _ rows []).
  assert (Hk : keyed location_id m)
    by (apply last_wins_keyed, keyed_nil).
  assert (Hget : forall k,
             Map_get String.eqb k m
             = find (fun r => String.eqb (location_id r) k) (rev rows)).
  { intros k. unfold m. rewrite last_wins_get. simpl.
    now destruct (find _ (rev rows)). }
  split; [| split; [| split; [| split]]].
  - rewrite (keyed_values_keys location_id) by assumption. apply Hk.
  - intros id. rewrite (keyed_values_keys location_id) by assumption.
    rewrite <- Map_get_some_keys, <- (find_key_rev location_id),
      <- (find_key_some location_id).
    split; intros [r Hr]; exists r; [now rewrite <- Hget | now rewrite Hget].
  - intros s. rewrite (keyed_values_in location_id) by assumption.
    now rewrite Hget.
  - intros Hnd. unfold m.
    rewrite last_wins_distinct by assumption. apply map_keyed_entries.
  - intros Hnone. unfold m, rows, allData.
    replace (flat_map response_rows results) with (@nil StorePoint);
      [reflexivity |].
    clear -Hnone. induction results as [|res results IH]; [reflexivity |].
    simpl. rewrite (Hnone res) by now left. simpl.
    apply IH. intros res' H. apply Hnone. now right.
Qed.

Lemma uniqueStores_keeps_last_row_witness :
  uniqueStores store_pages = [store_a_again; store_b; store_c]
  /\ uniqueStores [Some [store_a; store_b]; Some [store_c]]
     = [store_a; store_b; store_c]
  /\ uniqueStores [None; None] = [].
Proof.
  split; [reflexivity |].
  split.
  - destruct (uniqueStores_keeps_last_row
                [Some [store_a; store_b]; Some [store_c]])
      as (_ & _ & _ & H & _).
    apply H. simpl. repeat constructor; simpl; intuition discriminate.
  - destruct (uniqueStores_keeps_last_row [None; None])
      as (_ & _ & _ & _ & H).
    apply H. simpl. intuition.
Defined.

(** X2. The price rows kept for a product have pairwise different location
    ids, exactly the ids of the fetched rows; the row kept for a location
    is the first one fetched for it; and rows with pairwise different
    locations are kept as they came, in order. *)
Theorem latestByLocation_keeps_first_row
  (results : list (option (list StorePriceRow))) :
  NoDup (map row_location_id (latestByLocation results))
  /\ (forall id,
         In id (map row_location_id (latestByLocation results))
         <-> In id (map row_location_id (allData results)))
  /\ (forall p,
         In p (latestByLocation results)
         <-> find (fun r => String.eqb (row_location_id r) (row_location_id p))
               (allData results) = Some p)
  /\ (NoDup (map row_location_id (allData results)) ->
      latestByLocation results = allData results).
Proof.
  unfold latestByLocation.
  set (rows := allData results).
  set (m := fold_left _ rows []).
  assert (Hk : keyed row_location_id m)
    by (apply first_wins_keyed, keyed_nil).
  assert (Hget : forall k,
             Map_get String.eqb k m
             = find (fun r => String.eqb (row_location_id r) k) rows).
  { intros k. unfold m. now rewrite first_wins_get. }
  split; [| split; [| split]].
  - rewrite (keyed_values_keys row_location_id) by assumption. apply Hk.
  - intros id. rewrite (keyed_values_keys row_location_id) by assumption.
    rewrite <- Map_get_some_keys, <- (find_key_some row_location_id).
    split; intros [r Hr]; exists r; [now rewrite <- Hget | now rewrite Hget].
  - intros p. rewrite (keyed_values_in row_location_id) by assumption.
    now rewrite Hget.
  - intros Hnd. unfold m.
    rewrite first_wins_distinct by assumption. apply map_keyed_entries.
Qed.

Lemma latestByLocation_keeps_first_row_witness :
  latestByLocation price_pages = [row_a; row_b]
  /\ latestByLocation [Some [row_a_older]; Some [row_b]]
     = [row_a_older; row_b].
Proof.
  split; [reflexivity |].
  destruct (latestByLocation_keeps_first_row
              [Some [row_a_older]; Some [row_b]]) as (_ & _ & _ & H).
  apply H. simpl. repeat constructor; simpl; intuition discriminate.
Defined.

(** ** The options of the filter drop-downs *)

Lemma String_leb_trans a b c :
  String.leb a b = true -> String.leb b c = true -> String.leb a c = true.
Proof.
  revert b c. unfold String.leb.
  induction a as [|x a IH]; intros [|y b] [|z c]; simpl; try easy.
  unfold Ascii.compare.
  destruct (N.compare_spec (N_of_ascii x) (N_of_ascii y)),
           (N.compare_spec (N_of_ascii y) (N_of_ascii z)),
           (N.compare_spec (N_of_ascii x) (N_of_ascii z));
    try lia; try easy.
  apply IH.
Qed.

Lemma String_leb_strict a b :
  String.leb a b = true -> a <> b -> String.ltb a b = true.
Proof.
  unfold String.leb, String.ltb. intros H Hne.
  destruct (String.compare a b) eqn:E; try easy.
  apply String.compare_eq_iff in E. contradiction.
Qed.

Lemma sort_strings_sorted (l : list string) :
  NoDup l ->
  StronglySorted (fun a b => String.ltb a b = true) (sort String.leb l).
Proof.
  intros Hnd.
  assert (Hnd' : NoDup (sort String.leb l)).
  { eapply Permutation_NoDup; [| exact Hnd].
    apply Permutation_sym, sort_permutation. }
  pose proof (sort_sorted String.leb String.leb_total String_leb_trans l)
    as Hs.
  induction Hs as [|a l' Hs IH Ha]; [constructor |].
  inversion Hnd' as [|? ? Hout Hnd'']; subst.
  constructor; [auto |].
  rewrite Forall_forall in *. intros b Hb.
  apply String_leb_strict; [auto |]. intros ->. contradiction.
Qed.

Lemma Set_add_in x y set : In y (Set_add x set) <-> y = x \/ In y set.
Proof.
  unfold Set_add. destruct (existsb (String.eqb x) set) eqn:E.
  - apply existsb_exists in E. destruct E as (z & Hz & Ez).
    apply String.eqb_eq in Ez. subst z.
    split; [tauto |]. intros [-> | H]; assumption.
  - rewrite in_app_iff. simpl. intuition.
Qed.

Lemma Set_add_nodup x set : NoDup set -> NoDup (Set_add x set).
Proof.
  intros Hnd. unfold Set_add.
  destruct (existsb (String.eqb x) set) eqn:E; [assumption |].
  apply NoDup_app; [assumption | repeat constructor; simpl; tauto |].
  intros y Hy [Hxy | []]. subst y.
  assert (existsb (String.eqb x) set = true); [| congruence].
  apply existsb_exists. exists x. split; [assumption | apply String.eqb_refl].
Qed.

(** The set collected from a field: its truthy values, each once. *)
Lemma collected_set (field : StorePoint -> option string) sts set0 :
  NoDup set0 ->
  let set :=
    fold_left
      (fun set s =>
         match field s with
         | Some x => if String.eqb x "" then set else Set_add x set
         | None => set
         end) sts set0 in
  NoDup set
  /\ forall x, In x set
               <-> In x set0
                   \/ (x <> "" /\ exists s, In s sts /\ field s = Some x).
Proof.
  revert set0. induction sts as [|s sts IH]; intros set0 Hnd; simpl.
  - split; [assumption |]. intros x. split; [tauto |].
    intros [H | (_ & s & [] & _)]. assumption.
  - destruct (field s) as [v|] eqn:Ef.
    + destruct (String.eqb v "") eqn:Ev.
      * apply String.eqb_eq in Ev. subst v.
        destruct (IH set0 Hnd) as [H1 H2]. split; [assumption |].
        intros x. rewrite H2. split.
        -- intros [H | (Hx & s' & Hs' & Hf)]; [now left |].
           right. split; [assumption |]. exists s'. auto.
        -- intros [H | (Hx & s' & [<- | Hs'] & Hf)]; [now left | |].
           ++ congruence.
           ++ right. split; [assumption |]. now exists s'.
      * apply String.eqb_neq in Ev.
        destruct (IH (Set_add v set0) (Set_add_nodup v set0 Hnd))
          as [H1 H2].
        split; [assumption |].
        intros x. rewrite H2, Set_add_in. split.
        -- intros [[-> | H] | (Hx & s' & Hs' & Hf)].
           ++ right. split; [assumption |]. exists s. auto.
           ++ now left.
           ++ right. split; [assumption |]. exists s'. auto.
        -- intros [H | (Hx & s' & [<- | Hs'] & Hf)].
           ++ left. now right.
           ++ left. left. congruence.
           ++ right. split; [assumption |]. now exists s'.
    + destruct (IH set0 Hnd) as [H1 H2]. split; [assumption |].
      intros x. rewrite H2. split.
      * intros [H | (Hx & s' & Hs' & Hf)]; [now left |].
        right. split; [assumption |]. exists s'. auto.
      * intros [H | (Hx & s' & [<- | Hs'] & Hf)]; [now left | |].
        -- congruence.
        -- right. split; [assumption |]. now exists s'.
Qed.

Lemma uniqueOptions_in field sts x :
  In x (uniqueOptions field sts)
  <-> x <> "" /\ exists s, In s sts /\ field s = Some x.
Proof.
  unfold uniqueOptions.
  destruct (collected_set field sts [] (NoDup_nil _)) as [_ H].
  cbv zeta in H.
  split.
  - intros Hin. apply (Permutation_in _ (sort_permutation _ _)) in Hin.
    apply H in Hin. destruct Hin as [[] | Hin]. exact Hin.
  - intros Hin.
    apply (Permutation_in _ (Permutation_sym (sort_permutation _ _))).
    apply H. now right.
Qed.

(** X3. The options of a filter drop-down are in strictly ascending
    code-unit order, so each occurs once, and they are exactly the
    non-empty values the field takes on some store; null and empty values
    give no option. *)
Theorem uniqueOptions_sorted_and_complete
  (field : StorePoint -> option string) (sts : list StorePoint) :
  StronglySorted (fun a b => String.ltb a b = true) (uniqueOptions field sts)
  /\ NoDup (uniqueOptions field sts)
  /\ (forall x, In x (uniqueOptions field sts)
                <-> x <> "" /\ exists s, In s sts /\ field s = Some x)
  /\ uniqueStates sts = uniqueOptions state sts
  /\ uniqueChains sts = uniqueOptions chain sts.
Proof.
  destruct (collected_set field sts [] (NoDup_nil _)) as [Hnd _].
  cbv zeta in Hnd.
  split; [now apply sort_strings_sorted |].
  split.
  - eapply Permutation_NoDup; [| exact Hnd].
    apply Permutation_sym, sort_permutation.
  - split; [apply uniqueOptions_in |]. now split.
Qed.

(** ** The location filters *)

Lemma matches_spec selected field :
  matches selected field = true
  <-> selected = "ALL" \/ field = Some selected.
Proof.
  unfold matches. rewrite orb_true_iff, String.eqb_eq.
  destruct field as [x|].
  - rewrite String.eqb_eq. split; intros [H | H]; auto; [right | right];
      congruence.
  - split; intros [H | H]; auto; discriminate.
Qed.

Lemma matches_ALL field : matches "ALL" field = true.
Proof. reflexivity. Qed.

Lemma filteredStores_in sts st ch s :
  In s (filteredStores sts st ch)
  <-> In s sts
      /\ (st = "ALL" \/ state s = Some st)
      /\ (ch = "ALL" \/ chain s = Some ch).
Proof.
  unfold filteredStores. rewrite filter_In. cbv zeta.
  now rewrite andb_true_iff, !matches_spec.
Qed.

Lemma filter_filter {A : Type} (f g : A -> bool) l :
  filter g (filter f l) = filter (fun x => f x && g x) l.
Proof.
  induction l as [|x l IH]; simpl; [reflexivity |].
  destruct (f x); simpl; [destruct (g x) |]; now rewrite IH.
Qed.

Lemma filteredStores_app l l' st ch :
  filteredStores (l ++ l') st ch
  = filteredStores l st ch ++ filteredStores l' st ch.
Proof. unfold filteredStores. apply filter_app. Qed.

Lemma filteredStores_one s st ch :
  filteredStores [s] st ch
  = if matches st (state s) && matches ch (chain s) then [s] else [].
Proof. reflexivity. Qed.

(** X4. In the version of [App] that filters by state and chain, the
    filtered stores are the stores whose state and chain each equal the
    selection or whose selection is "ALL", each kept once and in the order
    of the store list: a store alone is kept as it is or dropped, and the
    filtered stores of two lists put one after the other are the filtered
    stores of the first followed by those of the second.  A store with a
    null field passes only "ALL"; with both selections "ALL" every store
    passes; filtering by state and then by chain is filtering by both.  An
    option offered by the state drop-down selects at least one store when
    the chain selection is "ALL", and so does an option of the chain
    drop-down when the state selection is "ALL"; an offered state together
    with an offered chain may select no store at all. *)
Theorem filteredStores_selects_matching_stores
  (sts : list StorePoint) (selectedState selectedChain : string) :
  (forall s,
      In s (filteredStores sts selectedState selectedChain)
      <-> In s sts
          /\ (selectedState = "ALL" \/ state s = Some selectedState)
          /\ (selectedChain = "ALL" \/ chain s = Some selectedChain))
  /\ (forall s,
         ((selectedState = "ALL" \/ state s = Some selectedState)
          /\ (selectedChain = "ALL" \/ chain s = Some selectedChain) ->
          filteredStores [s] selectedState selectedChain = [s])
         /\ (~ ((selectedState = "ALL" \/ state s = Some selectedState)
                /\ (selectedChain = "ALL" \/ chain s = Some selectedChain)) ->
             filteredStores [s] selectedState selectedChain = []))
  /\ (forall l l',
         filteredStores (l ++ l') selectedState selectedChain
         = filteredStores l selectedState selectedChain
           ++ filteredStores l' selectedState selectedChain)
  /\ filteredStores sts "ALL" "ALL" = sts
  /\ filteredStores (filteredStores sts selectedState "ALL") "ALL"
       selectedChain
     = filteredStores sts selectedState selectedChain
  /\ (In selectedState (uniqueStates sts) ->
      filteredStores sts selectedState "ALL" <> [])
  /\ (In selectedChain (uniqueChains sts) ->
      filteredStores sts "ALL" selectedChain <> [])
  /\ (exists l st ch,
         In st (uniqueStates l) /\ In ch (uniqueChains l)
         /\ filteredStores l st ch = []).
Proof.
  split; [intros s; apply filteredStores_in |].
  split.
  { intros s. rewrite filteredStores_one.
    rewrite <- !matches_spec, <- andb_true_iff.
    destruct (matches selectedState (state s)
              && matches selectedChain (chain s)); split; intros H;
      try reflexivity; try discriminate.
    now elim H. }
  split; [intros l l'; apply filteredStores_app |].
  split.
  { unfold filteredStores. cbv zeta.
    induction sts as [|s sts IH]; [easy |].
    cbn [filter]. rewrite !matches_ALL. cbn [andb]. now rewrite IH. }
  split.
  { unfold filteredStores. rewrite filter_filter. apply filter_ext.
    intros s. cbv zeta. rewrite !matches_ALL. simpl.
    now rewrite andb_true_r. }
  split.
  { intros Hin Hnil. apply uniqueOptions_in in Hin.
    destruct Hin as (_ & s & Hs & Hst).
    assert (H : In s (filteredStores sts selectedState "ALL"))
      by (apply filteredStores_in; auto).
    now rewrite Hnil in H. }
  split.
  { intros Hin Hnil. apply uniqueOptions_in in Hin.
    destruct Hin as (_ & s & Hs & Hch).
    assert (H : In s (filteredStores sts "ALL" selectedChain))
      by (apply filteredStores_in; auto).
    now rewrite Hnil in H. }
  exists stores_with_states, "OH"%string, "RALPHS"%string.
  split; [vm_compute; tauto |]. split; [vm_compute; tauto |]. reflexivity.
Qed.

Lemma filteredStores_selects_matching_stores_witness :
  uniqueStates stores_with_states = ["CA"; "KY"; "OH"]%string
  /\ uniqueChains stores_with_states = ["KROGER"; "RALPHS"]%string
  /\ filteredStores stores_with_states "OH" "ALL" <> []
  /\ filteredStores stores_with_states "ALL" "RALPHS" <> []
  /\ filteredStores stores_with_states "OH" "ALL"
     = [store_in "1" (Some "OH") (Some "KROGER");
        store_in "4" (Some "OH") (Some "")]%string
  /\ filteredStores stores_with_states "OH" "KROGER"
     = [store_in "1" (Some "OH") (Some "KROGER")]%string
  /\ filteredStores stores_with_states "OH" "RALPHS" = [].
Proof.
  split; [reflexivity |]. split; [reflexivity |].
  destruct (filteredStores_selects_matching_stores stores_with_states
              "OH" "RALPHS") as (_ & _ & _ & _ & _ & Hst & Hch & _).
  split; [apply Hst; vm_compute; tauto |].
  split; [apply Hch; vm_compute; tauto |].
  split; [reflexivity |]. split; reflexivity.
Defined.

(** ** Attaching the prices *)

Lemma storesWithPrice_lookup l pp :
  storesWithPrice l pp
  = map
      (fun s =>
         with_price s
           (row_field (attached_row pp s) row_regular_price)
           (row_field (attached_row pp s) row_promo_price)
           (row_field (attached_row pp s) (fun r => Some (row_price_date r))))
      l.
Proof.
  unfold storesWithPrice, attached_row.
  destruct pp as [|p pp]; [reflexivity |].
  cbn [List.length Nat.eqb]. cbv zeta.
  apply map_ext. intros s.
  rewrite (last_wins_get row_location_id). cbn [Map_get].
  now destruct (find _ (rev (p :: pp))).
Qed.

Lemma with_price_same_place s regular promo date :
  same_place (with_price s regular promo date) s.
Proof. repeat split. Qed.

Lemma with_price_effective s (row : option StorePriceRow) date :
  EffectiveValue
    (with_price s (row_field row row_regular_price)
       (row_field row row_promo_price) date)
  = match row with
    | Some r => row_value r
    | None => None
    end.
Proof.
  unfold EffectiveValue, row_value, row_field. simpl.
  destruct row as [r|]; [| reflexivity].
  now destruct (row_promo_price r), (row_regular_price r).
Qed.

Lemma storesWithPrice_filter (keep : StorePoint -> bool) l pp :
  (forall s regular promo date,
      keep (with_price s regular promo date) = keep s) ->
  filter keep (storesWithPrice l pp) = storesWithPrice (filter keep l) pp.
Proof.
  intros Hkeep. rewrite !storesWithPrice_lookup.
  induction l as [|s l IH]; simpl; [reflexivity |].
  rewrite Hkeep. destruct (keep s); simpl; now rewrite IH.
Qed.

(** X5. Attaching the prices keeps the stores, their order, identity, place
    and coordinates, and sets the three price fields only: a store whose
    location has a price row gets the regular price, the promo price and
    the price date of the last such row, a null price of the row staying
    null; a store whose location has none gets three nulls; no field is
    left missing.  The effective value of the store is then the row's promo
    price if there is one, else its regular price.  So attaching commutes
    with every filter that does not read the price fields, among them the
    map's filter on coordinates and the filters by state and chain. *)
Theorem storesWithPrice_attaches_last_row
  (l : list StorePoint) (productPrices : list StorePriceRow) :
  Forall2 same_place (storesWithPrice l productPrices) l
  /\ Forall2
       (fun s' s =>
          match attached_row productPrices s with
          | Some r =>
              regular_price s' = nullable (row_regular_price r)
              /\ promo_price s' = nullable (row_promo_price r)
              /\ price_date s' = Value (row_price_date r)
          | None =>
              regular_price s' = Null /\ promo_price s' = Null
              /\ price_date s' = Null
          end)
       (storesWithPrice l productPrices) l
  /\ Forall2
       (fun s' s =>
          promo_price s' <> Undefined /\ regular_price s' <> Undefined
          /\ price_date s' <> Undefined
          /\ EffectiveValue s'
             = match attached_row productPrices s with
               | Some r => row_value r
               | None => None
               end)
       (storesWithPrice l productPrices) l
  /\ (forall keep : StorePoint -> bool,
         (forall s regular promo date,
             keep (with_price s regular promo date) = keep s) ->
         filter keep (storesWithPrice l productPrices)
         = storesWithPrice (filter keep l) productPrices)
  /\ points (storesWithPrice l productPrices)
     = storesWithPrice (points l) productPrices
  /\ (forall st ch,
         filteredStores (storesWithPrice l productPrices) st ch
         = storesWithPrice (filteredStores l st ch) productPrices).
Proof.
  split; [| split; [| split; [| split; [| split]]]].
  - rewrite storesWithPrice_lookup.
    induction l as [|s l IH]; simpl; constructor; auto.
    apply with_price_same_place.
  - rewrite storesWithPrice_lookup.
    induction l as [|s l IH]; simpl; constructor; auto.
    unfold row_field, nullable. simpl.
    destruct (attached_row productPrices s) as [r|]; repeat split.
  - rewrite storesWithPrice_lookup.
    induction l as [|s l IH]; simpl; constructor; auto.
    split; [| split; [| split]].
    + unfold row_field. simpl.
      destruct (attached_row productPrices s) as [r|]; [| discriminate].
      destruct (row_promo_price r); discriminate.
    + unfold row_field. simpl.
      destruct (attached_row productPrices s) as [r|]; [| discriminate].
      destruct (row_regular_price r); discriminate.
    + unfold row_field. simpl.
      destruct (attached_row productPrices s) as [r|]; discriminate.
    + apply with_price_effective.
  - intros keep Hkeep. now apply storesWithPrice_filter.
  - unfold points. apply storesWithPrice_filter. reflexivity.
  - intros st ch. unfold filteredStores. apply storesWithPrice_filter.
    reflexivity.
Qed.

Lemma storesWithPrice_attaches_last_row_witness :
  map regular_price (storesWithPrice example_stores price_rows)
  = [Value 2.00; Value 2.00; Null; Null]
  /\ map promo_price (storesWithPrice example_stores price_rows)
     = [Value 1.00; Null; Null; Null]
  /\ filter has_coordinates (storesWithPrice example_stores price_rows)
     = storesWithPrice (filter has_coordinates example_stores) price_rows.
Proof.
  split; [reflexivity |]. split; [reflexivity |].
  destruct (storesWithPrice_attaches_last_row example_stores price_rows)
    as (_ & _ & _ & H & _).
  apply H. reflexivity.
Defined.

Lemma find_app_key {A : Type} (f : A -> bool) l l' :
  find f (l ++ l')
  = match find f l with
    | Some a => Some a
    | None => find f l'
    end.
Proof.
  induction l as [|a l IH]; simpl; [reflexivity |].
  now destruct (f a).
Qed.

Lemma find_absent_key {A : Type} (key : A -> string) l k :
  ~ In k (map key l) -> find (fun r => String.eqb (key r) k) l = None.
Proof.
  induction l as [|a l IH]; simpl; [reflexivity |].
  intros H. destruct (String.eqb (key a) k) eqn:E.
  - apply String.eqb_eq in E. tauto.
  - apply IH. tauto.
Qed.

(** With pairwise different keys the first and the last row of a key are
    the same row. *)
Lemma find_rev_distinct {A : Type} (key : A -> string) l k :
  NoDup (map key l) ->
  find (fun r => String.eqb (key r) k) (rev l)
  = find (fun r => String.eqb (key r) k) l.
Proof.
  induction l as [|a l IH]; intros Hnd; simpl; [reflexivity |].
  inversion Hnd as [|? ? Hout Hnd']; subst.
  rewrite find_app_key, IH by assumption. simpl.
  destruct (String.eqb (key a) k) eqn:E.
  - apply String.eqb_eq in E. subst k.
    now rewrite find_absent_key.
  - now destruct (find _ l).
Qed.

Lemma keyed_find {A : Type} (key : A -> string) m k :
  keyed key m ->
  find (fun r => String.eqb (key r) k) (Map_values m)
  = Map_get String.eqb k m.
Proof.
  intros [_ Hk]. induction m as [|[k' r] m IH]; simpl; [reflexivity |].
  rewrite (Hk k' r) by now left.
  rewrite String.eqb_sym.
  destruct (String.eqb k k'); [reflexivity |].
  apply IH. intros k0 r0 H. apply Hk. now right.
Qed.

Lemma attached_row_latest results s :
  attached_row (latestByLocation results) s
  = first_row (allData results) (location_id s).
Proof.
  unfold attached_row, first_row.
  assert (Hk : keyed row_location_id
                 (fold_left
                    (fun m r =>
                       if negb (Map_has (row_location_id r) m)
                       then Map_set String.eqb (row_location_id r) r m
                       else m) (allData results) []))
    by (apply first_wins_keyed, keyed_nil).
  rewrite find_rev_distinct.
  - unfold latestByLocation.
    rewrite (keyed_find row_location_id) by assumption.
    now rewrite first_wins_get.
  - unfold latestByLocation.
    rewrite (keyed_values_keys row_location_id) by assumption. apply Hk.
Qed.

(** X6. When the price rows come from [fetchPricesForProduct], the price a
    store carries is that of the first row fetched for its location: its
    effective value is that row's promo price if it has one, else its
    regular price, and a store whose location has no fetched row has no
    price; with a product selected, the stores handed to the map are then
    exactly the stores whose first row has a price. *)
Theorem storesWithPrice_uses_first_fetched_row
  (l : list StorePoint) (results : list (option (list StorePriceRow)))
  (sel : string) :
  sel <> "" ->
  Forall2
    (fun s' s =>
       EffectiveValue s'
       = match first_row (allData results) (location_id s) with
         | Some r => row_value r
         | None => None
         end)
    (storesWithPrice l (latestByLocation results)) l
  /\ storesForMap sel (storesWithPrice l (latestByLocation results))
     = storesWithPrice
         (filter
            (fun s =>
               match first_row (allData results) (location_id s) with
               | Some r =>
                   match row_value r with Some _ => true | None => false end
               | None => false
               end) l)
         (latestByLocation results).
Proof.
  intros Hsel. rewrite !storesWithPrice_lookup.
  split.
  - induction l as [|s l IH]; simpl; constructor; auto.
    now rewrite with_price_effective, attached_row_latest.
  - unfold storesForMap.
    destruct (no_selection sel) eqn:E;
      [apply no_selection_spec in E; contradiction |].
    induction l as [|s l IH]; simpl; [reflexivity |].
    rewrite has_price_effective, with_price_effective, attached_row_latest.
    destruct (first_row (allData results) (location_id s)) as [r|] eqn:Ef;
      [destruct (row_value r) |]; simpl;
      rewrite IH, ?attached_row_latest, ?Ef; reflexivity.
Qed.

Lemma storesWithPrice_uses_first_fetched_row_witness :
  map EffectiveValue
    (storesWithPrice [store_a; store_b; store_c] (latestByLocation price_pages))
  = [Some 1.00; Some 2.00; None]
  /\ map location_id
       (storesForMap "0001111041700"
          (storesWithPrice [store_a; store_b; store_c]
             (latestByLocation price_pages)))
     = ["a"; "b"].
Proof.
  destruct (storesWithPrice_uses_first_fetched_row
              [store_a; store_b; store_c] price_pages "0001111041700")
    as [_ H]; [discriminate |].
  split; [reflexivity |].
  rewrite H. reflexivity.
Defined.

(** ** The price range of the located stores *)

Lemma Forall_effective_values pts (P : Q -> Prop) :
  Forall P (effective_values pts)
  <-> forall s v, In s pts -> EffectiveValue s = Some v -> P v.
Proof.
  rewrite Forall_forall. split.
  - intros H s v Hs Hv. apply H, effective_values_in. eauto.
  - intros H v Hv. apply effective_values_in in Hv.
    destruct Hv as (s & Hs & Hv). eauto.
Qed.

(** X7. The price range has a minimum exactly when it has a maximum,
    exactly when some located store has an effective value; both are then
    effective values of located stores, the minimum does not exceed the
    maximum, every effective value lies between them, and they are equal
    exactly when all effective values are equal. *)
Theorem priceRange_bounds_effective_values (pts : list StorePoint) :
  (range_min (priceRange pts) = None <-> effective_values pts = [])
  /\ (range_max (priceRange pts) = None <-> effective_values pts = [])
  /\ forall mn mx,
       range_min (priceRange pts) = Some mn ->
       range_max (priceRange pts) = Some mx ->
       mn <= mx
       /\ (exists s, In s pts /\ EffectiveValue s = Some mn)
       /\ (exists s, In s pts /\ EffectiveValue s = Some mx)
       /\ (forall s v, In s pts -> EffectiveValue s = Some v ->
                       mn <= v /\ v <= mx)
       /\ (mx == mn
           <-> forall s s' v v',
                 In s pts -> EffectiveValue s = Some v ->
                 In s' pts -> EffectiveValue s' = Some v' -> v == v').
Proof.
  pose proof (priceRange_spec pts) as H.
  destruct (effective_values pts) as [|p ps] eqn:E.
  - rewrite H. simpl. repeat split; try discriminate; auto.
  - destruct H as (mn & mx & -> & Hmn & Hmx & Hall). simpl.
    split; [split; discriminate |]. split; [split; discriminate |].
    intros mn' mx' [= <-] [= <-].
    rewrite <- E in *. apply effective_values_in in Hmn, Hmx.
    rewrite Forall_effective_values in Hall.
    destruct Hmn as (s0 & Hs0 & Hv0). destruct Hmx as (s1 & Hs1 & Hv1).
    split; [apply (Hall s0 mn Hs0 Hv0) |].
    split; [eauto |]. split; [eauto |]. split; [exact Hall |].
    split.
    + intros Heq s s' v v' Hs Hv Hs' Hv'.
      destruct (Hall s v Hs Hv), (Hall s' v' Hs' Hv'). lra.
    + intros Hsame. apply (Hsame s1 s0 mx mn); assumption.
Qed.

Lemma priceRange_bounds_effective_values_witness :
  1.00 <= 3.00
  /\ (exists s, In s (points example_stores) /\ EffectiveValue s = Some 1.00)
  /\ (exists s, In s (points example_stores) /\ EffectiveValue s = Some 3.00)
  /\ (forall s v, In s (points example_stores) ->
                  EffectiveValue s = Some v -> 1.00 <= v /\ v <= 3.00)
  /\ (3.00 == 1.00
      <-> forall s s' v v',
            In s (points example_stores) -> EffectiveValue s = Some v ->
            In s' (points example_stores) -> EffectiveValue s' = Some v' ->
            v == v').
Proof.
  destruct (priceRange_bounds_effective_values (points example_stores))
    as (_ & _ & H).
  apply (H 1.00 3.00); reflexivity.
Defined.

(** ** The colours of the stores on the map *)

Lemma Math_round_wd x y : x == y -> Math_round x = Math_round y.
Proof. intros H. unfold Math_round. now rewrite H. Qed.

Lemma lerpColor_price_wd t t' :
  clampT t == clampT t' ->
  lerpColor LOW_COLOR HIGH_COLOR t = lerpColor LOW_COLOR HIGH_COLOR t'.
Proof.
  intros H. rewrite !lerpColor_price.
  rewrite (Math_round_wd (46 + (231 - 46) * clampT t)
             (46 + (231 - 46) * clampT t')) by now rewrite H.
  rewrite (Math_round_wd (204 + (76 - 204) * clampT t)
             (204 + (76 - 204) * clampT t')) by now rewrite H.
  rewrite (Math_round_wd (113 + (60 - 113) * clampT t)
             (113 + (60 - 113) * clampT t')) by now rewrite H.
  reflexivity.
Qed.

(** X8. Among the stores the map itself colours (located, with the range
    taken over the located stores), a priced store gets the fallback colour
    exactly when all priced located stores have the same price.  Otherwise
    its [t] already lies in [0, 1], so the clamp changes nothing; a store
    at the minimum gets the low colour and a store at the maximum the high
    colour. *)
Theorem getPriceColor_on_map
  (sts : list StorePoint) (s : StorePoint) (v : Q) :
  In s (points sts) ->
  EffectiveValue s = Some v ->
  let range := priceRange (points sts) in
  (getPriceColor range s = FALLBACK_COLOR
   <-> forall s' v', In s' (points sts) -> EffectiveValue s' = Some v' ->
                     v' == v)
  /\ (getPriceColor range s <> FALLBACK_COLOR ->
      exists mn mx t,
        range = {| range_min := Some mn; range_max := Some mx |}
        /\ mn < mx
        /\ getPriceColor_t range s = Some t
        /\ 0 <= t /\ t <= 1 /\ clampT t == t
        /\ (v == mn -> getPriceColor range s = LOW_COLOR)
        /\ (v == mx -> getPriceColor range s = HIGH_COLOR)).
Proof.
  intros Hs Hv range.
  pose proof (priceRange_spec (points sts)) as Hr. fold range in Hr.
  destruct (effective_values (points sts)) as [|p ps] eqn:E.
  { assert (Hin : In v (effective_values (points sts)))
      by (apply effective_values_in; eauto).
    now rewrite E in Hin. }
  destruct Hr as (mn & mx & Hr & Hmn & Hmx & Hall).
  rewrite <- E in *. clear E p ps.
  rewrite Forall_effective_values in Hall.
  apply effective_values_in in Hmn, Hmx.
  destruct Hmn as (s0 & Hs0 & Hv0). destruct Hmx as (s1 & Hs1 & Hv1).
  destruct (Hall s v Hs Hv) as [Hlo Hhi].
  assert (Hcol : getPriceColor range s
                 = if Qeq_bool mx mn then FALLBACK_COLOR
                   else lerpColor LOW_COLOR HIGH_COLOR ((v - mn) / (mx - mn))).
  { unfold getPriceColor, getPriceColor_t.
    rewrite getPriceColor_basePrice_effective, Hv, Hr. simpl.
    now destruct (Qeq_bool mx mn). }
  rewrite Hcol.
  destruct (Qeq_bool mx mn) eqn:Eq.
  - apply Qeq_bool_iff in Eq. split; [| congruence].
    split; [| reflexivity]. intros _ s' v' Hs' Hv'.
    destruct (Hall s' v' Hs' Hv'). lra.
  - apply Qeq_bool_neq in Eq.
    assert (Hlt : mn < mx).
    { destruct (Hall s0 mn Hs0 Hv0). apply Qle_lteq in H0.
      destruct H0; [assumption |]. exfalso. apply Eq. now symmetry. }
    destruct (normalized_range mn mx v Hlt) as (H0 & H0' & H1 & H1').
    split.
    + split.
      * intros Hf. now apply lerpColor_price_not_fallback in Hf.
      * intros Hsame. exfalso.
        pose proof (Hsame s0 mn Hs0 Hv0). pose proof (Hsame s1 mx Hs1 Hv1).
        lra.
    + intros _. exists mn, mx, ((v - mn) / (mx - mn)).
      split; [exact Hr |]. split; [exact Hlt |].
      split.
      { unfold getPriceColor_t.
        rewrite getPriceColor_basePrice_effective, Hv, Hr. simpl.
        destruct (Qeq_bool mx mn) eqn:Eq'; [| reflexivity].
        apply Qeq_bool_iff in Eq'. contradiction. }
      split; [auto |]. split; [auto |].
      split; [apply clampT_inside; auto |].
      split.
      * intros Hmin.
        rewrite (lerpColor_price_wd _ 0); [reflexivity |].
        rewrite clampT_below by (apply H0; lra). reflexivity.
      * intros Hmax.
        rewrite (lerpColor_price_wd _ 1); [reflexivity |].
        rewrite clampT_above by (apply H1; lra). reflexivity.
Qed.

Lemma getPriceColor_on_map_witness :
  getPriceColor (priceRange (points example_stores)) store_a = "#2ecc71"
  /\ getPriceColor (priceRange (points example_stores)) store_c = "#e74c3c".
Proof.
  split.
  - destruct (getPriceColor_on_map example_stores store_a 1.00)
      as (_ & H); [simpl; tauto | reflexivity |].
    destruct H as (mn & mx & t & Hr & _ & _ & _ & _ & _ & Hlow & _);
      [discriminate |].
    injection Hr as <- <-. apply Hlow. reflexivity.
  - destruct (getPriceColor_on_map example_stores store_c 3.00)
      as (_ & H); [simpl; tauto | reflexivity |].
    destruct H as (mn & mx & t & Hr & _ & _ & _ & _ & _ & _ & Hhigh);
      [discriminate |].
    injection Hr as <- <-. apply Hhigh. reflexivity.
Defined.

(** ** [lerpColor] between any two colours *)

Lemma lerpChannel_ends (lo hi : Z) t :
  (t <= 0 -> lerpChannel (Some lo) (Some hi) t = Some lo)
  /\ (1 <= t -> lerpChannel (Some lo) (Some hi) t = Some hi).
Proof.
  unfold lerpChannel. split; intros H; f_equal.
  - rewrite (Math_round_wd _ (inject_Z lo + (1 # 2) - (1 # 2))).
    + unfold Math_round.
      rewrite <- (Qfloor_plus_half lo) at 2. apply Qfloor_comp. ring.
    + rewrite clampT_below by assumption. ring.
  - rewrite (Math_round_wd _ (inject_Z hi + (1 # 2) - (1 # 2))).
    + unfold Math_round.
      rewrite <- (Qfloor_plus_half hi) at 2. apply Qfloor_comp. ring.
    + rewrite clampT_above by assumption. ring.
Qed.

(** X9. For any two colours whose three channels read as byte values, the
    interpolated colour is again a readable colour: each channel is
    [round(start + (end - start) * clamp(t))] and lies between the two end
    values; for [t <= 0] it has the channels of the start colour and for
    [t >= 1] those of the end colour. *)
Theorem lerpColor_between_endpoints
  (startHex endHex : string) (t : Q) (sr sg sb er eg eb : Z) :
  channels startHex = Some (sr, sg, sb) ->
  channels endHex = Some (er, eg, eb) ->
  (0 <= sr < 256)%Z -> (0 <= sg < 256)%Z -> (0 <= sb < 256)%Z ->
  (0 <= er < 256)%Z -> (0 <= eg < 256)%Z -> (0 <= eb < 256)%Z ->
  exists r g b,
    channels (lerpColor startHex endHex t) = Some (r, g, b)
    /\ r = Math_round (inject_Z sr + (inject_Z er - inject_Z sr) * clampT t)
    /\ g = Math_round (inject_Z sg + (inject_Z eg - inject_Z sg) * clampT t)
    /\ b = Math_round (inject_Z sb + (inject_Z eb - inject_Z sb) * clampT t)
    /\ (Z.min sr er <= r <= Z.max sr er)%Z
    /\ (Z.min sg eg <= g <= Z.max sg eg)%Z
    /\ (Z.min sb eb <= b <= Z.max sb eb)%Z
    /\ (t <= 0 -> (r, g, b) = (sr, sg, sb))
    /\ (1 <= t -> (r, g, b) = (er, eg, eb)).
Proof.
  intros Hs He Hsr Hsg Hsb Her Heg Heb.
  unfold channels in Hs, He.
  destruct (parseInt16 (slice 0 2 (replace_first "#" startHex))) as [sr'|]
    eqn:Esr; [| discriminate].
  destruct (parseInt16 (slice 2 4 (replace_first "#" startHex))) as [sg'|]
    eqn:Esg; [| discriminate].
  destruct (parseInt16 (slice 4 6 (replace_first "#" startHex))) as [sb'|]
    eqn:Esb; [| discriminate].
  destruct (parseInt16 (slice 0 2 (replace_first "#" endHex))) as [er'|]
    eqn:Eer; [| discriminate].
  destruct (parseInt16 (slice 2 4 (replace_first "#" endHex))) as [eg'|]
    eqn:Eeg; [| discriminate].
  destruct (parseInt16 (slice 4 6 (replace_first "#" endHex))) as [eb'|]
    eqn:Eeb; [| discriminate].
  injection Hs as -> -> ->. injection He as -> -> ->.
  destruct (lerpChannel_byte sr er t Hsr Her) as (r & Er & Hr).
  destruct (lerpChannel_byte sg eg t Hsg Heg) as (g & Eg & Hg).
  destruct (lerpChannel_byte sb eb t Hsb Heb) as (b & Eb & Hb).
  exists r, g, b.
  assert (Hcol : lerpColor startHex endHex t
                 = ("#" ++ hex2 r ++ hex2 g ++ hex2 b)%string).
  { unfold lerpColor. cbv zeta.
    rewrite Esr, Esg, Esb, Eer, Eeg, Eeb, Er, Eg, Eb. reflexivity. }
  split; [rewrite Hcol; apply channels_hex2; lia |].
  split; [now injection Er |]. split; [now injection Eg |].
  split; [now injection Eb |].
  repeat (split; [assumption |]).
  destruct (lerpChannel_ends sr er t) as [Hr0 Hr1].
  destruct (lerpChannel_ends sg eg t) as [Hg0 Hg1].
  destruct (lerpChannel_ends sb eb t) as [Hb0 Hb1].
  split; intros Ht.
  - rewrite Hr0 in Er by assumption. rewrite Hg0 in Eg by assumption.
    rewrite Hb0 in Eb by assumption. congruence.
  - rewrite Hr1 in Er by assumption. rewrite Hg1 in Eg by assumption.
    rewrite Hb1 in Eb by assumption. congruence.
Qed.

Lemma lerpColor_between_endpoints_witness :
  exists r g b,
    channels (lerpColor "#000000" "FFFFFF" (1 # 4)) = Some (r, g, b)
    /\ (r, g, b) = (64, 64, 64)%Z.
Proof.
  destruct (lerpColor_between_endpoints "#000000" "FFFFFF" (1 # 4)
              0 0 0 255 255 255)
    as (r & g & b & Hc & -> & -> & -> & _);
    try reflexivity; try lia.
  exists 64%Z, 64%Z, 64%Z. split; [exact Hc | reflexivity].
Defined.

(** ** Clicking a cluster *)

Lemma inject_Z_pred z : inject_Z (z - 1) == inject_Z z - 1.
Proof. unfold Z.sub. rewrite inject_Z_plus. reflexivity. Qed.

Lemma zoom_after_snoc clicked c z :
  zoom_after (clicked ++ [c]) z = Qmin 13 (zoom_after clicked z + 2).
Proof. unfold zoom_after. now rewrite fold_left_app. Qed.

Lemma zoom_after_linear clicked z :
  z + 2 * inject_Z (Z.of_nat (List.length clicked)) <= 13 ->
  zoom_after clicked z == z + 2 * inject_Z (Z.of_nat (List.length clicked)).
Proof.
  induction clicked as [|c clicked IH] using rev_ind; intros H.
  - unfold zoom_after. simpl. ring.
  - rewrite length_app, Nat.add_1_r in *. rewrite inject_nat_succ in *.
    rewrite zoom_after_snoc.
    assert (Hn : 0 <= inject_Z (Z.of_nat (List.length clicked))).
    { change 0 with (inject_Z 0). rewrite <- Zle_Qle. lia. }
    rewrite Q.min_r; rewrite IH; lra.
Qed.

(** X10. A click on a cluster asks the map to centre on the cluster's
    centre, at a zoom that is never above 13 and never more than two levels
    above the current one.  At the zooms where clusters are drawn (below
    11) it is exactly two levels up and stays below 13, so the cap is not
    reached; from any zoom of at least 11 the request would be 13, which
    from a zoom above 13 is a zoom out. *)
Theorem ClusterMarker_click_request (z : Q) (c : Cluster) :
  view_center (ClusterMarker_handleClick z c) = (lat c, lng c)
  /\ view_zoom (ClusterMarker_handleClick z c) <= 13
  /\ view_zoom (ClusterMarker_handleClick z c) <= z + 2
  /\ (z < 11 ->
      view_zoom (ClusterMarker_handleClick z c) == z + 2
      /\ view_zoom (ClusterMarker_handleClick z c) < 13)
  /\ (11 <= z -> view_zoom (ClusterMarker_handleClick z c) == 13)
  /\ (13 < z -> view_zoom (ClusterMarker_handleClick z c) < z).
Proof.
  unfold ClusterMarker_handleClick, Math_min. simpl.
  destruct (Q.min_spec 13 (z + 2)) as [[H1 H2] | [H1 H2]];
    repeat split; intros; lra.
Qed.

Lemma ClusterMarker_click_request_witness :
  view_zoom (ClusterMarker_handleClick DEFAULT_ZOOM example_cluster) == 6
  /\ view_zoom (ClusterMarker_handleClick 12 example_cluster) == 13
  /\ view_zoom (ClusterMarker_handleClick 15 example_cluster) < 15.
Proof.
  split; [| split].
  - destruct (ClusterMarker_click_request DEFAULT_ZOOM example_cluster)
      as (_ & _ & _ & H & _).
    destruct H as [H _]; [reflexivity |]. rewrite H. reflexivity.
  - apply (ClusterMarker_click_request 12 example_cluster). discriminate.
  - apply (ClusterMarker_click_request 15 example_cluster). reflexivity.
Defined.

(** X11. From any zoom below 11, a run of cluster clicks, each honoured by
    the map, reaches the individual mode: after
    [ceil((11 - zoom) / 2)] clicks the zoom asked for is the start zoom
    plus two per click, at least 11 and below 13, and after any smaller
    number of clicks it is still below 11, where clusters are drawn. *)
Theorem cluster_clicks_reach_individual_mode
  (z : Q) (clicked : list Cluster) :
  z < 11 ->
  List.length clicked = clicks_to_individual z ->
  zoom_after clicked z
  == z + 2 * inject_Z (Z.of_nat (List.length clicked))
  /\ 11 <= zoom_after clicked z
  /\ zoom_after clicked z < 13
  /\ (0 < List.length clicked)%nat
  /\ forall k, (k < List.length clicked)%nat ->
               zoom_after (firstn k clicked) z < 11.
Proof.
  intros Hz Hlen. unfold clicks_to_individual in Hlen.
  set (q := (11 - z) / 2) in *.
  assert (Hq : 0 < q) by (unfold q; apply Qlt_shift_div_l; lra).
  pose proof (Qle_ceiling q) as Hc1.
  pose proof (Qceiling_lt q) as Hc2.
  assert (Hcpos : (0 < Qceiling q)%Z).
  { rewrite Zlt_Qlt. change (inject_Z 0) with 0. lra. }
  assert (Hn : inject_Z (Z.of_nat (List.length clicked))
               = inject_Z (Qceiling q)).
  { rewrite Hlen, Z2Nat.id by lia. reflexivity. }
  assert (Hz2 : z + 2 * q == 11) by (unfold q; field).
  rewrite inject_Z_pred in Hc2.
  assert (Hlin : zoom_after clicked z
                 == z + 2 * inject_Z (Z.of_nat (List.length clicked))).
  { apply zoom_after_linear. rewrite Hn. lra. }
  split; [exact Hlin |].
  rewrite Hlin, Hn.
  split; [lra |]. split; [lra |].
  split; [rewrite Hlen; lia |].
  intros k Hk.
  assert (Hkn : inject_Z (Z.of_nat k) <= inject_Z (Qceiling q) - 1).
  { rewrite <- Hn.
    rewrite <- inject_Z_pred, <- Zle_Qle. lia. }
  assert (Hfl : List.length (firstn k clicked) = k)
    by (apply firstn_length_le; lia).
  rewrite zoom_after_linear; rewrite Hfl; lra.
Qed.

Lemma cluster_clicks_reach_individual_mode_witness :
  zoom_after
    [example_cluster; example_cluster; example_cluster; example_cluster]
    DEFAULT_ZOOM == 12.
Proof.
  destruct (cluster_clicks_reach_individual_mode DEFAULT_ZOOM
              [example_cluster; example_cluster; example_cluster;
               example_cluster]) as (H & _).
  - reflexivity.
  - reflexivity.
  - rewrite H. reflexivity.
Defined.

(** ** The clusters: counts, members and place *)

Lemma flat_map_stores_length (cs : list Cluster) :
  List.length (flat_map stores cs) = list_sum (map ClusterMarker_count cs).
Proof.
  induction cs as [|c cs IH]; simpl; [reflexivity |].
  now rewrite length_app, IH.
Qed.

Lemma list_sum_at_least (ns : list nat) :
  Forall (fun n => (1 <= n)%nat) ns -> (List.length ns <= list_sum ns)%nat.
Proof. induction 1; simpl; lia. Qed.

Lemma Qle_bool_false x y : Qle_bool x y = false <-> y < x.
Proof.
  split.
  - intros H. apply Qnot_le_lt. rewrite <- Qle_bool_iff. congruence.
  - intros H. destruct (Qle_bool x y) eqn:E; [| reflexivity].
    apply Qle_bool_iff in E. lra.
Qed.

(** X12. In clustered mode the numbers on the cluster icons add up to the
    number of located stores, every cluster counts at least one store, and
    there are at most as many clusters as located stores; in individual
    mode there is one marker for each located store. *)
Theorem cluster_counts_add_up (sts : list StorePoint) (zoom : Q) :
  (zoom < 11 ->
   list_sum (map ClusterMarker_count (clusters (PriceMap_classify sts zoom)))
   = List.length (points sts)
   /\ Forall (fun c => (1 <= ClusterMarker_count c)%nat)
        (clusters (PriceMap_classify sts zoom))
   /\ (List.length (clusters (PriceMap_classify sts zoom))
       <= List.length (points sts))%nat
   /\ individualPoints (PriceMap_classify sts zoom) = [])
  /\ (11 <= zoom ->
      List.length (individualPoints (PriceMap_classify sts zoom))
      = List.length (points sts)
      /\ clusters (PriceMap_classify sts zoom) = []).
Proof.
  unfold PriceMap_classify. split.
  - intros Hz. apply Qle_bool_false in Hz.
    pose proof (classify_shown (points sts) zoom) as HP.
    apply Permutation_length in HP. unfold shown in HP.
    assert (Hind : individualPoints (classify (points sts) zoom) = []).
    { unfold classify. rewrite Hz. now destruct (_ =? _)%nat. }
    rewrite Hind, app_nil_r, flat_map_stores_length in HP.
    assert (Hone : Forall (fun c => (1 <= ClusterMarker_count c)%nat)
                     (clusters (classify (points sts) zoom))).
    { unfold classify. rewrite Hz.
      destruct (_ =? _)%nat; [constructor |]. simpl.
      eapply Forall_impl; [| apply clusterMapOf_centroid].
      intros c (Hne & _). unfold ClusterMarker_count.
      destruct (stores c); [congruence | simpl; lia]. }
    split; [exact HP |]. split; [exact Hone |]. split; [| exact Hind].
    rewrite <- HP, <- (length_map ClusterMarker_count).
    apply list_sum_at_least. now apply Forall_map.
  - intros Hz. apply Qle_bool_iff in Hz.
    rewrite classify_individual by assumption. now split.
Qed.

Lemma cluster_counts_add_up_witness :
  list_sum (map ClusterMarker_count
              (clusters (PriceMap_classify example_stores 3))) = 3%nat
  /\ List.length (individualPoints (PriceMap_classify example_stores 12))
     = 3%nat.
Proof.
  destruct (cluster_counts_add_up example_stores 3) as [H _].
  destruct (cluster_counts_add_up example_stores 12) as [_ H'].
  split.
  - destruct H as [H _]; [reflexivity |]. rewrite H. reflexivity.
  - destruct H' as [H' _]; [discriminate |]. rewrite H'. reflexivity.
Defined.

Lemma existsb_eqb_in x (l : list string) :
  existsb (String.eqb x) l = true <-> In x l.
Proof.
  rewrite existsb_exists. split.
  - intros (y & Hy & E). apply String.eqb_eq in E. now subst.
  - intros H. exists x. split; [assumption | apply String.eqb_refl].
Qed.

Lemma Set_add_present_key {V : Type} k (m : list (string * V)) c :
  Map_get String.eqb k m = Some c -> Set_add k (map fst m) = map fst m.
Proof.
  intros H. unfold Set_add.
  assert (E : existsb (String.eqb k) (map fst m) = true).
  { apply existsb_eqb_in. destruct (in_dec string_dec k (map fst m)); auto.
    apply Map_get_none_keys in n. congruence. }
  now rewrite E.
Qed.

Lemma Set_add_absent_key {V : Type} k (m : list (string * V)) :
  Map_get String.eqb k m = None -> Set_add k (map fst m) = map fst m ++ [k].
Proof.
  intros H. unfold Set_add.
  destruct (existsb (String.eqb k) (map fst m)) eqn:E; [| reflexivity].
  apply existsb_eqb_in in E. now apply Map_get_none_keys in H.
Qed.

Lemma fold_Set_add_snoc ks k :
  fold_left (fun set x => Set_add x set) (ks ++ [k]) []
  = Set_add k (fold_left (fun set x => Set_add x set) ks []).
Proof. now rewrite fold_left_app. Qed.

(** The keys of the cluster map are the cell keys of the stores, each at
    its first appearance, and each cluster starts with a store of its
    key. *)
Lemma clusterMapOf_key_order g pts :
  map fst (clusterMapOf g pts)
  = fold_left (fun set x => Set_add x set) (map (cellKey g) pts) []
  /\ forall k c, In (k, c) (clusterMapOf g pts) ->
                 option_map (cellKey g) (hd_error (stores c)) = Some k.
Proof.
  apply (clusterMapOf_invariant g
           (fun m pre =>
              map fst m
              = fold_left (fun set x => Set_add x set) (map (cellKey g) pre) []
              /\ forall k c, In (k, c) m ->
                   option_map (cellKey g) (hd_error (stores c)) = Some k)).
  - split; [reflexivity | intros k c []].
  - intros m pre s [Hkeys Hhd].
    rewrite map_app. simpl map. rewrite fold_Set_add_snoc, <- Hkeys.
    unfold addStore.
    destruct (Map_get String.eqb (cellKey g s) m) as [c|] eqn:E.
    + split.
      * rewrite (Map_set_keys _ _ c) by assumption.
        symmetry. now apply Set_add_present_key with (c := c).
      * intros k c' Hin. apply Map_set_in in Hin.
        destruct Hin as [Heq | Hin]; [| now apply Hhd].
        injection Heq as Hk Hc. subst k c'.
        simpl. pose proof (Hhd _ _ (Map_get_in _ _ _ E)) as H.
        destruct (stores c); [discriminate | exact H].
    + split.
      * rewrite Map_set_absent by assumption.
        rewrite map_app. simpl. symmetry. now apply Set_add_absent_key.
      * intros k c' Hin. apply Map_set_in in Hin.
        destruct Hin as [Heq | Hin]; [| now apply Hhd].
        injection Heq as Hk Hc. now subst k c'.
Qed.

(** X13. In clustered mode the members of a cluster are exactly the
    located stores of one grid cell, in the order of the input; no two
    clusters belong to the same cell; and the clusters come in the order
    in which their cells first appear among the located stores. *)
Theorem clusters_follow_input_order (sts : list StorePoint) (zoom : Q) :
  zoom < 11 ->
  let g := gridSize zoom in
  let cs := clusters (PriceMap_classify sts zoom) in
  (forall c, In c cs ->
             exists s0, hd_error (stores c) = Some s0
                        /\ stores c = cell_members g (cellKey g s0) (points sts))
  /\ (forall c c' s s',
         In c cs -> In c' cs -> In s (stores c) -> In s' (stores c') ->
         cellKey g s = cellKey g s' -> c = c')
  /\ map (fun c => option_map (cellKey g) (hd_error (stores c))) cs
     = map Some
         (fold_left (fun set x => Set_add x set)
            (map (cellKey g) (points sts)) []).
Proof.
  intros Hz g cs.
  assert (Hcs : forall c, In c cs
                          <-> In c (Map_values (clusterMapOf g (points sts))))
    by (intros c; now apply clusters_clustered).
  destruct (clusterMapOf_key_order g (points sts)) as [Hkeys Hhd].
  assert (Hkey : forall c k s,
             Map_get String.eqb k (clusterMapOf g (points sts)) = Some c ->
             stores c = cell_members g k (points sts) ->
             In s (stores c) -> cellKey g s = k).
  { intros c k s _ Hst Hin. rewrite Hst in Hin.
    apply filter_In in Hin. destruct Hin as [_ Hin].
    now apply String.eqb_eq in Hin. }
  split; [| split].
  - intros c Hc. apply Hcs in Hc.
    destruct (clusterMapOf_cluster _ _ _ Hc) as (k & Hget & Hst & Hne).
    pose proof (Hhd _ _ (Map_get_in _ _ _ Hget)) as H.
    destruct (stores c) as [|s0 rest] eqn:Es; [discriminate |].
    exists s0. split; [reflexivity |].
    simpl in H. injection H as H. now rewrite H.
  - intros c c' s s' Hc Hc' Hs Hs' E. apply Hcs in Hc, Hc'.
    destruct (clusterMapOf_cluster _ _ _ Hc) as (k & Hget & Hst & _).
    destruct (clusterMapOf_cluster _ _ _ Hc') as (k' & Hget' & Hst' & _).
    assert (Ek : cellKey g s = k) by (apply (Hkey c); assumption).
    assert (Ek' : cellKey g s' = k') by (apply (Hkey c'); assumption).
    congruence.
  - rewrite <- Hkeys.
    replace cs with (Map_values (clusterMapOf g (points sts))).
    + unfold Map_values. rewrite !map_map. apply map_ext_in.
      intros [k c] Hin. simpl. now apply Hhd.
    + subst cs. unfold PriceMap_classify, classify.
      apply Qle_bool_false in Hz. rewrite Hz.
      destruct (points sts); reflexivity.
Qed.

Lemma clusters_follow_input_order_witness :
  map (fun c => map location_id (stores c))
    (clusters (PriceMap_classify example_stores 3))
  = [["a"; "b"]; ["c"]]
  /\ map (fun c => option_map (cellKey 6) (hd_error (stores c)))
       (clusters (PriceMap_classify example_stores 3))
     = [Some "42.00_-72.00"; Some "42.00_-102.00"].
Proof.
  destruct (clusters_follow_input_order example_stores 3) as (_ & _ & H);
    [reflexivity |].
  split; [reflexivity |].
  change (gridSize 3) with 6 in H. rewrite H. reflexivity.
Defined.

Lemma gridSize_pos zoom : 0 < gridSize zoom.
Proof.
  destruct (gridSize_cases zoom) as [[_ ->] | [(_ & _ & ->) | [_ ->]]];
    reflexivity.
Qed.

(** A coordinate lies in the half-open cell around its grid anchor. *)
Lemma gridIndex_cell g x :
  0 < g ->
  inject_Z (gridIndex g x) * g - g / 2 <= x
  /\ x < inject_Z (gridIndex g x) * g + g / 2.
Proof.
  intros Hg. unfold gridIndex.
  destruct (Math_round_nearest (x / g)) as [H1 H2].
  set (i := inject_Z (Math_round (x / g))) in *.
  assert (Hx : x / g * g == x) by (field; lra).
  assert (Hh : g / 2 == (1 # 2) * g) by (field; lra).
  rewrite Hh. split.
  - apply Qle_trans with ((i - (1 # 2)) * g); [ring_simplify; lra |].
    apply Qle_trans with (x / g * g); [| lra].
    apply Qmult_le_compat_r; lra.
  - apply Qlt_le_trans with ((i + (1 # 2)) * g); [| ring_simplify; lra].
    apply Qle_lt_trans with (x / g * g); [lra |].
    apply Qmult_lt_compat_r; lra.
Qed.

(** Conversely a number in the cell of index [i] has grid index [i]. *)
Lemma gridIndex_of_cell g x (i : Z) :
  0 < g ->
  inject_Z i * g - g / 2 <= x -> x < inject_Z i * g + g / 2 ->
  gridIndex g x = i.
Proof.
  intros Hg Hlo Hhi. unfold gridIndex, Math_round.
  assert (Hx : x / g * g == x) by (field; lra).
  assert (H1 : inject_Z i <= x / g + (1 # 2)).
  { apply Qmult_le_r with (z := g); [assumption |].
    setoid_replace ((x / g + (1 # 2)) * g) with (x / g * g + g / 2)
      by (field; lra).
    rewrite Hx. lra. }
  assert (H2 : x / g + (1 # 2) < inject_Z i + 1).
  { apply Qmult_lt_r with (z := g); [assumption |].
    setoid_replace ((x / g + (1 # 2)) * g) with (x / g * g + g / 2)
      by (field; lra).
    rewrite Hx.
    setoid_replace ((inject_Z i + 1) * g) with (inject_Z i * g + g) by ring.
    assert (g / 2 + g / 2 == g) by (field; lra). lra. }
  pose proof (Qfloor_le (x / g + (1 # 2))) as F1.
  pose proof (Qlt_floor (x / g + (1 # 2))) as F2.
  set (f := Qfloor (x / g + (1 # 2))) in *.
  rewrite inject_Z_plus in F2. change (inject_Z 1) with 1 in F2.
  assert (A : inject_Z f < inject_Z (i + 1)).
  { rewrite inject_Z_plus. change (inject_Z 1) with 1. lra. }
  assert (B : inject_Z i < inject_Z (f + 1)).
  { rewrite inject_Z_plus. change (inject_Z 1) with 1. lra. }
  rewrite <- Zlt_Qlt in A, B. lia.
Qed.

(** The mean of numbers of a half-open interval lies in the interval. *)
Lemma sumQ_bounds a b xs :
  Forall (fun x => a <= x /\ x < b) xs ->
  inject_Z (Z.of_nat (List.length xs)) * a <= sumQ xs
  /\ sumQ xs <= inject_Z (Z.of_nat (List.length xs)) * b
  /\ (xs <> [] -> sumQ xs < inject_Z (Z.of_nat (List.length xs)) * b).
Proof.
  induction 1 as [|x xs [Hlo Hhi] _ (IH1 & IH2 & _)].
  - cbn [List.length sumQ fold_right].
    change (inject_Z (Z.of_nat 0)) with 0.
    split; [lra |]. split; [lra |]. intros Hne. now elim Hne.
  - cbn [List.length sumQ fold_right]. fold (sumQ xs).
    rewrite inject_nat_succ.
    set (n := inject_Z (Z.of_nat (List.length xs))) in *.
    repeat split; intros; lra.
Qed.

Lemma arithmetic_mean_in_interval a b xs :
  xs <> [] ->
  Forall (fun x => a <= x /\ x < b) xs ->
  a <= arithmetic_mean xs /\ arithmetic_mean xs < b.
Proof.
  intros Hne H. destruct (sumQ_bounds a b xs H) as (H1 & _ & H3).
  specialize (H3 Hne). unfold arithmetic_mean.
  assert (Hn : 0 < inject_Z (Z.of_nat (List.length xs))).
  { apply inject_nat_pos. destruct xs; [congruence | simpl; lia]. }
  split.
  - apply Qle_shift_div_l; [assumption | lra].
  - apply Qlt_shift_div_r; [assumption | lra].
Qed.

(** X14. In clustered mode the members of a cluster all round to one grid
    index in latitude and one in longitude, each member lies in the
    half-open cell of side [gridSize] around the grid anchor, and so does
    the centre of the cluster: the centre rounds to the grid index of its
    members. *)
Theorem cluster_centre_in_its_cell
  (sts : list StorePoint) (zoom : Q) (c : Cluster) :
  zoom < 11 ->
  In c (clusters (PriceMap_classify sts zoom)) ->
  let g := gridSize zoom in
  exists i j : Z,
    (forall s, In s (stores c) ->
       gridIndex g (as_number (latitude s)) = i
       /\ gridIndex g (as_number (longitude s)) = j)
    /\ inject_Z i * g - g / 2 <= lat c /\ lat c < inject_Z i * g + g / 2
    /\ inject_Z j * g - g / 2 <= lng c /\ lng c < inject_Z j * g + g / 2
    /\ gridIndex g (lat c) = i /\ gridIndex g (lng c) = j.
Proof.
  intros Hz Hc g. unfold PriceMap_classify in Hc.
  apply clusters_clustered in Hc; [| assumption]. fold g in Hc.
  pose proof (clusterMapOf_centroid g (points sts)) as Hmean.
  rewrite Forall_forall in Hmean.
  destruct (Hmean c Hc) as (Hne & Hlat & Hlng).
  destruct (clusterMapOf_cluster _ _ _ Hc) as (k & _ & Hst & _).
  destruct (stores c) as [|s0 rest] eqn:Es; [congruence |].
  set (i := gridIndex g (as_number (latitude s0))).
  set (j := gridIndex g (as_number (longitude s0))).
  assert (Hidx : forall s, In s (s0 :: rest) ->
             gridIndex g (as_number (latitude s)) = i
             /\ gridIndex g (as_number (longitude s)) = j).
  { intros s Hs.
    assert (Hk : forall s', In s' (s0 :: rest) -> cellKey g s' = k).
    { intros s' Hs'. rewrite Hst in Hs'. apply filter_In in Hs'.
      destruct Hs' as [_ Hs']. now apply String.eqb_eq in Hs'. }
    assert (E : cellKey g s = cellKey g s0)
      by (rewrite !Hk; auto; now left).
    now apply cellKey_same_cell in E. }
  pose proof (gridSize_pos zoom) as Hg. fold g in Hg.
  assert (Hlats : Forall (fun x => inject_Z i * g - g / 2 <= x
                                   /\ x < inject_Z i * g + g / 2)
                    (member_lats c)).
  { unfold member_lats. rewrite Es. apply Forall_map, Forall_forall.
    intros s Hs. destruct (Hidx s Hs) as [<- _].
    now apply gridIndex_cell. }
  assert (Hlngs : Forall (fun x => inject_Z j * g - g / 2 <= x
                                   /\ x < inject_Z j * g + g / 2)
                    (member_lngs c)).
  { unfold member_lngs. rewrite Es. apply Forall_map, Forall_forall.
    intros s Hs. destruct (Hidx s Hs) as [_ <-].
    now apply gridIndex_cell. }
  apply arithmetic_mean_in_interval in Hlats, Hlngs;
    try (unfold member_lats, member_lngs; rewrite Es; discriminate).
  rewrite <- Hlat in Hlats. rewrite <- Hlng in Hlngs.
  destruct Hlats as [A1 A2]. destruct Hlngs as [B1 B2].
  exists i, j. split; [exact Hidx |].
  repeat (split; [assumption |]).
  split; now apply gridIndex_of_cell.
Qed.

Lemma cluster_centre_in_its_cell_witness :
  exists i j : Z,
    (forall s, In s (stores example_cluster) ->
       gridIndex 6 (as_number (latitude s)) = i
       /\ gridIndex 6 (as_number (longitude s)) = j)
    /\ inject_Z i * 6 - 6 / 2 <= lat example_cluster
    /\ lat example_cluster < inject_Z i * 6 + 6 / 2
    /\ inject_Z j * 6 - 6 / 2 <= lng example_cluster
    /\ lng example_cluster < inject_Z j * 6 + 6 / 2
    /\ gridIndex 6 (lat example_cluster) = i
    /\ gridIndex 6 (lng example_cluster) = j.
Proof.
  apply (cluster_centre_in_its_cell example_stores 3 example_cluster).
  - reflexivity.
  - vm_compute. left. reflexivity.
Defined.

(** ** The price statistics: order and counts *)

Lemma count_at_most_sorted l i x :
  StronglySorted Qle l -> (i < List.length l)%nat -> nth i l 0 <= x ->
  (i + 1 <= count_at_most x l)%nat.
Proof.
  unfold count_at_most. intros Hs. revert i.
  induction Hs as [|a l Hs IH Ha]; intros i Hi Hx; simpl in Hi; [lia |].
  assert (Hax : Qle_bool a x = true).
  { apply Qle_bool_iff. destruct i as [|i]; simpl in Hx; [exact Hx |].
    rewrite Forall_forall in Ha.
    apply Qle_trans with (nth i l 0); [apply Ha, nth_In; lia | exact Hx]. }
  cbn [filter]. rewrite Hax. cbn [List.length].
  destruct i as [|i]; [lia |].
  simpl in Hx. specialize (IH i ltac:(lia) Hx). lia.
Qed.

Lemma filter_all {A : Type} (f : A -> bool) l :
  Forall (fun v => f v = true) l -> filter f l = l.
Proof.
  induction 1 as [|a l Ha _ IH]; simpl; [reflexivity |].
  now rewrite Ha, IH.
Qed.

Lemma count_at_least_sorted l i x :
  StronglySorted Qle l -> (i < List.length l)%nat -> x <= nth i l 0 ->
  (List.length l - i <= count_at_least x l)%nat.
Proof.
  unfold count_at_least. intros Hs. revert i.
  induction Hs as [|a l Hs IH Ha]; intros i Hi Hx; simpl in Hi; [lia |].
  destruct i as [|i]; simpl in Hx.
  - assert (Hall : Forall (fun v => Qle_bool x v = true) (a :: l)).
    { constructor; [now apply Qle_bool_iff |].
      eapply Forall_impl; [| exact Ha].
      intros v Hv. apply Qle_bool_iff. now apply Qle_trans with a. }
    rewrite (filter_all (fun v => Qle_bool x v) (a :: l) Hall). lia.
  - specialize (IH i ltac:(lia) Hx). cbn [filter List.length].
    destruct (Qle_bool x a); cbn [List.length]; lia.
Qed.

(** X15. Whenever there are statistics, the minimum and the maximum are
    rounded prices of stores and the median lies between them; and the
    median splits the rounded prices in two halves: at least half of the
    priced stores have a rounded price that does not exceed the median, and
    at least half have one that is not below it.  For an odd number of
    priced stores the median is itself the rounded price of a store. *)
Theorem priceStats_ordered
  (sel : string) (sts : list StorePoint) (st : PriceStats) :
  priceStats sel sts = Some st ->
  stats_min st <= stats_median st /\ stats_median st <= stats_max st
  /\ stats_min st <= stats_max st
  /\ In (stats_min st) (rounded_values sts)
  /\ In (stats_max st) (rounded_values sts)
  /\ (stats_count st
      <= 2 * count_at_most (stats_median st) (rounded_values sts))%nat
  /\ (stats_count st
      <= 2 * count_at_least (stats_median st) (rounded_values sts))%nat
  /\ ((stats_count st mod 2 = 1)%nat ->
      In (stats_median st) (rounded_values sts)).
Proof.
  intros Hst. apply priceStats_some in Hst. destruct Hst as [Hne ->].
  set (rv := rounded_values sts) in *.
  set (values := sort Qle_bool rv).
  assert (Hperm : Permutation values rv) by apply sort_permutation.
  assert (Hsorted : StronglySorted Qle values) by apply sort_values_sorted.
  assert (Hlen : List.length values = List.length rv) by apply sort_length.
  assert (Hpos : (0 < List.length values)%nat).
  { rewrite Hlen. destruct rv; [congruence | simpl; lia]. }
  set (n := List.length values) in *.
  assert (Hnth : forall i, (i < n)%nat ->
             nth 0 values 0 <= nth i values 0
             /\ nth i values 0 <= nth (n - 1) values 0).
  { intros i Hi. split; apply sorted_nth_le; auto; lia. }
  assert (Hin : forall i, (i < n)%nat -> In (nth i values 0) rv).
  { intros i Hi. apply (Permutation_in _ Hperm). now apply nth_In. }
  assert (Hmost : forall x, count_at_most x rv = count_at_most x values).
  { intros x. unfold count_at_most. apply Permutation_length.
    apply filter_permutation. now apply Permutation_sym. }
  assert (Hleast : forall x, count_at_least x rv = count_at_least x values).
  { intros x. unfold count_at_least. apply Permutation_length.
    apply filter_permutation. now apply Permutation_sym. }
  assert (Hmin : stats_min (priceStats_summary rv (countsMap_of rv))
                 = nth 0 values 0) by reflexivity.
  assert (Hmax : stats_max (priceStats_summary rv (countsMap_of rv))
                 = nth (n - 1) values 0) by reflexivity.
  assert (Hcount : stats_count (priceStats_summary rv (countsMap_of rv)) = n)
    by reflexivity.
  assert (Hmed : stats_median (priceStats_summary rv (countsMap_of rv))
                 = if (n mod 2 =? 1)%nat then nth (n / 2) values 0
                   else (nth (n / 2 - 1) values 0 + nth (n / 2) values 0) / 2)
    by reflexivity.
  assert (Hhalf : (n / 2 < n)%nat) by (apply Nat.div_lt; lia).
  pose proof (Nat.div_mod_eq n 2) as Hdiv.
  pose proof (Nat.mod_upper_bound n 2 ltac:(lia)) as Hmod.
  rewrite Hmin, Hmax, Hcount, Hmed, !Hmost, !Hleast.
  destruct (Nat.eqb_spec (n mod 2) 1) as [Hodd | Heven].
  - pose proof (count_at_most_sorted values (n / 2) (nth (n / 2) values 0)
                  Hsorted Hhalf ltac:(apply Qle_refl)) as M.
    pose proof (count_at_least_sorted values (n / 2) (nth (n / 2) values 0)
                  Hsorted Hhalf ltac:(apply Qle_refl)) as L.
    fold n in L.
    split; [now apply Hnth |]. split; [now apply Hnth |].
    split; [now apply (Hnth 0%nat) |].
    split; [now apply Hin |]. split; [apply Hin; lia |].
    split; [lia |]. split; [lia |].
    intros _. now apply Hin.
  - assert (Hlow : (n / 2 - 1 < n)%nat) by lia.
    destruct (Hnth (n / 2)%nat Hhalf) as [A1 A2].
    destruct (Hnth (n / 2 - 1)%nat Hlow) as [B1 B2].
    assert (Hxy : nth (n / 2 - 1) values 0 <= nth (n / 2) values 0)
      by (apply sorted_nth_le; auto; lia).
    set (x := nth (n / 2 - 1) values 0) in *.
    set (y := nth (n / 2) values 0) in *.
    assert (E : (x + y) / 2 == (1 # 2) * (x + y)) by (field; lra).
    assert (Hx : x <= (x + y) / 2) by (rewrite E; lra).
    assert (Hy : (x + y) / 2 <= y) by (rewrite E; lra).
    pose proof (count_at_most_sorted values (n / 2 - 1) ((x + y) / 2)
                  Hsorted Hlow Hx) as M.
    pose proof (count_at_least_sorted values (n / 2) ((x + y) / 2)
                  Hsorted Hhalf Hy) as L.
    fold n in L.
    split; [lra |]. split; [lra |].
    split; [now apply (Hnth 0%nat) |].
    split; [now apply Hin |]. split; [apply Hin; lia |].
    split; [lia |]. split; [lia |].
    intros Hodd. contradiction.
Qed.

Lemma priceStats_ordered_witness :
  stats_min located_stats <= stats_median located_stats
  /\ stats_median located_stats <= stats_max located_stats
  /\ stats_min located_stats <= stats_max located_stats
  /\ In (stats_min located_stats) (rounded_values located_scope)
  /\ In (stats_max located_stats) (rounded_values located_scope)
  /\ (stats_count located_stats
      <= 2 * count_at_most (stats_median located_stats)
             (rounded_values located_scope))%nat
  /\ (stats_count located_stats
      <= 2 * count_at_least (stats_median located_stats)
             (rounded_values located_scope))%nat
  /\ ((stats_count located_stats mod 2 = 1)%nat ->
      In (stats_median located_stats) (rounded_values located_scope)).
Proof.
  apply (priceStats_ordered "0001111041700" located_scope located_stats).
  reflexivity.
Defined.

Lemma list_sum_permutation l l' :
  Permutation l l' -> list_sum l = list_sum l'.
Proof. induction 1; simpl; lia. Qed.

Lemma Map_set_number_sum k (v : nat) m :
  (list_sum (map snd (Map_set Qeq_bool k v m))
   + match Map_get Qeq_bool k m with Some c => c | None => 0 end
   = list_sum (map snd m) + v)%nat.
Proof.
  induction m as [|[k' c'] m IH]; simpl.
  - lia.
  - destruct (Qeq_bool k k'); simpl; lia.
Qed.

Lemma countsMap_of_sum ps :
  list_sum (map snd (countsMap_of ps)) = List.length ps.
Proof.
  apply (countsMap_of_invariant
           (fun m pre => list_sum (map snd m) = List.length pre)).
  - reflexivity.
  - intros m pre x IH. unfold countsMap_add.
    pose proof (Map_set_number_sum x
                  (match Map_get Qeq_bool x m with
                   | Some c => c
                   | None => 0
                   end + 1) m) as H.
    rewrite length_app. simpl. lia.
Qed.

(** X16. Whenever there are statistics, the counts of the buckets of the
    distribution add up to the count of the statistics, the number of
    stores with a price: every priced store is in exactly one bucket. *)
Theorem distribution_counts_add_up
  (sel : string) (sts : list StorePoint) (st : PriceStats) :
  priceStats sel sts = Some st ->
  list_sum (map count (distribution st)) = stats_count st
  /\ stats_count st = List.length (effective_values sts)
  /\ (List.length (distribution st) <= stats_count st)%nat.
Proof.
  intros Hst. apply priceStats_some in Hst. destruct Hst as [Hne ->].
  set (rv := rounded_values sts) in *.
  assert (Hcount : stats_count (priceStats_summary rv (countsMap_of rv))
                   = List.length rv).
  { change (stats_count (priceStats_summary rv (countsMap_of rv)))
      with (List.length (sort Qle_bool rv)). apply sort_length. }
  assert (Hsum : list_sum
                   (map count
                      (distribution (priceStats_summary rv (countsMap_of rv))))
                 = List.length rv).
  { change (distribution (priceStats_summary rv (countsMap_of rv)))
      with (distribution_of rv).
    rewrite (list_sum_permutation _ _
               (Permutation_map count (distribution_permutation rv))).
    rewrite map_map. simpl. apply countsMap_of_sum. }
  rewrite Hcount, Hsum.
  split; [reflexivity |].
  split; [unfold rv, rounded_values; apply length_map |].
  rewrite <- Hsum, <- (length_map count).
  apply list_sum_at_least. apply Forall_map, Forall_forall.
  intros b Hb. now apply distribution_count in Hb.
Qed.

Lemma distribution_counts_add_up_witness :
  list_sum (map count (distribution located_stats)) = 3%nat.
Proof.
  destruct (distribution_counts_add_up "0001111041700" located_scope
              located_stats) as (H & _); [reflexivity |].
  rewrite H. reflexivity.
Defined.

(** ** The markers on the gradient bar *)

Lemma occurrences_positive p vs :
  (0 < occurrences p vs)%nat -> exists v, In v vs /\ p == v.
Proof.
  unfold occurrences. intros H.
  destruct (filter (Qeq_bool p) vs) as [|v l] eqn:E; [simpl in H; lia |].
  assert (Hin : In v (filter (Qeq_bool p) vs)) by (rewrite E; now left).
  apply filter_In in Hin. destruct Hin as [Hin Hv].
  exists v. split; [assumption | now apply Qeq_bool_iff].
Qed.

(** The price of a bucket is one of the rounded values. *)
Lemma distribution_price ps b :
  In b (distribution_of ps) -> exists v, In v ps /\ price b == v.
Proof.
  intros Hb. apply distribution_count in Hb. destruct Hb as [Hc Hpos].
  apply occurrences_positive. now rewrite <- Hc.
Qed.

Lemma strictly_sorted_single (bs : list Bucket) :
  StronglySorted (fun a b => price a < price b) bs ->
  (forall a b, In a bs -> In b bs -> price a == price b) ->
  (List.length bs <= 1)%nat.
Proof.
  intros Hs Hsame. destruct bs as [|a [|b bs]]; simpl; try lia.
  apply StronglySorted_inv in Hs. destruct Hs as [_ Ha].
  inversion Ha as [|? ? Hab _]; subst.
  specialize (Hsame a b (or_introl eq_refl) (or_intror (or_introl eq_refl))).
  lra.
Qed.

(** X17. Whenever there are statistics with different minimum and maximum,
    every bucket has a marker, at
    [(price - min) / (max - min)] of the bar without any clamping, between
    0 and 100 percent; a bucket with a higher price sits strictly further
    right; some bucket sits at 0 and some at 100.  When the minimum equals
    the maximum there is a single bucket and it has no marker. *)
Theorem markers_spread_over_the_bar
  (sel : string) (sts : list StorePoint) (st : PriceStats) :
  priceStats sel sts = Some st ->
  (~ stats_max st == stats_min st ->
   (forall b, In b (distribution st) ->
      exists p,
        markerPosition st b = Some p
        /\ p == (price b - stats_min st)
                / (stats_max st - stats_min st) * 100
        /\ 0 <= p /\ p <= 100)
   /\ (forall b b' p p',
         In b (distribution st) -> In b' (distribution st) ->
         markerPosition st b = Some p -> markerPosition st b' = Some p' ->
         price b < price b' -> p < p')
   /\ (exists b p, In b (distribution st)
                   /\ markerPosition st b = Some p /\ p == 0)
   /\ (exists b p, In b (distribution st)
                   /\ markerPosition st b = Some p /\ p == 100))
  /\ (stats_max st == stats_min st ->
      List.length (distribution st) = 1%nat
      /\ forall b, markerPosition st b = None).
Proof.
  intros Hst. apply priceStats_some in Hst. destruct Hst as [Hne Hsum].
  set (rv := rounded_values sts) in *.
  pose proof (priceStats_summary_bounds rv (countsMap_of rv) Hne) as Hb.
  cbv zeta in Hb. rewrite <- Hsum in Hb. destruct Hb as (Hmin & Hmax & Hall).
  rewrite Forall_forall in Hall.
  assert (Hdist : distribution st = distribution_of rv)
    by (rewrite Hsum; reflexivity).
  assert (Hprice : forall b, In b (distribution st) ->
             stats_min st <= price b /\ price b <= stats_max st).
  { intros b Hin. rewrite Hdist in Hin.
    apply distribution_price in Hin. destruct Hin as (v & Hv & E).
    rewrite E. now apply Hall. }
  set (mn := stats_min st) in *. set (mx := stats_max st) in *.
  split.
  - intros Hneq.
    assert (Hlt : mn < mx).
    { destruct (Hall mn Hmin) as [_ H]. apply Qle_lteq in H.
      destruct H; [assumption |]. exfalso. apply Hneq. now symmetry. }
    assert (Hpos : forall b,
               markerPosition st b
               = Some (clampT ((price b - mn) / (mx - mn)) * 100)).
    { intros b. rewrite markerPosition_unfold. fold mn mx.
      destruct (Qeq_bool mx mn) eqn:E; [| reflexivity].
      apply Qeq_bool_iff in E. contradiction. }
    assert (Hin : forall b, In b (distribution st) ->
               clampT ((price b - mn) / (mx - mn))
               == (price b - mn) / (mx - mn)
               /\ 0 <= (price b - mn) / (mx - mn)
               /\ (price b - mn) / (mx - mn) <= 1).
    { intros b Hb. destruct (Hprice b Hb) as [Hlo Hhi].
      destruct (normalized_range mn mx (price b) Hlt) as (_ & H0 & _ & H1).
      split; [apply clampT_inside; auto |]. auto. }
    split; [| split; [| split]].
    + intros b Hb. eexists. split; [apply Hpos |].
      destruct (Hin b Hb) as (E & H0 & H1). rewrite E.
      split; [reflexivity |]. split; lra.
    + intros b b' p p' Hb Hb' Hp Hp' Hbb.
      rewrite Hpos in Hp, Hp'. injection Hp as <-. injection Hp' as <-.
      destruct (Hin b Hb) as (E & _). destruct (Hin b' Hb') as (E' & _).
      rewrite E, E'.
      apply Qmult_lt_compat_r; [reflexivity |].
      unfold Qdiv. apply Qmult_lt_compat_r; [| lra].
      apply Qinv_lt_0_compat. lra.
    + destruct (distribution_covers rv mn Hmin) as (b & Hb & E).
      rewrite <- Hdist in Hb.
      exists b. eexists. split; [exact Hb |]. split; [apply Hpos |].
      destruct (Hin b Hb) as (Ec & _). rewrite Ec, E. field. lra.
    + destruct (distribution_covers rv mx Hmax) as (b & Hb & E).
      rewrite <- Hdist in Hb.
      exists b. eexists. split; [exact Hb |]. split; [apply Hpos |].
      destruct (Hin b Hb) as (Ec & _). rewrite Ec, E. field. lra.
  - intros Heq. split.
    + assert (Hle : (List.length (distribution st) <= 1)%nat).
      { apply strictly_sorted_single.
        - rewrite Hdist. apply distribution_strict.
        - intros a b Ha Hb'.
          destruct (Hprice a Ha), (Hprice b Hb'). lra. }
      destruct (distribution_covers rv mn Hmin) as (b & Hb & _).
      rewrite <- Hdist in Hb.
      destruct (distribution st); [contradiction | simpl in *; lia].
    + intros b. rewrite markerPosition_unfold. fold mn mx.
      destruct (Qeq_bool mx mn) eqn:E; [reflexivity |].
      apply Qeq_bool_neq in E. contradiction.
Qed.

Lemma markers_spread_over_the_bar_witness :
  (exists p, markerPosition located_stats bucket_2 = Some p /\ p == 50)
  /\ List.length (distribution (priceStats_summary [1.00; 1.00]
                                  (countsMap_of [1.00; 1.00]))) = 1%nat.
Proof.
  split.
  - destruct (markers_spread_over_the_bar "0001111041700" located_scope
                located_stats) as [H _]; [reflexivity |].
    destruct H as (H & _); [discriminate |].
    destruct (H bucket_2) as (p & Hp & E & _).
    + vm_compute. right. left. reflexivity.
    + exists p. split; [exact Hp |]. rewrite E. reflexivity.
  - destruct (markers_spread_over_the_bar "0001111041700"
                [store_a; store_d]
                (priceStats_summary [1.00; 1.00] (countsMap_of [1.00; 1.00])))
      as [_ H]; [reflexivity |].
    apply H. reflexivity.
Defined.

(** ** Without price rows *)

Lemma storesWithPrice_none_effective l :
  forall s, In s (storesWithPrice l []) -> EffectiveValue s = None.
Proof.
  intros s Hs. unfold storesWithPrice in Hs. simpl in Hs.
  apply in_map_iff in Hs. destruct Hs as (s0 & <- & _). reflexivity.
Qed.

(** X18. When there are no price rows (no product selected, or none
    fetched for it), no store carries a price and there are no statistics.
    With a product selected the map then gets no store at all, so it shows
    neither clusters nor points at any zoom; without a selection it gets
    every filtered store, and every store it colours has the fallback
    colour. *)
Theorem without_price_rows (l : list StorePoint) (sel : string) :
  effective_values (storesWithPrice l []) = []
  /\ App_priceStats sel (storesWithPrice l []) = None
  /\ (sel <> "" ->
      storesForMap sel (storesWithPrice l []) = []
      /\ forall zoom,
           PriceMap_classify (storesForMap sel (storesWithPrice l [])) zoom
           = {| clusters := []; individualPoints := [] |})
  /\ (sel = "" ->
      storesForMap sel (storesWithPrice l []) = storesWithPrice l []
      /\ Forall2 same_place (storesForMap sel (storesWithPrice l [])) l
      /\ forall s,
           In s (storesWithPrice l []) ->
           getPriceColor (priceRange (points (storesWithPrice l []))) s
           = FALLBACK_COLOR).
Proof.
  assert (Hnone : effective_values (storesWithPrice l []) = [])
    by (apply effective_values_nil, storesWithPrice_none_effective).
  split; [exact Hnone |].
  split.
  { unfold App_priceStats. apply priceStats_none. right.
    intros s Hs. apply storesWithPrice_none_effective with (l := l).
    unfold storesForMap in Hs. destruct (no_selection sel); [assumption |].
    now apply filter_In in Hs. }
  split.
  - intros Hsel.
    assert (Hempty : storesForMap sel (storesWithPrice l []) = []).
    { unfold storesForMap.
      destruct (no_selection sel) eqn:E;
        [apply no_selection_spec in E; contradiction |].
      destruct (filter has_price (storesWithPrice l [])) as [|s rest] eqn:Ef;
        [reflexivity |].
      assert (Hin : In s (filter has_price (storesWithPrice l [])))
        by (rewrite Ef; now left).
      apply filter_In in Hin. destruct Hin as [Hin Hp].
      rewrite has_price_effective in Hp.
      now rewrite (storesWithPrice_none_effective l s Hin) in Hp. }
    split; [exact Hempty |]. intros zoom. now rewrite Hempty.
  - intros ->. split; [reflexivity |]. split.
    + unfold storesForMap. simpl.
      induction l as [|s l IH]; simpl; constructor; auto.
      apply with_price_same_place.
    + intros s Hs. unfold getPriceColor, getPriceColor_t.
      rewrite getPriceColor_basePrice_effective.
      now rewrite (storesWithPrice_none_effective l s Hs).
Qed.

Lemma without_price_rows_witness :
  storesForMap "0001111041700" (storesWithPrice example_stores []) = []
  /\ map (getPriceColor (priceRange (points (storesWithPrice example_stores []))))
       (storesForMap "" (storesWithPrice example_stores []))
     = ["#007bff"; "#007bff"; "#007bff"; "#007bff"].
Proof.
  destruct (without_price_rows example_stores "0001111041700")
    as (_ & _ & H & _).
  destruct (without_price_rows example_stores "") as (_ & _ & _ & H').
  split.
  - apply H. discriminate.
  - destruct H' as (-> & _); reflexivity.
Defined.

(** ** Printed prices *)

(** X19. A price that is a whole number of hundredths is left as it is by
    the rounding of the statistics, so [toFixed(2)] prints the price and
    its rounded value alike: the price in the popup of such a store is the
    label of the bucket the store is counted in.  When the price is not
    negative, the text is the digits of its hundredths with a point before
    the last two.  And two prices that are whole numbers of hundredths are
    printed alike only if they are equal. *)
Theorem printed_price_is_bucket_label (base : Q) (k : Z) :
  base * 100 == inject_Z k ->
  round2 base == base
  /\ toFixed2 (round2 base) = toFixed2 base
  /\ ((0 <= k)%Z ->
      toFixed2 base
      = (decimal_of_N (Z.to_N k / 100) ++
         String "."
           (String (digit_char ((Z.to_N k / 10) mod 10))
              (String (digit_char (Z.to_N k mod 10)) "")))%string)
  /\ (forall y (m : Z),
         y * 100 == inject_Z m ->
         (toFixed2 base = toFixed2 y <-> base == y)).
Proof.
  intros Hb.
  assert (Hr : round2 base == base) by (apply round2_exact; eauto).
  split; [exact Hr |].
  split; [now apply toFixed2_wd |].
  split.
  - intros Hk. rewrite toFixed2_unfold.
    rewrite (is_negative_exact _ _ Hb), (hundredths_exact _ _ Hb).
    rewrite Z.abs_eq by assumption.
    destruct (Z.ltb_spec k 0); [lia | reflexivity].
  - intros y m Hy. split.
    + intros E. apply toFixed2_inj in E. destruct E as [Es Eh].
      rewrite (is_negative_exact _ _ Hb), (is_negative_exact _ _ Hy) in Es.
      rewrite (hundredths_exact _ _ Hb), (hundredths_exact _ _ Hy) in Eh.
      apply Z2N.inj in Eh; try apply Z.abs_nonneg.
      assert (k = m).
      { destruct (Z.ltb_spec k 0), (Z.ltb_spec m 0); try discriminate; lia. }
      subst m.
      assert (E : base * 100 == y * 100) by now rewrite Hb, Hy.
      lra.
    + apply toFixed2_wd.
Qed.

Lemma printed_price_is_bucket_label_witness :
  round2 1.05 == 1.05
  /\ toFixed2 (round2 1.05) = toFixed2 1.05
  /\ toFixed2 1.05 = "1.05"%string
  /\ (toFixed2 1.05 = toFixed2 (21 # 20) <-> 1.05 == 21 # 20).
Proof.
  destruct (printed_price_is_bucket_label 1.05 105) as (H1 & H2 & H3 & H4);
    [reflexivity |].
  split; [exact H1 |]. split; [exact H2 |].
  split; [rewrite H3 by lia; reflexivity |].
  apply (H4 (21 # 20) 105%Z). reflexivity.
Defined.

(** ** The statistics do not depend on the order of the stores *)

(** A rounded value is the fraction of its hundredths over 100, so equal
    rounded numbers are the same fraction. *)
Lemma round2_fraction v : round2 v = Qmake (Math_round (v * 100)) 100.
Proof.
  unfold round2, Qdiv, Qmult, Qinv, inject_Z. simpl.
  now rewrite Z.mul_1_r.
Qed.

Lemma round2_same a b : round2 a == round2 b -> round2 a = round2 b.
Proof.
  rewrite !round2_fraction. unfold Qeq. simpl. intros H.
  f_equal. lia.
Qed.

Lemma rounded_values_same sts a b :
  In a (rounded_values sts) -> In b (rounded_values sts) -> a == b -> a = b.
Proof.
  unfold rounded_values. intros Ha Hb.
  apply in_map_iff in Ha, Hb.
  destruct Ha as (x & <- & _). destruct Hb as (y & <- & _).
  apply round2_same.
Qed.

(** Two sorted lists with the same elements are the same list, when the
    order tells the elements apart. *)
Lemma sorted_unique {A : Type} (R : A -> A -> Prop) (l l' : list A) :
  (forall a, R a a) ->
  (forall a b, In a l -> In b l -> R a b -> R b a -> a = b) ->
  StronglySorted R l -> StronglySorted R l' -> Permutation l l' -> l = l'.
Proof.
  intros Hrefl. revert l'.
  induction l as [|a l IH]; intros l' Hanti Hs Hs' HP.
  - apply Permutation_nil in HP. now subst.
  - destruct l' as [|a' l'].
    { apply Permutation_sym, Permutation_nil in HP. discriminate. }
    apply StronglySorted_inv in Hs, Hs'.
    destruct Hs as [Hs Ha]. destruct Hs' as [Hs' Ha'].
    rewrite Forall_forall in Ha, Ha'.
    assert (Hin : In a' (a :: l))
      by (apply (Permutation_in _ (Permutation_sym HP)); now left).
    assert (Hin' : In a (a' :: l'))
      by (apply (Permutation_in _ HP); now left).
    assert (E : a = a').
    { apply Hanti; [now left | assumption | |].
      - destruct Hin as [-> | Hin]; auto.
      - destruct Hin' as [-> | Hin']; auto. }
    subst a'. f_equal.
    apply IH; auto.
    + intros x y Hx Hy. apply Hanti; now right.
    + now apply Permutation_cons_inv in HP.
Qed.

Lemma sort_values_unique sts sts' :
  Permutation (rounded_values sts) (rounded_values sts') ->
  sort Qle_bool (rounded_values sts) = sort Qle_bool (rounded_values sts').
Proof.
  intros HP.
  apply (sorted_unique Qle); auto using sort_values_sorted, Qle_refl.
  - intros a b Ha Hb H1 H2.
    apply (rounded_values_same sts).
    + now apply (Permutation_in _
                   (sort_permutation Qle_bool (rounded_values sts))).
    + now apply (Permutation_in _
                   (sort_permutation Qle_bool (rounded_values sts))).
    + now apply Qle_antisym.
  - rewrite !sort_permutation. exact HP.
Qed.

Lemma occurrences_permutation p vs ws :
  Permutation vs ws -> occurrences p vs = occurrences p ws.
Proof.
  intros H. unfold occurrences.
  apply Permutation_length. now apply filter_permutation.
Qed.

(** The prices kept in the counts are prices of the list. *)
Lemma countsMap_of_keys_in ps k :
  In k (map fst (countsMap_of ps)) -> In k ps.
Proof.
  revert k.
  apply (countsMap_of_invariant
           (fun m pre => forall k, In k (map fst m) -> In k pre)).
  - intros k [].
  - intros m pre x IH k Hk. unfold countsMap_add in Hk.
    rewrite Map_set_number_keys in Hk. apply in_or_app.
    destruct (Map_get Qeq_bool x m).
    + left. auto.
    + apply in_app_or in Hk. destruct Hk as [Hk | [<- | []]].
      * left. auto.
      * right. now left.
Qed.

(** The buckets, by price and count. *)
Lemma distribution_bucket sts b :
  In b (distribution_of (rounded_values sts))
  <-> In (price b) (rounded_values sts)
      /\ count b = occurrences (price b) (rounded_values sts).
Proof.
  split.
  - intros Hb. split; [| now apply distribution_count in Hb].
    apply distribution_in in Hb.
    apply countsMap_of_keys_in.
    change (price b) with (fst (price b, count b)). now apply in_map.
  - intros [Hp Hc].
    destruct (distribution_covers _ _ Hp) as (b' & Hb' & E).
    assert (Hp' : In (price b') (rounded_values sts)).
    { apply distribution_in in Hb'. apply countsMap_of_keys_in.
      change (price b') with (fst (price b', count b')). now apply in_map. }
    apply (rounded_values_same sts) in E; try assumption.
    destruct (distribution_count _ _ Hb') as [Hc' _].
    destruct b as [p c], b' as [p' c']. simpl in *. now subst.
Qed.

Lemma strictly_sorted_nodup (bs : list Bucket) :
  StronglySorted (fun a b => price a < price b) bs -> NoDup bs.
Proof.
  induction 1 as [|a l Hs IH Ha]; constructor; auto.
  intros Hin. rewrite Forall_forall in Ha. specialize (Ha a Hin). lra.
Qed.

Lemma distribution_unique sts sts' :
  Permutation (rounded_values sts) (rounded_values sts') ->
  distribution_of (rounded_values sts) = distribution_of (rounded_values sts').
Proof.
  intros HP.
  apply (sorted_unique (fun a b => price a <= price b)).
  - intros a. apply Qle_refl.
  - intros a b Ha Hb H1 H2.
    apply distribution_bucket in Ha, Hb.
    destruct Ha as [Ha Hca], Hb as [Hb Hcb].
    assert (E : price a = price b)
      by (apply (rounded_values_same sts); auto; now apply Qle_antisym).
    destruct a as [p c], b as [p' c']. simpl in *. subst. reflexivity.
  - apply sort_buckets_sorted.
  - apply sort_buckets_sorted.
  - apply NoDup_Permutation.
    + apply strictly_sorted_nodup, distribution_strict.
    + apply strictly_sorted_nodup, distribution_strict.
    + intros b. rewrite !distribution_bucket.
      rewrite (occurrences_permutation (price b) _ _ HP).
      split; intros [H1 H2]; split; auto;
        [apply (Permutation_in _ HP) |
         apply (Permutation_in _ (Permutation_sym HP))]; assumption.
Qed.

(** X20. The statistics depend on the stores only through the effective
    values they carry, whatever their order: two store lists with the same
    effective values up to order, for instance a list and a reordering of
    it, or a list and the same list without its unpriced stores, give the
    same statistics, field by field. *)
Theorem priceStats_order_independent
  (sel : string) (sts sts' : list StorePoint) :
  Permutation (effective_values sts) (effective_values sts') ->
  priceStats sel sts = priceStats sel sts'.
Proof.
  intros HP.
  assert (HR : Permutation (rounded_values sts) (rounded_values sts'))
    by (unfold rounded_values; now apply Permutation_map).
  rewrite !priceStats_unfold.
  destruct (no_selection sel); [reflexivity |].
  destruct (rounded_values sts) as [|v vs] eqn:E,
           (rounded_values sts') as [|v' vs'] eqn:E'.
  - reflexivity.
  - apply Permutation_nil in HR. discriminate.
  - apply Permutation_sym, Permutation_nil in HR. discriminate.
  - rewrite <- E, <- E' in *. f_equal.
    pose proof (sort_values_unique sts sts' HR) as Hv.
    pose proof (distribution_unique sts sts' HR) as Hd.
    unfold distribution_of in Hd.
    unfold priceStats_summary. rewrite Hv, Hd. reflexivity.
Qed.

Lemma priceStats_order_independent_witness :
  priceStats "0001111041700" example_stores
  = priceStats "0001111041700" example_stores_reordered.
Proof.
  apply priceStats_order_independent.
  unfold example_stores, example_stores_reordered.
  change (effective_values [store_d; store_c; store_b; store_a])
    with (rev (effective_values [store_a; store_b; store_c; store_d])).
  apply Permutation_rev.
Defined.
